(** * Viability kernel tools of vibly ([viability/viability.py])

    A shallow embedding of the N-dimensional grid tools, the transition map
    builders, the viability solver and the measure back-mapper, followed by
    the properties established about them.

    Conventions of the embedding.
    - Coordinates (numpy float64 values) are exact rationals [Q]; only their
      order, equality and sums are used.  NaN and infinities are outside the
      model.
    - Integer indices are [Z]; array shapes are [list nat].
    - A dense array is a row-major flat buffer together with its shape.
    - A Python exception is a [Raise] in the [result] monad. *)

From Stdlib Require Import ZArith QArith Qabs Lia Lqa List Bool Sorted.
From stdpp Require Import base list.
Import ListNotations.

Local Open Scope Z_scope.

(** ** Exceptions *)

Inductive exn : Type :=
| IndexError
| ValueError
| TypeError.

Inductive result (A : Type) : Type :=
| OK (a : A)
| Raise (e : exn).
Arguments OK {A} a.
Arguments Raise {A} e.

Definition bind {A B : Type} (m : result A) (f : A -> result B) : result B :=
  match m with
  | OK a => f a
  | Raise e => Raise e
  end.

Notation "'do' x <- m ; f" := (bind m (fun x => f))
  (at level 10, x name, m at level 100, f at level 200).

(** ** numpy primitives *)

Module Np.

(** A dense array: [shape] and the row-major (C order) buffer [data]. *)
Record ndarray (A : Type) : Type := NDArray { shape : list nat; data : list A }.
Arguments NDArray {A} shape data.
Arguments shape {A} _.
Arguments data {A} _.

(** [np.prod] of a shape. *)
Definition prod (shp : list nat) : nat := foldr Nat.mul 1%nat shp.

(** [np.size] of a one-dimensional grid. *)
Definition size {A : Type} (g : list A) : nat := length g.

Definition well_shaped {A : Type} (a : ndarray A) : Prop :=
  length (data a) = prod (shape a).

(** [np.zeros(shape, dtype=bool)] *)
Definition zeros (shp : list nat) : ndarray bool :=
  NDArray shp (replicate (prod shp) false).

Definition zeros_like {A : Type} (a : ndarray A) : ndarray bool :=
  NDArray (shape a) (replicate (length (data a)) false).

(** [a.astype(bool)] on an integer array. *)
Definition astype_bool (a : ndarray Z) : ndarray bool :=
  NDArray (shape a) (map (fun k => negb (k =? 0)) (data a)).

(** [np.array_equal] on boolean arrays. *)
Definition array_equal (a b : ndarray bool) : bool :=
  bool_decide (shape a = shape b) && bool_decide (data a = data b).

(** Row-major delinearisation, without the range check. *)
Fixpoint unravel (k : Z) (shp : list nat) : list Z :=
  match shp with
  | [] => []
  | _ :: rest =>
      (k / Z.of_nat (prod rest)) :: unravel (k mod Z.of_nat (prod rest)) rest
  end.

(** [np.unravel_index(k, shp)]: [ValueError] when [k] is not a valid flat
    index of the shape. *)
Definition unravel_index (k : Z) (shp : list nat) : result (list Z) :=
  if (0 <=? k) && (k <? Z.of_nat (prod shp)) then OK (unravel k shp)
  else Raise ValueError.

(** [np.ravel_multi_index(idx, shp)] with the default [mode='raise']. *)
Fixpoint ravel_from (acc : Z) (idx : list Z) (shp : list nat) : result Z :=
  match idx, shp with
  | [], [] => OK acc
  | i :: idx', n :: shp' =>
      if (0 <=? i) && (i <? Z.of_nat n)
      then ravel_from (acc * Z.of_nat n + i) idx' shp'
      else Raise ValueError
  | _, _ => Raise ValueError
  end.

Definition ravel_multi_index (idx : list Z) (shp : list nat) : result Z :=
  ravel_from 0 idx shp.

(** One coordinate of an index expression: negative values count from the
    end, anything else out of range is an [IndexError]. *)
Definition norm_index (n : nat) (i : Z) : result Z :=
  if (0 <=? i) && (i <? Z.of_nat n) then OK i
  else if (- Z.of_nat n <=? i) && (i <? 0) then OK (i + Z.of_nat n)
  else Raise IndexError.

Fixpoint offset_from (acc : Z) (idx : list Z) (shp : list nat) : result Z :=
  match idx, shp with
  | [], [] => OK acc
  | i :: idx', n :: shp' =>
      do j <- norm_index n i ;
      offset_from (acc * Z.of_nat n + j) idx' shp'
  | _, _ => Raise IndexError
  end.

(** [a[idx]] for a tuple [idx] with one entry per axis. *)
Definition get {A : Type} (a : ndarray A) (idx : list Z) : result A :=
  do off <- offset_from 0 idx (shape a) ;
  match data a !! Z.to_nat off with
  | Some v => OK v
  | None => Raise IndexError
  end.

(** [a[qdx]] where [qdx] is the position reached by [np.ndenumerate]: the
    arrays read at [qdx] have the shape of the enumerated one, so the
    multi-index is represented by its row-major position. *)
Definition get_flat {A : Type} (a : ndarray A) (qdx : nat) : result A :=
  match data a !! qdx with
  | Some v => OK v
  | None => Raise IndexError
  end.

(** [s[i]] on a one-dimensional vector. *)
Definition item {A : Type} (s : list A) (i : nat) : result A :=
  match s !! i with
  | Some v => OK v
  | None => Raise IndexError
  end.

(** Monotonicity test performed by [np.digitize] on its bins. *)
Fixpoint nondecreasing (a : list Q) : bool :=
  match a with
  | x :: (y :: _) as t => Qle_bool x y && nondecreasing t
  | _ => true
  end.

Fixpoint nonincreasing (a : list Q) : bool :=
  match a with
  | x :: (y :: _) as t => Qle_bool y x && nonincreasing t
  | _ => true
  end.

(** [np.searchsorted(a, v, side='right')] on ascending [a]: the first
    position [i] with [v < a[i]]. *)
Fixpoint searchsorted_right (a : list Q) (v : Q) : nat :=
  match a with
  | [] => 0%nat
  | b :: rest => if Qle_bool b v then S (searchsorted_right rest v) else 0%nat
  end.

(** [np.digitize(x, bins)] with the default [right=False]. *)
Definition digitize (x : Q) (bins : list Q) : result Z :=
  if nondecreasing bins then OK (Z.of_nat (searchsorted_right bins x))
  else if nonincreasing bins
       then OK (Z.of_nat (length bins - searchsorted_right (rev bins) x))
       else Raise ValueError.

(** [np.argmin]: position of the first minimum. *)
Fixpoint argmin_from (best_i : nat) (best : Q) (i : nat) (l : list Q) : nat :=
  match l with
  | [] => best_i
  | x :: rest =>
      if negb (Qle_bool best x) then argmin_from i x (S i) rest
      else argmin_from best_i best (S i) rest
  end.

Definition argmin (l : list Q) : result Z :=
  match l with
  | [] => Raise ValueError
  | x :: rest => OK (Z.of_nat (argmin_from 0 x 1 rest))
  end.

(** [np.isin(v, grid)] for a scalar [v]. *)
Definition isin (v : Q) (grid : list Q) : bool := existsb (Qeq_bool v) grid.

(** [itertools.product] of the lists [ls]: lexicographic order, last factor fastest. *)
Fixpoint product {A : Type} (ls : list (list A)) : list (list A) :=
  match ls with
  | [] => [[]]
  | l :: rest => flat_map (fun x => map (cons x) (product rest)) l
  end.

End Np.

Import Np.

(** ** Grid indexing *)

(** What [digitize_s] hands back: the index vector, or its raveled form when
    a [shape] is passed. *)
Inductive s_index : Type :=
| Unraveled (s_idx : list Z)
| Raveled (k : Z).

(** The two [for dim_idx, grid in enumerate(s_grid)] loops of [digitize_s].
    Coordinates are exact rationals, so the distances [|grid - s|] of the
    [to_bin=False] branch are exact, where numpy rounds each difference to a
    float: two distances that differ by less than the rounding can tie in the
    source and not here.  The branch agrees with the source when the
    coordinate is a grid point (distance 0, every other distance non-zero),
    which is how both builders call it: after [np.isin] has accepted every
    coordinate. *)
Fixpoint digitize_dims (to_bin : bool) (s : list Q) (dim_idx : nat)
    (s_grid : list (list Q)) : result (list Z) :=
  match s_grid with
  | [] => OK []
  | grid :: rest =>
      do v <- item s dim_idx ;
      do i <- (if to_bin then digitize v grid
               else argmin (map (fun g => Qabs (g - v)) grid)) ;
      do s_idx <- digitize_dims to_bin s (S dim_idx) rest ;
      OK (i :: s_idx)
  end.

Definition digitize_s (s : list Q) (s_grid : list (list Q))
    (shape : option (list nat)) (to_bin : bool) : result s_index :=
  do s_idx <- digitize_dims to_bin s 0 s_grid ;
  match shape with
  | None => OK (Unraveled s_idx)
  | Some shp => do k <- ravel_multi_index s_idx shp ; OK (Raveled k)
  end.

(** The inner loop of [get_grid_indices] over the coordinates of one
    neighbour: [OK false] when it leaves through [break], [OK true] when it
    runs to completion. *)
Fixpoint in_bounds (neighbor : list Z) (s_grid : list (list Q)) : result bool :=
  match neighbor with
  | [] => OK true
  | x :: rest =>
      if x <? 0 then OK false
      else match s_grid with
           | [] => Raise IndexError
           | grid :: grids =>
               if Z.of_nat (size grid) <=? x then OK false
               else in_bounds rest grids
           end
  end.

Fixpoint grid_coords (neighbors : list (list Z)) (s_grid : list (list Q))
    : result (list (list Z)) :=
  match neighbors with
  | [] => OK []
  | neighbor :: rest =>
      do keep <- in_bounds neighbor s_grid ;
      do coords <- grid_coords rest s_grid ;
      OK (if keep then neighbor :: coords else coords)
  end.

Definition get_grid_indices (bin_idx : list Z) (s_grid : list (list Q))
    : result (list (list Z)) :=
  grid_coords (product (map (fun x => [x - 1; x]) bin_idx)) s_grid.

(** ** Viability solver *)

(** The [for idx in edge_indices] loop of [is_outside], leaving with [True]
    at the first corner that is not in [S_V]. *)
Fixpoint any_corner_outside (S_V : ndarray bool) (edge_indices : list (list Z))
    : result bool :=
  match edge_indices with
  | [] => OK false
  | idx :: rest =>
      do v <- get S_V idx ;
      if negb v then OK true else any_corner_outside S_V rest
  end.

(** [is_outside] on a binned successor ([already_binned=True], the only way
    the solver calls it). *)
Definition is_outside (s : Z) (s_grid : list (list Q)) (S_V : ndarray bool)
    (on_grid : bool) : result bool :=
  do bin_idx <- unravel_index s (map (fun g => S (size g)) s_grid) ;
  if on_grid then
    do sdx <- unravel_index s (map size s_grid) ;
    do v <- get S_V sdx ;
    if v then OK false else OK true
  else
    do edge_indices <- get_grid_indices bin_idx s_grid ;
    if (0 <? length edge_indices)%nat
    then any_corner_outside S_V edge_indices
    else OK true.

Record Grids : Type := { states : list (list Q); actions : list (list Q) }.

(** [np.any] over one block of action entries. *)
Definition np_any (block : list bool) : bool := existsb id block.

(** [project_Q2S]: reduce the trailing action axes with [proj_opt]. *)
Definition project_Q2S {A B : Type} (Q : ndarray A) (grids : Grids)
    (proj_opt : list A -> B) : result (ndarray B) :=
  let ndim := length (shape Q) in
  let n_a := length (actions grids) in
  if (ndim <? n_a)%nat then Raise ValueError
  else
    let s_shape := take (ndim - n_a) (shape Q) in
    let block := prod (drop (ndim - n_a) (shape Q)) in
    OK (NDArray s_shape
          (map (fun i => proj_opt (take block (drop (i * block) (data Q))))
               (seq 0 (prod s_shape)))).

Inductive outcome (A : Type) : Type :=
| Done (a : A)
| Raised (e : exn)
| OutOfFuel.
Arguments Done {A} a.
Arguments Raised {A} e.
Arguments OutOfFuel {A}.

Section Solver.

Variable Q_map : ndarray Z.
Variable grids : Grids.
Variable Q_on_grid : ndarray bool.

(** The [for qdx, is_viable in np.ndenumerate(Q_V)] loop; [Q_V] is updated
    in place while [S_V] is the array computed before the pass. *)
Fixpoint prune (S_V : ndarray bool) (qdxs : list nat) (Q_V : list bool)
    : result (list bool) :=
  match qdxs with
  | [] => OK Q_V
  | qdx :: rest =>
      match Q_V !! qdx with
      | Some true =>
          do s <- get_flat Q_map qdx ;
          do on <- get_flat Q_on_grid qdx ;
          do out <- is_outside s (states grids) S_V on ;
          prune S_V rest (if out then <[qdx := false]> Q_V else Q_V)
      | _ => prune S_V rest Q_V
      end
  end.

(** One turn of the [while] body: the pruned [Q_V] and its projection. *)
Definition solver_pass (Q_V S_V : ndarray bool)
    : result (ndarray bool * ndarray bool) :=
  do d <- prune S_V (seq 0 (length (data Q_V))) (data Q_V) ;
  let Q_V' := NDArray (shape Q_V) d in
  do S_V' <- project_Q2S Q_V' grids np_any ;
  OK (Q_V', S_V').

(** [while not np.array_equal(S_V, S_old)], at most [fuel] turns. *)
Fixpoint QV_loop (fuel : nat) (Q_V S_V S_old : ndarray bool)
    : outcome (ndarray bool * ndarray bool) :=
  if array_equal S_V S_old then Done (Q_V, S_V)
  else
    match fuel with
    | O => OutOfFuel
    | S fuel' =>
        match solver_pass Q_V S_V with
        | Raise e => Raised e
        | OK (Q_V', S_V') => QV_loop fuel' Q_V' S_V' S_V
        end
    end.

End Solver.

(** The initial estimate of [Q_V]. *)
Definition initial_Q_V (Q_map : ndarray Z) (Q_V : option (ndarray bool))
    : ndarray bool :=
  match Q_V with
  | None => astype_bool Q_map
  | Some Q_V => Q_V
  end.

(** [Q_on_grid], or all-false flags of the shape of [Q_V] when none is
    passed. *)
Definition on_grid_or_zeros (Q_V : ndarray bool)
    (Q_on_grid : option (ndarray bool)) : ndarray bool :=
  match Q_on_grid with
  | None => zeros (shape Q_V)
  | Some Q_on_grid => Q_on_grid
  end.

Definition compute_QV (fuel : nat) (Q_map : ndarray Z) (grids : Grids)
    (Q_V : option (ndarray bool)) (Q_on_grid : option (ndarray bool))
    : outcome (ndarray bool * ndarray bool) :=
  let Q_V := initial_Q_V Q_map Q_V in
  let Q_on_grid := on_grid_or_zeros Q_V Q_on_grid in
  match project_Q2S Q_V grids np_any with
  | Raise e => Raised e
  | OK S_V => QV_loop Q_map grids Q_on_grid fuel Q_V S_V (zeros_like S_V)
  end.

(** ** Measure back-mapper *)

(** [for idx in edge_indices: measure += S_M[idx]] *)
Fixpoint add_corners (S_M : ndarray Q) (edge_indices : list (list Z))
    (measure : Q) : result Q :=
  match edge_indices with
  | [] => OK measure
  | idx :: rest =>
      do v <- get S_M idx ;
      add_corners S_M rest (measure + v)%Q
  end.

(** The value stored at one viable pair by [map_S2Q]. *)
Definition corner_measure (s : Z) (S_M : ndarray Q) (s_grid : list (list Q))
    (on_grid : bool) : result Q :=
  do sdx <- unravel_index s (if on_grid then shape S_M
                             else map S (shape S_M)) ;
  do edge_indices <- get_grid_indices sdx s_grid ;
  if (0 <? length edge_indices)%nat
  then do measure <- add_corners S_M edge_indices 0%Q ;
       OK (measure / inject_Z (Z.of_nat (length edge_indices)))%Q
  else OK 0%Q.

Section BackMap.

Variable Q_map : ndarray Z.
Variable S_M : ndarray Q.
Variable s_grid : list (list Q).
Variable Q_V : ndarray bool.
Variable Q_on_grid : ndarray bool.

(** The [for qdx, is_viable in np.ndenumerate(Q_V)] loop of [map_S2Q]. *)
Fixpoint fill_measure (qdxs : list nat) (Q_M : list Q) : result (list Q) :=
  match qdxs with
  | [] => OK Q_M
  | qdx :: rest =>
      match data Q_V !! qdx with
      | Some true =>
          do on <- get_flat Q_on_grid qdx ;
          do s <- get_flat Q_map qdx ;
          do measure <- corner_measure s S_M s_grid on ;
          fill_measure rest (<[qdx := measure]> Q_M)
      | _ => fill_measure rest Q_M
      end
  end.

End BackMap.

Definition map_S2Q (Q_map : ndarray Z) (S_M : ndarray Q)
    (s_grid : list (list Q)) (Q_V : option (ndarray bool))
    (Q_on_grid : option (ndarray bool)) : result (ndarray Q) :=
  let Q_on_grid :=
    match Q_on_grid with
    | None => zeros_like Q_map
    | Some Q_on_grid => Q_on_grid
    end in
  let Q_V :=
    match Q_V with
    | None => astype_bool Q_map
    | Some Q_V => Q_V
    end in
  do d <- fill_measure Q_map S_M s_grid Q_V Q_on_grid
            (seq 0 (length (data Q_V)))
            (replicate (prod (shape Q_map)) 0%Q) ;
  OK (NDArray (shape Q_map) d).

(** ** Transition map builders *)

Section Builders.

Context {X P : Type}.

(** The transition map object: the map itself ([call]) with the default
    parameters and the encode and decode helpers attached to it.  The
    builders are modelled with [verbose=0] and [keep_coords=False], their
    defaults: progress printing and the optional array of raw coordinates
    do not touch the three tables. *)
Record PMap : Type := {
  p : P;
  sa2xp : list Q -> P -> X * P;
  xp2s : X -> P -> list Q;
  call : X -> P -> X * bool
}.

(** The three flat buffers filled by a builder. *)
Record tables : Type := Tables {
  Q_map_buf : list Z;
  Q_F_buf : list bool;
  Q_on_grid_buf : list bool
}.

(** [for sdx, sval in enumerate(np.atleast_1d(s_next))] under [check_grid]:
    [OK false] when a coordinate is off its grid (the [break]), [OK true]
    when the loop reaches its [else]. *)
Fixpoint all_on_grid (s_next : list Q) (s_grid : list (list Q)) : result bool :=
  match s_next with
  | [] => OK true
  | sval :: rest =>
      match s_grid with
      | [] => Raise IndexError
      | grid :: grids =>
          if negb (isin sval grid) then OK false
          else all_on_grid rest grids
      end
  end.

(** Storing the outcome of [digitize_s] in one cell of [Q_map]. *)
Definition as_cell (r : s_index) : result Z :=
  match r with
  | Raveled k => OK k
  | Unraveled _ => Raise ValueError
  end.

(** The body shared, line for line, by the loops of [compute_Q_map] and
    [parcompute_Q_map] once [s_next] and [failed] are known. *)
Definition store (grids : Grids) (check_grid : bool) (idx : nat)
    (s_next : list Q) (failed : bool) (t : tables) : result tables :=
  let s_grid_shape := map size (states grids) in
  let s_bin_shape := map S s_grid_shape in
  if negb failed then
    if check_grid then
      do on <- all_on_grid s_next (states grids) ;
      if on then
        do r <- digitize_s s_next (states grids) (Some s_grid_shape) false ;
        do k <- as_cell r ;
        OK (Tables (<[idx := k]> (Q_map_buf t)) (Q_F_buf t)
                   (<[idx := true]> (Q_on_grid_buf t)))
      else
        do r <- digitize_s s_next (states grids) (Some s_bin_shape) true ;
        do k <- as_cell r ;
        OK (Tables (<[idx := k]> (Q_map_buf t)) (Q_F_buf t) (Q_on_grid_buf t))
    else
      do r <- digitize_s s_next (states grids) (Some s_bin_shape) true ;
      do k <- as_cell r ;
      OK (Tables (<[idx := k]> (Q_map_buf t)) (Q_F_buf t) (Q_on_grid_buf t))
  else OK (Tables (Q_map_buf t) (<[idx := true]> (Q_F_buf t)) (Q_on_grid_buf t)).

(** The arrays handed back: [Q_map], [Q_F] and, under [check_grid],
    [Q_on_grid], all reshaped to the state shape followed by the action
    shape. *)
Definition deliver (grids : Grids) (check_grid : bool) (t : tables)
    : ndarray Z * ndarray bool * option (ndarray bool) :=
  let shp := map size (states grids) ++ map size (actions grids) in
  (NDArray shp (Q_map_buf t), NDArray shp (Q_F_buf t),
   if check_grid then Some (NDArray shp (Q_on_grid_buf t)) else None).

(** [total_gridpoints]: [np.prod] of an empty list is the float [1.0], which
    [np.zeros] refuses as a dimension. *)
Definition total_gridpoints (grids : Grids) : result nat :=
  match states grids, actions grids with
  | _ :: _, _ :: _ =>
      OK (prod (map size (states grids)) * prod (map size (actions grids)))%nat
  | _, _ => Raise TypeError
  end.

Definition blank (n : nat) : tables :=
  Tables (replicate n 0) (replicate n false) (replicate n false).

Variable p_map : PMap.

(** The loop of [compute_Q_map]: encode, step, decode with the parameters
    returned by the encoder, store. *)
Fixpoint fill_seq (grids : Grids) (check_grid : bool) (idx : nat)
    (SA : list (list Q)) (t : tables) : result tables :=
  match SA with
  | [] => OK t
  | state_action :: rest =>
      let '(x, p) := sa2xp p_map state_action (p p_map) in
      let '(x_next, failed) := call p_map x p in
      let s_next := xp2s p_map x_next p in
      do t' <- store grids check_grid idx s_next failed t ;
      fill_seq grids check_grid (S idx) rest t'
  end.

Definition compute_Q_map (grids : Grids) (check_grid : bool)
    : result (ndarray Z * ndarray bool * option (ndarray bool)) :=
  do n <- total_gridpoints grids ;
  do t <- fill_seq grids check_grid 0
            (product (states grids ++ actions grids)) (blank n) ;
  OK (deliver grids check_grid t).

(** The third pass of [parcompute_Q_map]: [results[idx]] is decoded with
    the copy [p] of the default parameters. *)
Fixpoint fill_par (grids : Grids) (check_grid : bool) (p : P)
    (results : list (X * bool)) (idx : nat) (SA : list (list Q)) (t : tables)
    : result tables :=
  match SA with
  | [] => OK t
  | _ :: rest =>
      do r <- item results idx ;
      let '(x_next, failed) := r in
      let s_next := xp2s p_map x_next p in
      do t' <- store grids check_grid idx s_next failed t ;
      fill_par grids check_grid p results (S idx) rest t'
  end.

(** [pool.starmap(p_map, args)] with a pure map: the results in the order
    of the arguments. *)
Definition starmap (args : list (X * P)) : list (X * bool) :=
  map (fun a => call p_map (fst a) (snd a)) args.

Definition parcompute_Q_map (grids : Grids) (check_grid : bool)
    : result (ndarray Z * ndarray bool * option (ndarray bool)) :=
  let SA := product (states grids ++ actions grids) in
  let p := p p_map in
  let args := map (fun sa => sa2xp p_map sa p) SA in
  let results := starmap args in
  do n <- total_gridpoints grids ;
  do t <- fill_par grids check_grid p results 0 SA (blank n) ;
  OK (deliver grids check_grid t).

End Builders.

Arguments PMap : clear implicits.

(** ** Specification-side notions *)

(** Number of grid points at or below [v], and strictly below [v]. *)
Fixpoint count_le (g : list Q) (v : Q) : nat :=
  match g with
  | [] => 0%nat
  | b :: rest => ((if Qle_bool b v then 1 else 0) + count_le rest v)%nat
  end.

Fixpoint count_lt (g : list Q) (v : Q) : nat :=
  match g with
  | [] => 0%nat
  | b :: rest => ((if Qle_bool v b then 0 else 1) + count_lt rest v)%nat
  end.

(** A grid of the data model: strictly increasing coordinates. *)
Definition increasing (g : list Q) : Prop := StronglySorted Qlt g.

(** ** A one-dimensional toy system

    State grid [0, 1, 2], action grid [0, 1]; the step subtracts the action
    from the state and fails when the difference is negative. *)

Module Toy.

Definition g3 : list Q := [0; 1; 2]%Q.
Definition g2 : list Q := [0; 1]%Q.

Definition grids : Grids := {| states := [g3]; actions := [g2] |}.

(** The full state is the grid state, the parameter is the action; the step
    fails when the new state falls below [floor]. *)
Definition p_map (floor : Q) : PMap Q Q := {|
  p := 0%Q;
  sa2xp := fun state_action _ =>
             (List.nth 0 state_action 0%Q, List.nth 1 state_action 0%Q);
  xp2s := fun x _ => [x];
  call := fun x p => ((x - p)%Q, negb (Qle_bool floor (x - p)))
|}.

(** A variant whose step keeps the full state and never fails, and whose
    decoder measures the state relative to the parameter set by the
    encoder. *)
Definition relative : PMap Q Q := {|
  p := 0%Q;
  sa2xp := fun state_action _ =>
             (List.nth 0 state_action 0%Q, List.nth 1 state_action 0%Q);
  xp2s := fun x p => [(x - p)%Q];
  call := fun x _ => (x, false)
|}.

(** The tables of the system with floor 0. *)
Definition Q_map : ndarray Z := NDArray [3; 2]%nat [1; 0; 2; 1; 3; 2].
Definition Q_F : ndarray bool :=
  NDArray [3; 2]%nat [false; true; false; false; false; false].

(** A seed in which state 0 is not viable, and the fixed point reached
    from it. *)
Definition seed : ndarray bool :=
  NDArray [3; 2]%nat [false; false; true; true; true; true].
Definition Q_V : ndarray bool :=
  NDArray [3; 2]%nat [false; false; true; false; true; true].
Definition S_V : ndarray bool := NDArray [3]%nat [false; true; true].

(** The unseeded start of the solver on [Q_map], which is already a fixed
    point. *)
Definition Q_N : ndarray bool :=
  NDArray [3; 2]%nat [true; false; true; true; true; true].
Definition S_N : ndarray bool := NDArray [3]%nat [true; true; true].

(** A measure over the three states and its lift to the pairs of [Q_V]. *)
Definition S_M : ndarray Q := NDArray [3]%nat [0; 1; 1 # 2]%Q.
Definition Q_M : ndarray Q :=
  Eval vm_compute in
    match map_S2Q Q_map S_M [g3] (Some Q_V) None with
    | OK Q_M => Q_M
    | Raise _ => NDArray [] []
    end.

(** The tables built for [relative] by the sequential and by the parallel
    builder. *)
Definition Q_F_none : ndarray bool := NDArray [3; 2]%nat (replicate 6 false).
Definition Q_map_seq : ndarray Z := NDArray [3; 2]%nat [1; 0; 2; 1; 3; 2].
Definition Q_map_par : ndarray Z := NDArray [3; 2]%nat [1; 1; 2; 2; 3; 3].

End Toy.

(** A multi-index within a shape, coordinate by coordinate. *)
Definition in_range (idx : list Z) (shp : list nat) : Prop :=
  Forall2 (fun x n => 0 <= x < Z.of_nat n) idx shp.

(** Grid nodes inside the grid, coordinate by coordinate. *)
Definition on_the_grid (idx : list Z) (s_grid : list (list Q)) : Prop :=
  Forall2 (fun x g => 0 <= x < Z.of_nat (size g)) idx s_grid.

(** The hypercube corners adjacent to a bin, coordinate by coordinate. *)
Definition adjacent (idx bin_idx : list Z) : Prop :=
  Forall2 (fun x b => x = b - 1 \/ x = b) idx bin_idx.

(** Number of true entries of a boolean buffer. *)
Fixpoint count_true (l : list bool) : nat :=
  match l with
  | [] => 0%nat
  | b :: rest => ((if b then 1 else 0) + count_true rest)%nat
  end.

(** [a] is pointwise below [b]: same length, and true in [a] only where
    true in [b]. *)
Definition subset (a b : list bool) : Prop :=
  Forall2 (fun x y => x = true -> y = true) a b.

(** The transition table is usable by the solver on [Q_V]: one entry per
    pair, each a valid flat index of the grid shape (pairs flagged on-grid)
    or of the bin shape (the others). *)
Definition valid_tables (Q_map : ndarray Z) (Q_on_grid : ndarray bool)
    (s_grid : list (list Q)) (n : nat) : Prop :=
  length (data Q_map) = n
  /\ length (data Q_on_grid) = n
  /\ forall (q : nat) (s : Z) (on : bool),
       data Q_map !! q = Some s -> data Q_on_grid !! q = Some on ->
       0 <= s < Z.of_nat (prod (if on then map size s_grid
                                else map (fun g => S (size g)) s_grid)).

(** A fixed point of the solver: one pruning pass against its own
    projection leaves [Q_V] as it is. *)
Definition converged (Q_map : ndarray Z) (grids : Grids)
    (Q_on_grid : ndarray bool) (Q_V S_V : ndarray bool) : Prop :=
  project_Q2S Q_V grids np_any = OK S_V
  /\ prune Q_map grids Q_on_grid S_V (seq 0 (length (data Q_V))) (data Q_V)
     = OK (data Q_V).

(** Arithmetic mean of a list of values. *)
Definition mean (vals : list Q) : Q :=
  (foldr Qplus 0 vals / inject_Z (Z.of_nat (length vals)))%Q.

(** What the solver loop maintains: [Q_V] has the shape of the grids and
    [n] entries, and [S_V] is its projection. *)
Definition solver_state (grids : Grids) (n : nat) (Q_V S_V : ndarray bool)
    : Prop :=
  shape Q_V = map size (states grids) ++ map size (actions grids)
  /\ length (data Q_V) = n
  /\ project_Q2S Q_V grids np_any = OK S_V.

(** What the builder loops maintain before visiting position [idx]: a
    failed pair keeps the default 0 in [Q_map], and the positions still to
    be visited hold the defaults. *)
Definition tables_inv (idx : nat) (t : tables) : Prop :=
  length (Q_map_buf t) = length (Q_F_buf t)
  /\ (forall q, Q_F_buf t !! q = Some true -> Q_map_buf t !! q = Some 0)
  /\ (forall q, (idx <= q)%nat ->
        Q_F_buf t !! q <> Some true
        /\ ((q < length (Q_map_buf t))%nat -> Q_map_buf t !! q = Some 0)).

(** ** The remaining grid tools *)

(** [grid[k]] on a one-dimensional array: a negative [k] counts from the
    end, anything else out of range is an [IndexError]. *)
Definition item_wrap {A : Type} (grid : list A) (k : Z) : result A :=
  do j <- norm_index (length grid) k ;
  item grid (Z.to_nat j).

(** The [for dim, grid in enumerate(s_grid)] loop of
    [get_state_from_ravel]. *)
Fixpoint get_state_dims (bin_idx : list Z) (dim : nat)
    (s_grid : list (list Q)) : result (list Q) :=
  match s_grid with
  | [] => OK []
  | grid :: rest =>
      do b <- item bin_idx dim ;
      do c <- (if Z.of_nat (size grid) <=? b
               then item_wrap grid (Z.of_nat (size grid) - 1)
               else item_wrap grid b) ;
      do s <- get_state_dims bin_idx (S dim) rest ;
      OK (c :: s)
  end.

(** [get_state_from_ravel]: a grid point for a bin vector. *)
Definition get_state_from_ravel (bin_idx : list Z) (s_grid : list (list Q))
    : result (list Q) :=
  get_state_dims bin_idx 0 s_grid.

(** [np.mean] over one block of boolean entries. *)
Definition np_mean (block : list bool) : Q :=
  (inject_Z (Z.of_nat (count_true block))
   / inject_Z (Z.of_nat (length block)))%Q.

Section Feasibility.

Context {X P : Type}.
Variable feasible : X -> P -> bool.
Variable encode : list Q -> P -> X * P.

(** The loop of [get_feasibility_mask]. *)
Fixpoint fill_feasible (p0 : P) (idx : nat) (SA : list (list Q))
    (Q_feasible : list bool) : list bool :=
  match SA with
  | [] => Q_feasible
  | state_action :: rest =>
      let '(x, p) := encode state_action p0 in
      fill_feasible p0 (S idx) rest (<[idx := feasible x p]> Q_feasible)
  end.

(** [get_feasibility_mask(feasible, sa2xp, grids, x0, p0)]; [x0] is not
    used by the source either. *)
Definition get_feasibility_mask (grids : Grids) (x0 : X) (p0 : P)
    : result (ndarray bool) :=
  do n <- total_gridpoints grids ;
  OK (NDArray (map size (states grids) ++ map size (actions grids))
        (fill_feasible p0 0 (product (states grids ++ actions grids))
           (replicate n false))).

End Feasibility.

(** What the builder loops maintain for the solver, before visiting
    position [idx]: three buffers of one length, every entry of [Q_map] a
    valid flat index for the flag stored beside it, and no flag set at the
    positions still to be visited (nor anywhere without [check_grid]). *)
Definition tables_usable (grids : Grids) (check_grid : bool) (n idx : nat)
    (t : tables) : Prop :=
  length (Q_map_buf t) = n
  /\ length (Q_F_buf t) = n
  /\ length (Q_on_grid_buf t) = n
  /\ (forall (q : nat) (s : Z) (on : bool),
        Q_map_buf t !! q = Some s -> Q_on_grid_buf t !! q = Some on ->
        0 <= s < Z.of_nat (prod (if on then map size (states grids)
                                 else map (fun g => S (size g))
                                        (states grids))))
  /\ (forall q, (idx <= q)%nat \/ check_grid = false ->
        Q_on_grid_buf t !! q <> Some true).

(** The grid point with multi-index [idx]: coordinate by coordinate, the
    entry of the grid at that position. *)
Definition point_at (ls : list (list Q)) (idx : list Z) (sa : list Q) : Prop :=
  length sa = length ls
  /\ forall (d : nat) (l : list Q), ls !! d = Some l ->
     exists (k : nat) (x : Q),
       idx !! d = Some (Z.of_nat k) /\ l !! k = Some x /\ sa !! d = Some x.


(** [~a] on a boolean array, as the demos seed the solver with [~Q_F]. *)
Definition invert (a : ndarray bool) : ndarray bool :=
  NDArray (shape a) (map negb (data a)).


(** What a builder records for a grid point whose step gave [s_next] and
    [failed]: the entry [m] of [Q_map], [f] of [Q_F] and [o] of
    [Q_on_grid].  A failed point keeps the defaults; otherwise [Q_map]
    holds the raveled nearest node when all coordinates of [s_next] are on
    the grid and [check_grid] is set, and the raveled bin otherwise. *)
Definition recorded (grids : Grids) (check_grid : bool) (s_next : list Q)
    (failed : bool) (m : Z) (f o : bool) : Prop :=
  f = failed
  /\ if failed then m = 0 /\ o = false
     else if check_grid
          then all_on_grid s_next (states grids) = OK o
               /\ digitize_s s_next (states grids)
                    (Some (if o then map size (states grids)
                           else map S (map size (states grids))))
                    (negb o)
                  = OK (Raveled m)
          else o = false
               /\ digitize_s s_next (states grids)
                    (Some (map S (map size (states grids)))) true
                  = OK (Raveled m).

(** The three buffers have [n] entries and still hold their defaults from
    position [idx] on. *)
Definition fresh_from (n idx : nat) (t : tables) : Prop :=
  length (Q_map_buf t) = n
  /\ length (Q_F_buf t) = n
  /\ length (Q_on_grid_buf t) = n
  /\ forall q, (idx <= q < n)%nat ->
       Q_map_buf t !! q = Some 0
       /\ Q_F_buf t !! q = Some false
       /\ Q_on_grid_buf t !! q = Some false.


(** The decoded successor and the failure flag of a grid point, as the
    loop of [compute_Q_map] computes them. *)
Definition step_of {X P : Type} (p_map : PMap X P) (state_action : list Q)
    : list Q * bool :=
  let '(x, p) := sa2xp p_map state_action (p p_map) in
  let '(x_next, failed) := call p_map x p in
  (xp2s p_map x_next p, failed).


(** The transition map object whose decoder always reads the default
    parameters, whatever parameters it is handed. *)
Definition with_default_decoder {X P : Type} (p_map : PMap X P) : PMap X P := {|
  p := p p_map;
  sa2xp := sa2xp p_map;
  xp2s := fun x _ => xp2s p_map x (p p_map);
  call := call p_map
|}.


(** * Properties *)

(** ** The result monad *)

Lemma bind_OK {A B : Type} (m : result A) (f : A -> result B) (b : B) :
  bind m f = OK b -> exists a, m = OK a /\ f a = OK b.
Proof. destruct m as [a|e]; simpl; [eauto | discriminate]. Qed.

Ltac inv_bind H :=
  let a := fresh "a" in
  let Ha := fresh "Ha" in
  apply bind_OK in H; destruct H as (a & Ha & H).

(** ** Digitization *)

Lemma increasing_nondecreasing (g : list Q) :
  increasing g -> nondecreasing g = true.
Proof.
  induction 1 as [|x t Hs IH Hall]; [reflexivity|].
  destruct t as [|y t']; [reflexivity|].
  change (Qle_bool x y && nondecreasing (y :: t') = true).
  rewrite IH, andb_true_r. apply Qle_bool_iff, Qlt_le_weak.
  by inversion Hall.
Qed.

Lemma count_le_all_above (g : list Q) (v : Q) :
  Forall (fun b => (v < b)%Q) g -> count_le g v = 0%nat.
Proof.
  induction 1 as [|b t Hb _ IH]; [reflexivity|]. simpl. rewrite IH.
  destruct (Qle_bool b v) eqn:E; [|reflexivity].
  apply Qle_bool_iff in E. exfalso. eapply Qlt_not_le; eauto.
Qed.

Lemma searchsorted_right_count (g : list Q) (v : Q) :
  increasing g -> searchsorted_right g v = count_le g v.
Proof.
  induction 1 as [|b t Hs IH Hall]; [reflexivity|]. simpl.
  destruct (Qle_bool b v) eqn:E; [by rewrite IH|].
  symmetry. apply count_le_all_above.
  eapply Forall_impl; [exact Hall|]. intros x Hx. simpl in Hx.
  eapply Qlt_trans; [|exact Hx].
  apply Qnot_le_lt. intros Hle. apply Qle_bool_iff in Hle. congruence.
Qed.

Lemma digitize_increasing (v : Q) (g : list Q) :
  increasing g -> digitize v g = OK (Z.of_nat (count_le g v)).
Proof.
  intros Hg. unfold digitize.
  by rewrite (increasing_nondecreasing g Hg), searchsorted_right_count.
Qed.

Lemma count_le_bound (g : list Q) (v : Q) : (count_le g v <= length g)%nat.
Proof. induction g as [|b t IH]; simpl; [lia|]. destruct (Qle_bool b v); lia. Qed.

Lemma count_le_full (g : list Q) (v : Q) :
  count_le g v = length g <-> Forall (fun b => (b <= v)%Q) g.
Proof.
  induction g as [|b t IH]; simpl.
  - split; [constructor | reflexivity].
  - pose proof (count_le_bound t v) as Hb.
    destruct (Qle_bool b v) eqn:E; split; intros H.
    + constructor; [by apply Qle_bool_iff | apply IH; lia].
    + inversion H; subst. f_equal. simpl. by apply IH.
    + lia.
    + inversion H; subst. apply Qle_bool_iff in H2. congruence.
Qed.

Lemma count_le_first (first : Q) (t : list Q) (v : Q) :
  increasing (first :: t) ->
  count_le (first :: t) v = 0%nat <-> (v < first)%Q.
Proof.
  intros Hs. split; intros H.
  - simpl in H. destruct (Qle_bool first v) eqn:E; [lia|].
    apply Qnot_le_lt. intros Hle. apply Qle_bool_iff in Hle. congruence.
  - apply count_le_all_above. inversion Hs as [|? ? _ Hall]; subst.
    constructor; [done|].
    eapply Forall_impl; [exact Hall|]. intros x Hx. simpl in Hx.
    by eapply Qlt_trans.
Qed.

Lemma increasing_below_last (g : list Q) (lst : Q) :
  increasing g -> last g = Some lst -> Forall (fun b => (b <= lst)%Q) g.
Proof.
  induction 1 as [|b t Hs IH Hall]; intros Hl; [constructor|].
  destruct t as [|y t'].
  - simpl in Hl. injection Hl as <-. constructor; [apply Qle_refl | constructor].
  - change (last (y :: t') = Some lst) in Hl.
    specialize (IH Hl). constructor; [|exact IH].
    inversion Hall as [|? ? Hby _]; subst. inversion IH; subst.
    eapply Qle_trans; [apply Qlt_le_weak; exact Hby | done].
Qed.

Lemma count_le_last (g : list Q) (lst v : Q) :
  increasing g -> last g = Some lst ->
  count_le g v = length g <-> (lst <= v)%Q.
Proof.
  intros Hs Hl. rewrite count_le_full. split; intros H.
  - assert (Hin : lst ∈ g).
    { clear -Hl. induction g as [|b t IH]; [discriminate|].
      destruct t as [|y t']; [injection Hl as <-; left|].
      right. by apply IH. }
    by apply (proj1 (Forall_forall _ _) H).
  - eapply Forall_impl; [by apply increasing_below_last|].
    intros x Hx. simpl in Hx. by eapply Qle_trans.
Qed.

Lemma digitize_dims_bins (s : list Q) (s_grid : list (list Q)) :
  Forall increasing s_grid ->
  forall (d0 : nat) (s_idx : list Z),
  digitize_dims true s d0 s_grid = OK s_idx ->
  forall (d : nat) (grid : list Q), s_grid !! d = Some grid ->
  exists v, s !! (d0 + d)%nat = Some v
            /\ s_idx !! d = Some (Z.of_nat (count_le grid v)).
Proof.
  induction 1 as [|g rest Hg _ IH]; intros d0 s_idx H d grid Hd; [done|].
  simpl in H. inv_bind H. rename a into v.
  rewrite (digitize_increasing v g Hg) in H. simpl in H.
  inv_bind H. rename a into tl. injection H as <-.
  unfold item in Ha. destruct (s !! d0) as [v'|] eqn:Hv; [|discriminate].
  injection Ha as ->.
  destruct d as [|d]; simpl in Hd.
  - injection Hd as ->. exists v. by rewrite Nat.add_0_r.
  - destruct (IH (S d0) tl Ha0 d grid Hd) as (w & Hw & Hi).
    exists w. split; [|exact Hi]. rewrite <- Hw. f_equal. lia.
Qed.

Lemma digitize_dims_short (s : list Q) (s_grid : list (list Q)) :
  Forall increasing s_grid ->
  forall d0 : nat, (d0 <= length s < d0 + length s_grid)%nat ->
  digitize_dims true s d0 s_grid = Raise IndexError.
Proof.
  induction 1 as [|g rest Hg _ IH]; intros d0 Hlen; simpl in *; [lia|].
  unfold item. destruct (s !! d0) as [v|] eqn:Hv; [|reflexivity]. simpl.
  rewrite (digitize_increasing v g Hg). simpl.
  apply lookup_lt_Some in Hv.
  rewrite IH; [reflexivity | lia].
Qed.

Lemma digitize_dims_long (s : list Q) (s_grid : list (list Q)) :
  Forall increasing s_grid ->
  forall d0 : nat, (d0 + length s_grid <= length s)%nat ->
  exists s_idx, digitize_dims true s d0 s_grid = OK s_idx
                /\ length s_idx = length s_grid
                /\ digitize_dims true (take (d0 + length s_grid) s) d0 s_grid
                   = OK s_idx.
Proof.
  induction 1 as [|g rest Hg _ IH]; intros d0 Hlen; simpl in *.
  - by exists [].
  - destruct (IH (S d0)) as (tl & Htl & Hl & Htk); [lia|].
    destruct (lookup_lt_is_Some_2 s d0) as [v Hv]; [lia|].
    exists (Z.of_nat (count_le g v) :: tl). unfold item. rewrite Hv. simpl.
    rewrite (digitize_increasing v g Hg). simpl. rewrite Htl. simpl.
    split; [reflexivity|]. split; [by rewrite Hl|].
    rewrite lookup_take_lt by lia. rewrite Hv. simpl.
    rewrite (digitize_increasing v g Hg). simpl.
    replace (d0 + S (length rest))%nat with (S d0 + length rest)%nat by lia.
    by rewrite Htk.
Qed.

(** C3 (as amended).  With strictly increasing grids, every entry of the
    index vector returned by [digitize_s] is the number of grid points of its
    dimension that are less than or equal to the coordinate (bins closed on
    the left, open on the right): it is 0 exactly when the coordinate is
    below the first grid point and the grid size exactly when the coordinate
    is at or above the last one. *)
Theorem digitize_s_bin_counts (s : list Q) (s_grid : list (list Q))
    (s_idx : list Z) :
  Forall increasing s_grid ->
  digitize_s s s_grid None true = OK (Unraveled s_idx) ->
  forall (d : nat) (grid : list Q), s_grid !! d = Some grid ->
  exists v, s !! d = Some v
    /\ s_idx !! d = Some (Z.of_nat (count_le grid v))
    /\ (forall first, head grid = Some first ->
          count_le grid v = 0%nat <-> (v < first)%Q)
    /\ (forall lst, last grid = Some lst ->
          count_le grid v = length grid <-> (lst <= v)%Q).
Proof.
  intros Hs H d grid Hd. unfold digitize_s in H. inv_bind H.
  injection H as ->.
  destruct (digitize_dims_bins s s_grid Hs 0%nat s_idx Ha d grid Hd)
    as (v & Hv & Hi).
  assert (Hg : increasing grid).
  { apply list_elem_of_lookup_2 in Hd.
    by apply (proj1 (Forall_forall _ _) Hs). }
  exists v. repeat split; try done.
  - destruct grid as [|b t]; [discriminate|]. injection H as <-.
    by apply count_le_first.
  - destruct grid as [|b t]; [discriminate|]. injection H as <-.
    by apply count_le_first.
  - by apply count_le_last.
  - by apply count_le_last.
Qed.

Lemma digitize_s_bin_counts_witness :
  exists v, [1 # 2]%Q !! 0%nat = Some v
    /\ [1] !! 0%nat = Some (Z.of_nat (count_le Toy.g3 v))
    /\ (forall first, head Toy.g3 = Some first ->
          count_le Toy.g3 v = 0%nat <-> (v < first)%Q)
    /\ (forall lst, last Toy.g3 = Some lst ->
          count_le Toy.g3 v = length Toy.g3 <-> (lst <= v)%Q).
Proof.
  apply (digitize_s_bin_counts [1 # 2]%Q [Toy.g3] [1]).
  - repeat constructor.
  - reflexivity.
  - reflexivity.
Defined.

(** C3 (as stated) fails: the coordinate 0 on the grid [0, 1, 2] is put in
    bin 1, although no grid point is strictly below it. *)
Lemma digitize_s_count_lt_fails :
  ~ (forall (g : list Q) (v : Q) (i : Z),
       increasing g ->
       digitize_s [v] [g] None true = OK (Unraveled [i]) ->
       i = Z.of_nat (count_lt g v)).
Proof.
  intros H. specialize (H Toy.g3 0%Q 1).
  assert (Hg : increasing Toy.g3) by repeat constructor.
  specialize (H Hg eq_refl). vm_compute in H. discriminate.
Qed.

(** C9 (as amended).  With strictly increasing grids, [digitize_s] raises
    an index error when the point has fewer coordinates than there are
    grids; when it has at least as many it succeeds, returns one bin per
    grid and ignores the surplus coordinates. *)
Theorem digitize_s_dimensions (s : list Q) (s_grid : list (list Q)) :
  Forall increasing s_grid ->
  ((length s < length s_grid)%nat ->
     digitize_s s s_grid None true = Raise IndexError)
  /\ ((length s_grid <= length s)%nat ->
        exists s_idx,
          digitize_s s s_grid None true = OK (Unraveled s_idx)
          /\ length s_idx = length s_grid
          /\ digitize_s (take (length s_grid) s) s_grid None true
             = OK (Unraveled s_idx)).
Proof.
  intros Hs. unfold digitize_s. split; intros Hlen.
  - rewrite digitize_dims_short; [reflexivity | done | lia].
  - destruct (digitize_dims_long s s_grid Hs 0%nat) as (s_idx & H1 & H2 & H3);
      [simpl; lia|].
    exists s_idx. simpl in H3. by rewrite H1, H3.
Qed.

Lemma digitize_s_dimensions_witness :
  (length [1 # 2; 7]%Q < length [Toy.g2] ->
     digitize_s [1 # 2; 7]%Q [Toy.g2] None true = Raise IndexError)%nat
  /\ ((length [Toy.g2] <= length [1 # 2; 7]%Q)%nat ->
        exists s_idx,
          digitize_s [1 # 2; 7]%Q [Toy.g2] None true = OK (Unraveled s_idx)
          /\ length s_idx = length [Toy.g2]
          /\ digitize_s (take (length [Toy.g2]) [1 # 2; 7]%Q) [Toy.g2] None true
             = OK (Unraveled s_idx)).
Proof.
  apply (digitize_s_dimensions [1 # 2; 7]%Q [Toy.g2]).
  repeat constructor.
Defined.

(** C9 (as stated) fails: a point with two coordinates is digitized on a
    one-dimensional grid tuple without any error. *)
Lemma digitize_s_longer_point_succeeds :
  ~ (forall (s : list Q) (s_grid : list (list Q)),
       length s <> length s_grid ->
       exists e, digitize_s s s_grid None true = Raise e).
Proof.
  intros H. destruct (H [1 # 2; 7]%Q [Toy.g2]) as [e He].
  - simpl. lia.
  - vm_compute in He. discriminate.
Qed.

(** ** Index arithmetic *)

Lemma prod_cons (n : nat) (shp : list nat) :
  Z.of_nat (prod (n :: shp)) = Z.of_nat n * Z.of_nat (prod shp).
Proof. unfold prod. simpl. lia. Qed.

Lemma unravel_in_range (shp : list nat) :
  forall k : Z, 0 <= k < Z.of_nat (prod shp) -> in_range (unravel k shp) shp.
Proof.
  induction shp as [|n rest IH]; intros k Hk; simpl; [constructor|].
  rewrite prod_cons in Hk.
  assert (HP : 0 < Z.of_nat (prod rest)) by nia.
  constructor.
  - split; [apply Z.div_pos; lia|].
    apply Z.div_lt_upper_bound; [done | nia].
  - apply IH. by apply Z.mod_pos_bound.
Qed.

Lemma unravel_index_OK (k : Z) (shp : list nat) :
  0 <= k < Z.of_nat (prod shp) -> unravel_index k shp = OK (unravel k shp).
Proof.
  intros Hk. unfold unravel_index.
  destruct (0 <=? k) eqn:E1; [|lia]. destruct (k <? Z.of_nat (prod shp)) eqn:E2; [|lia].
  reflexivity.
Qed.

Lemma unravel_index_inv (k : Z) (shp : list nat) (idx : list Z) :
  unravel_index k shp = OK idx ->
  0 <= k < Z.of_nat (prod shp) /\ idx = unravel k shp.
Proof.
  unfold unravel_index.
  destruct (0 <=? k) eqn:E1; [|discriminate].
  destruct (k <? Z.of_nat (prod shp)) eqn:E2; [|discriminate].
  simpl. intros [= <-]. split; [lia | done].
Qed.

Lemma offset_from_in_range (idx : list Z) (shp : list nat) :
  in_range idx shp ->
  forall acc : Z, 0 <= acc ->
  exists off, offset_from acc idx shp = OK off
    /\ acc * Z.of_nat (prod shp) <= off < (acc + 1) * Z.of_nat (prod shp).
Proof.
  induction 1 as [|x n idx' shp' Hx _ IH]; intros acc Hacc.
  - exists acc. unfold prod. simpl. split; [done | lia].
  - rewrite prod_cons. cbn [offset_from]. unfold norm_index.
    destruct (0 <=? x) eqn:E1; [|lia]. destruct (x <? Z.of_nat n) eqn:E2; [|lia].
    cbn [andb bind]. destruct (IH (acc * Z.of_nat n + x)) as (off & Hoff & Hb); [nia|].
    exists off. split; [done|]. nia.
Qed.

Lemma get_in_range {A : Type} (a : ndarray A) (idx : list Z) :
  well_shaped a -> in_range idx (shape a) -> exists v, get a idx = OK v.
Proof.
  intros Hw Hr. unfold get.
  destruct (offset_from_in_range idx (shape a) Hr 0) as (off & -> & Hb); [lia|].
  simpl. destruct (lookup_lt_is_Some_2 (data a) (Z.to_nat off)) as [v ->]; [|by eauto].
  rewrite Hw. lia.
Qed.

(** ** Corners of a bin *)

Lemma product_length {A : Type} (ls : list (list A)) :
  forall nb : list A, In nb (product ls) -> length nb = length ls.
Proof.
  induction ls as [|l rest IH]; intros nb Hin; simpl in Hin.
  - destruct Hin as [<-|[]]. reflexivity.
  - apply in_flat_map in Hin. destruct Hin as (x & _ & Hin).
    apply in_map_iff in Hin. destruct Hin as (tl & <- & Htl).
    simpl. f_equal. by apply IH.
Qed.

Lemma product_In {A : Type} (ls : list (list A)) (nb : list A) :
  In nb (product ls) <-> Forall2 (fun x l => In x l) nb ls.
Proof.
  revert nb. induction ls as [|l rest IH]; intros nb; simpl.
  - split.
    + intros [<-|[]]. constructor.
    + intros H. inversion H. by left.
  - rewrite in_flat_map. split.
    + intros (x & Hx & Hin). apply in_map_iff in Hin.
      destruct Hin as (tl & <- & Htl). constructor; [done | by apply IH].
    + intros H. inversion H as [|x ? tl ? Hx Htl]; subst.
      exists x. split; [done|]. apply in_map_iff. exists tl. split; [done | by apply IH].
Qed.

Lemma in_bounds_spec (s_grid : list (list Q)) :
  forall neighbor : list Z, length neighbor = length s_grid ->
  exists keep, in_bounds neighbor s_grid = OK keep
    /\ (keep = true <-> on_the_grid neighbor s_grid).
Proof.
  induction s_grid as [|g rest IH]; intros [|x nb] Hlen; try discriminate.
  - exists true. split; [done|]. split; [constructor | done].
  - simpl. destruct (x <? 0) eqn:E1.
    { exists false. split; [done|]. split; [done|].
      intros H. inversion H; subst. lia. }
    destruct (Z.of_nat (size g) <=? x) eqn:E2.
    { exists false. split; [done|]. split; [done|].
      intros H. inversion H; subst. lia. }
    destruct (IH nb) as (keep & -> & Hk); [by injection Hlen|].
    exists keep. split; [done|]. rewrite Hk. split.
    + intros H. constructor; [lia | done].
    + intros H. by inversion H.
Qed.

Lemma grid_coords_spec (s_grid : list (list Q)) (neighbors : list (list Z)) :
  Forall (fun nb => length nb = length s_grid) neighbors ->
  exists coords, grid_coords neighbors s_grid = OK coords
    /\ forall idx, In idx coords <-> In idx neighbors /\ on_the_grid idx s_grid.
Proof.
  induction 1 as [|nb rest Hnb _ IH].
  - exists []. split; [done|]. simpl. tauto.
  - destruct IH as (coords & Hc & Hin).
    destruct (in_bounds_spec s_grid nb Hnb) as (keep & Hk & Hkeep).
    simpl. rewrite Hk, Hc. simpl.
    exists (if keep then nb :: coords else coords). split; [done|].
    intros idx. destruct keep; simpl; rewrite Hin.
    + split.
      * intros [<-|[H1 H2]]; [split; [by left | by apply Hkeep] | tauto].
      * tauto.
    + split; [tauto|]. intros [[<-|H1] H2]; [|tauto].
      apply Hkeep in H2. discriminate.
Qed.

Lemma get_grid_indices_spec (bin_idx : list Z) (s_grid : list (list Q)) :
  length bin_idx = length s_grid ->
  exists corners, get_grid_indices bin_idx s_grid = OK corners
    /\ forall idx, In idx corners <->
                   adjacent idx bin_idx /\ on_the_grid idx s_grid.
Proof.
  intros Hlen. unfold get_grid_indices.
  destruct (grid_coords_spec s_grid
              (product (map (fun x => [x - 1; x]) bin_idx)))
    as (corners & Hc & Hin).
  { apply Forall_forall. intros nb Hnb. apply list_elem_of_In in Hnb.
    apply product_length in Hnb. by rewrite Hnb, length_map. }
  exists corners. split; [done|]. intros idx. rewrite Hin, product_In.
  unfold adjacent. rewrite Forall2_fmap_r.
  split; intros [H1 H2]; (split; [|done]);
    (eapply Forall2_impl; [exact H1|]); simpl; intros x b; intuition congruence.
Qed.

Lemma unravel_length (shp : list nat) :
  forall k : Z, length (unravel k shp) = length shp.
Proof. induction shp as [|n rest IH]; intros k; simpl; [done | by rewrite IH]. Qed.

Lemma prod_map_S (shp : list nat) : (prod shp <= prod (map S shp))%nat.
Proof.
  induction shp as [|n rest IH]; [done|].
  change (n * prod rest <= S n * prod (map S rest))%nat. nia.
Qed.

Lemma on_the_grid_in_range (idx : list Z) (s_grid : list (list Q)) :
  on_the_grid idx s_grid <-> in_range idx (map size s_grid).
Proof. unfold on_the_grid, in_range. by rewrite Forall2_fmap_r. Qed.

(** ** The outside test *)

Lemma any_corner_outside_spec (S_V : ndarray bool) (corners : list (list Z)) :
  Forall (fun idx => exists v, get S_V idx = OK v) corners ->
  exists out, any_corner_outside S_V corners = OK out
    /\ (out = true <-> exists idx, In idx corners /\ get S_V idx = OK false).
Proof.
  induction 1 as [|idx rest [v Hv] _ (out & Hout & IH)].
  - exists false. split; [done|]. split; [done | by intros (? & [] & _)].
  - simpl. rewrite Hv. simpl. destruct v; simpl.
    + exists out. split; [done|]. rewrite IH. split.
      * intros (i & Hi & Hg). eauto.
      * intros (i & [<-|Hi] & Hg); [congruence | eauto].
    + exists true. split; [done|]. split; [|done]. intros _. eauto.
Qed.

Lemma is_outside_total (s : Z) (s_grid : list (list Q))
    (S_V : ndarray bool) (on_grid : bool) :
  well_shaped S_V ->
  shape S_V = map size s_grid ->
  0 <= s < Z.of_nat (prod (if on_grid then map size s_grid
                           else map (fun g => S (size g)) s_grid)) ->
  exists out, is_outside s s_grid S_V on_grid = OK out.
Proof.
  intros Hw Hshape Hs. unfold is_outside.
  assert (Hbin : 0 <= s < Z.of_nat (prod (map (fun g => S (size g)) s_grid))).
  { destruct on_grid; [|done].
    pose proof (prod_map_S (map size s_grid)) as Hle.
    rewrite map_map in Hle. lia. }
  rewrite (unravel_index_OK _ _ Hbin). cbn [bind].
  destruct on_grid.
  - rewrite (unravel_index_OK _ _ Hs). cbn [bind].
    destruct (get_in_range S_V (unravel s (map size s_grid)) Hw) as [v ->].
    { rewrite Hshape. by apply unravel_in_range. }
    cbn [bind]. destruct v; by eexists.
  - destruct (get_grid_indices_spec
                (unravel s (map (fun g => S (size g)) s_grid)) s_grid)
      as (corners & -> & Hin).
    { by rewrite unravel_length, length_map. }
    cbn [bind]. destruct corners as [|c cs]; [by eexists|].
    cbn [length Nat.ltb Nat.leb].
    destruct (any_corner_outside_spec S_V (c :: cs)) as (out & -> & _);
      [|by eexists].
    apply Forall_forall. intros idx Hidx. apply list_elem_of_In in Hidx.
    apply Hin in Hidx. destruct Hidx as [_ Hg].
    apply get_in_range; [done|]. rewrite Hshape.
    by apply on_the_grid_in_range.
Qed.

(** C1.  On a state array shaped like the grid and a successor index in
    range, [is_outside] returns a decision.  For a pair flagged on-grid it is
    "outside" exactly when [S_V] is false at the single node the index
    denotes.  Otherwise the corner set of the successor's bin is the one
    built by [get_grid_indices] (the neighbours [b-1], [b] per coordinate
    that lie on the grid), and the decision is "outside" exactly when that
    set is empty or holds a corner at which [S_V] is false. *)
Theorem is_outside_decision (s : Z) (s_grid : list (list Q))
    (S_V : ndarray bool) (on_grid : bool) :
  well_shaped S_V ->
  shape S_V = map size s_grid ->
  0 <= s < Z.of_nat (prod (if on_grid then map size s_grid
                           else map (fun g => S (size g)) s_grid)) ->
  exists out, is_outside s s_grid S_V on_grid = OK out
    /\ if on_grid
       then exists v, get S_V (unravel s (map size s_grid)) = OK v
                      /\ (out = true <-> v = false)
       else exists corners,
              get_grid_indices
                (unravel s (map (fun g => S (size g)) s_grid)) s_grid
              = OK corners
              /\ (forall idx, In idx corners <->
                    adjacent idx (unravel s (map (fun g => S (size g)) s_grid))
                    /\ on_the_grid idx s_grid)
              /\ (out = true <->
                    corners = []
                    \/ exists idx, In idx corners /\ get S_V idx = OK false).
Proof.
  intros Hw Hshape Hs. unfold is_outside.
  assert (Hbin : 0 <= s < Z.of_nat (prod (map (fun g => S (size g)) s_grid))).
  { destruct on_grid; [|done].
    pose proof (prod_map_S (map size s_grid)) as Hle.
    rewrite map_map in Hle. lia. }
  rewrite (unravel_index_OK _ _ Hbin). cbn [bind].
  destruct on_grid.
  - rewrite (unravel_index_OK _ _ Hs). cbn [bind].
    destruct (get_in_range S_V (unravel s (map size s_grid)) Hw) as [v Hv].
    { rewrite Hshape. by apply unravel_in_range. }
    rewrite Hv. cbn [bind].
    exists (negb v). split; [by destruct v|].
    exists v. split; [done | by destruct v].
  - destruct (get_grid_indices_spec
                (unravel s (map (fun g => S (size g)) s_grid)) s_grid)
      as (corners & Hc & Hin).
    { by rewrite unravel_length, length_map. }
    rewrite Hc. cbn [bind].
    destruct (any_corner_outside_spec S_V corners) as (out & Hout & Hiff).
    { apply Forall_forall. intros idx Hidx. apply list_elem_of_In in Hidx.
      apply Hin in Hidx. destruct Hidx as [_ Hg].
      apply get_in_range; [done|]. rewrite Hshape.
      by apply on_the_grid_in_range. }
    destruct corners as [|c cs].
    + exists true. split; [done|]. exists []. split; [done|].
      split; [exact Hin|]. split; auto.
    + cbn [length Nat.ltb Nat.leb]. rewrite Hout.
      exists out. split; [done|]. exists (c :: cs). split; [done|].
      split; [exact Hin|]. rewrite Hiff. split; [auto|].
      intros [?|?]; [discriminate | done].
Qed.

(** ** Shrinking boolean buffers *)

Lemma subset_refl (a : list bool) : subset a a.
Proof. induction a; constructor; auto. Qed.

Lemma subset_trans (a b c : list bool) : subset a b -> subset b c -> subset a c.
Proof.
  intros Hab. revert c. induction Hab as [|x y a b Hxy _ IH]; intros c Hbc.
  - inversion Hbc. constructor.
  - inversion Hbc; subst. constructor; auto. by apply IH.
Qed.

Lemma subset_insert_false (a : list bool) (q : nat) : subset (<[q := false]> a) a.
Proof.
  revert q. induction a as [|x a IH]; intros [|q]; simpl.
  - constructor.
  - constructor.
  - apply Forall2_cons. split; [discriminate | apply subset_refl].
  - apply Forall2_cons. split; [tauto | apply IH].
Qed.

Lemma subset_length (a b : list bool) : subset a b -> length a = length b.
Proof. apply Forall2_length. Qed.

Lemma subset_lookup (a b : list bool) (q : nat) :
  subset a b -> a !! q = Some true -> b !! q = Some true.
Proof.
  intros H Ha. destruct (Forall2_lookup_l _ _ _ _ _ H Ha) as (y & Hy & Hxy).
  rewrite Hy. f_equal. by apply Hxy.
Qed.

Lemma subset_count (a b : list bool) :
  subset a b -> (count_true a <= count_true b)%nat.
Proof.
  induction 1 as [|x y a b Hxy _ IH]; simpl; [lia|].
  destruct x, y; lia || by specialize (Hxy eq_refl).
Qed.

Lemma subset_count_lt (a b : list bool) :
  subset a b -> a <> b -> (count_true a < count_true b)%nat.
Proof.
  induction 1 as [|x y a b Hxy Hab IH]; intros Hne; [done|]. simpl.
  pose proof (subset_count a b Hab) as Hle.
  destruct x, y; try lia; try (by specialize (Hxy eq_refl));
    assert (Hab' : a <> b) by congruence; specialize (IH Hab'); lia.
Qed.

Lemma count_true_bound (a : list bool) : (count_true a <= length a)%nat.
Proof. induction a as [|[] a IH]; simpl; lia. Qed.

Lemma count_true_full (a : list bool) :
  count_true a = length a -> Forall (fun v => v = true) a.
Proof.
  induction a as [|x a IH]; simpl; intros H; [constructor|].
  pose proof (count_true_bound a). destruct x; [|lia].
  constructor; [done | apply IH; lia].
Qed.

Lemma np_any_subset (a b : list bool) :
  subset a b -> np_any a = true -> np_any b = true.
Proof.
  unfold np_any. induction 1 as [|x y a b Hxy _ IH]; simpl; [done|].
  destruct x; simpl.
  - rewrite Hxy; done.
  - intros H. rewrite IH by done. by destruct y.
Qed.

(** ** Projection *)

Lemma project_Q2S_subset (grids : Grids) (shp : list nat) (d d' : list bool)
    (S_V S_V' : ndarray bool) :
  subset d' d ->
  project_Q2S (NDArray shp d) grids np_any = OK S_V ->
  project_Q2S (NDArray shp d') grids np_any = OK S_V' ->
  shape S_V' = shape S_V /\ subset (data S_V') (data S_V).
Proof.
  unfold project_Q2S. simpl. intros Hsub.
  destruct (length shp <? length (actions grids))%nat; [done|].
  intros [= <-] [= <-]. simpl. split; [done|].
  unfold subset. apply Forall2_fmap.
  apply Forall_Forall2_diag, Forall_forall. intros i _.
  apply np_any_subset. by apply Forall2_take, Forall2_drop.
Qed.

Lemma project_Q2S_length (grids : Grids) (Q S_V : ndarray bool) :
  project_Q2S Q grids np_any = OK S_V -> well_shaped S_V.
Proof.
  unfold project_Q2S, well_shaped.
  destruct (length (shape Q) <? length (actions grids))%nat; [done|].
  intros [= <-]. simpl. by rewrite length_map, length_seq.
Qed.

(** ** One pruning pass *)

Section PruneFacts.

Variable Q_map : ndarray Z.
Variable grids : Grids.
Variable Q_on_grid : ndarray bool.
Variable S_V : ndarray bool.

Local Abbreviation prune_pass := (prune Q_map grids Q_on_grid S_V).

Lemma prune_subset (qdxs : list nat) :
  forall Q_V d : list bool, prune_pass qdxs Q_V = OK d -> subset d Q_V.
Proof.
  induction qdxs as [|qdx rest IH]; intros Q_V d H; simpl in H.
  - injection H as <-. apply subset_refl.
  - destruct (Q_V !! qdx) as [[|]|] eqn:Hq; try by apply IH.
    inv_bind H. inv_bind H. inv_bind H. apply IH in H.
    eapply subset_trans; [exact H|].
    destruct a1; [apply subset_insert_false | apply subset_refl].
Qed.

Lemma prune_other (qdxs : list nat) (q : nat) :
  q ∉ qdxs ->
  forall Q_V d : list bool, prune_pass qdxs Q_V = OK d -> d !! q = Q_V !! q.
Proof.
  induction qdxs as [|qdx rest IH]; intros Hq Q_V d H; simpl in H.
  - by injection H as <-.
  - apply not_elem_of_cons in Hq. destruct Hq as [Hne Hq].
    destruct (Q_V !! qdx) as [[|]|] eqn:Hv; try by apply IH.
    inv_bind H. inv_bind H. inv_bind H. rewrite (IH Hq _ _ H).
    destruct a1; [by apply list_lookup_insert_ne | done].
Qed.

(** A pass in which no examined pair is outside changes nothing. *)
Lemma prune_unchanged (qdxs : list nat) :
  (forall s on out, is_outside s (states grids) S_V on = OK out -> out = false) ->
  forall Q_V d : list bool, prune_pass qdxs Q_V = OK d -> d = Q_V.
Proof.
  intros Hin. induction qdxs as [|qdx rest IH]; intros Q_V d H; simpl in H.
  - by injection H as <-.
  - destruct (Q_V !! qdx) as [[|]|] eqn:Hv; try by apply IH.
    inv_bind H. inv_bind H. inv_bind H.
    rewrite (Hin _ _ _ Ha1) in H. by apply IH.
Qed.

(** Running the pass again on its own result, against the same [S_V],
    changes nothing. *)
Lemma prune_stable (qdxs : list nat) :
  NoDup qdxs ->
  forall Q_V d : list bool, prune_pass qdxs Q_V = OK d -> prune_pass qdxs d = OK d.
Proof.
  induction 1 as [|qdx rest Hnot _ IH]; intros Q_V d H; simpl in H; simpl.
  - by injection H as <-.
  - destruct (Q_V !! qdx) as [[|]|] eqn:Hv.
    + inv_bind H. inv_bind H. inv_bind H.
      rewrite (prune_other rest qdx Hnot _ _ H).
      destruct a1.
      * rewrite list_lookup_insert_eq by (by eapply lookup_lt_Some).
        by eapply IH.
      * rewrite Hv, Ha. cbn [bind]. rewrite Ha0. cbn [bind].
        rewrite Ha1. cbn [bind]. by eapply IH.
    + rewrite (prune_other rest qdx Hnot _ _ H), Hv. by eapply IH.
    + rewrite (prune_other rest qdx Hnot _ _ H), Hv. by eapply IH.
Qed.

(** With a usable table and a state array shaped like the grid, the pass
    raises nothing. *)
Lemma prune_total (qdxs : list nat) :
  well_shaped S_V ->
  shape S_V = map size (states grids) ->
  forall Q_V : list bool,
  valid_tables Q_map Q_on_grid (states grids) (length Q_V) ->
  exists d, prune_pass qdxs Q_V = OK d.
Proof.
  intros Hw Hshape. induction qdxs as [|qdx rest IH]; intros Q_V Hv; simpl.
  - by eexists.
  - destruct (Q_V !! qdx) as [[|]|] eqn:Hq; try by apply IH.
    destruct Hv as (Hl1 & Hl2 & Hr).
    apply lookup_lt_Some in Hq.
    destruct (lookup_lt_is_Some_2 (data Q_map) qdx) as [s Hs]; [lia|].
    destruct (lookup_lt_is_Some_2 (data Q_on_grid) qdx) as [on Hon]; [lia|].
    unfold get_flat. rewrite Hs, Hon. simpl.
    destruct (is_outside_total s (states grids) S_V on Hw Hshape
                (Hr qdx s on Hs Hon)) as (out & ->).
    simpl. apply IH. destruct out; [|done].
    by rewrite length_insert.
Qed.

End PruneFacts.

(** ** A fully viable state array *)

Lemma prod_pos (shp : list nat) :
  (1 <= prod shp)%nat -> Forall (fun n => (1 <= n)%nat) shp.
Proof.
  induction shp as [|n rest IH]; intros H; [constructor|].
  change (1 <= n * prod rest)%nat in H.
  constructor; [nia | apply IH; nia].
Qed.

Lemma exists_corner (bin_idx : list Z) (s_grid : list (list Q)) :
  Forall2 (fun b g => 0 <= b <= Z.of_nat (size g) /\ (1 <= size g)%nat)
          bin_idx s_grid ->
  exists idx, adjacent idx bin_idx /\ on_the_grid idx s_grid.
Proof.
  induction 1 as [|b g bs gs [Hb Hg] _ (idx & Ha & Ho)].
  - exists []. split; constructor.
  - exists ((if b <? Z.of_nat (size g) then b else b - 1) :: idx).
    split; (apply Forall2_cons; split; [|done]);
      destruct (b <? Z.of_nat (size g)) eqn:E; lia.
Qed.

Lemma get_elem {A : Type} (a : ndarray A) (idx : list Z) (v : A) :
  get a idx = OK v -> v ∈ data a.
Proof.
  unfold get. intros H. inv_bind H.
  destruct (data a !! Z.to_nat a0) as [w|] eqn:E; [|discriminate].
  injection H as <-. by eapply list_elem_of_lookup_2.
Qed.

Lemma any_corner_all_true (S_V : ndarray bool) (corners : list (list Z)) :
  Forall (fun v => v = true) (data S_V) ->
  forall out, any_corner_outside S_V corners = OK out -> out = false.
Proof.
  intros Hall. induction corners as [|idx rest IH]; intros out H; simpl in H.
  - by injection H as <-.
  - inv_bind H. apply get_elem in Ha.
    rewrite (proj1 (Forall_forall _ _) Hall a Ha) in H. by apply IH.
Qed.

(** When every state is viable, no successor that can be looked up is
    outside. *)
Lemma is_outside_all_true (s : Z) (s_grid : list (list Q))
    (S_V : ndarray bool) (on_grid : bool) (out : bool) :
  shape S_V = map size s_grid ->
  (1 <= prod (shape S_V))%nat ->
  Forall (fun v => v = true) (data S_V) ->
  is_outside s s_grid S_V on_grid = OK out -> out = false.
Proof.
  intros Hshape Hpos Hall H. unfold is_outside in H.
  inv_bind H. rename a into bin_idx.
  apply unravel_index_inv in Ha. destruct Ha as [Hs ->].
  destruct on_grid.
  - inv_bind H. inv_bind H. apply get_elem in Ha0.
    rewrite (proj1 (Forall_forall _ _) Hall a0 Ha0) in H. by injection H.
  - inv_bind H. rename a into corners.
    destruct (get_grid_indices_spec
                (unravel s (map (fun g => S (size g)) s_grid)) s_grid)
      as (corners' & Hc & Hin).
    { by rewrite unravel_length, length_map. }
    rewrite Hc in Ha. injection Ha as ->.
    destruct (exists_corner
                (unravel s (map (fun g => S (size g)) s_grid)) s_grid)
      as (idx & Hadj & Hon).
    { pose proof (unravel_in_range _ _ Hs) as Hr.
      rewrite Hshape in Hpos. apply prod_pos in Hpos.
      unfold in_range in Hr. rewrite Forall2_fmap_r in Hr.
      rewrite Forall_fmap in Hpos.
      clear -Hr Hpos. induction Hr as [|b g bs gs Hb _ IH]; [constructor|].
      inversion Hpos; subst. apply Forall2_cons. split; [|by apply IH].
      simpl in *. lia. }
    assert (Hne : In idx corners) by (by apply Hin).
    destruct corners as [|c cs]; [done|].
    cbn [length Nat.ltb Nat.leb] in H.
    by eapply any_corner_all_true.
Qed.

(** ** Shapes through the projection *)

Lemma map_const_replicate {A B : Type} (f : A -> B) (c : B) (l : list A) :
  (forall x, f x = c) -> map f l = replicate (length l) c.
Proof. intros Hf. induction l as [|x l IH]; simpl; [done | by rewrite Hf, IH]. Qed.

Lemma project_Q2S_shaped (grids : Grids) (Q : ndarray bool) :
  shape Q = map size (states grids) ++ map size (actions grids) ->
  exists S_V, project_Q2S Q grids np_any = OK S_V
    /\ shape S_V = map size (states grids)
    /\ well_shaped S_V
    /\ ((prod (map size (actions grids)) = 0)%nat ->
          data S_V = replicate (length (data S_V)) false).
Proof.
  intros Hshape. unfold project_Q2S. rewrite Hshape.
  rewrite length_app, !length_map.
  destruct (length (states grids) + length (actions grids)
            <? length (actions grids))%nat eqn:E.
  { apply Nat.ltb_lt in E. lia. }
  replace (length (states grids) + length (actions grids)
           - length (actions grids))%nat
    with (length (map size (states grids))) by (rewrite length_map; lia).
  rewrite take_app_length, drop_app_length.
  eexists. split; [reflexivity|]. simpl. split; [done|]. split.
  - unfold well_shaped. simpl. by rewrite length_map, length_seq.
  - intros ->. rewrite length_map. by apply map_const_replicate.
Qed.

Lemma prod_app (a b : list nat) : prod (a ++ b) = (prod a * prod b)%nat.
Proof.
  induction a as [|n a IH]; simpl; [unfold prod; simpl; lia|].
  change (n * prod (a ++ b) = n * prod a * prod b)%nat. rewrite IH. lia.
Qed.

Lemma array_equal_true (a b : ndarray bool) : array_equal a b = true -> a = b.
Proof.
  unfold array_equal. intros H. apply andb_true_iff in H. destruct H as [H1 H2].
  apply bool_decide_eq_true in H1, H2. destruct a, b. simpl in *. congruence.
Qed.

Lemma array_equal_refl (a : ndarray bool) : array_equal a a = true.
Proof. unfold array_equal. by rewrite !bool_decide_eq_true_2. Qed.

Lemma array_equal_false (a b : ndarray bool) :
  array_equal a b = false -> shape a = shape b -> data a <> data b.
Proof.
  unfold array_equal. intros H Hs Hd.
  by rewrite !bool_decide_eq_true_2 in H.
Qed.

(** ** The solver loop *)

Section SolverFacts.

Variable Q_map : ndarray Z.
Variable grids : Grids.
Variable Q_on_grid : ndarray bool.

Lemma prune_length (S_V : ndarray bool) (qdxs : list nat) (Q_V d : list bool) :
  prune Q_map grids Q_on_grid S_V qdxs Q_V = OK d -> length d = length Q_V.
Proof. intros H. apply prune_subset in H. by apply subset_length. Qed.

(** Each pass only clears entries, keeps the shape, and hands back the
    projection of what is left. *)
Lemma solver_pass_shrinks (Q_V S_V Q_V' S_V' : ndarray bool) :
  solver_pass Q_map grids Q_on_grid Q_V S_V = OK (Q_V', S_V') ->
  shape Q_V' = shape Q_V
  /\ subset (data Q_V') (data Q_V)
  /\ project_Q2S Q_V' grids np_any = OK S_V'
  /\ prune Q_map grids Q_on_grid S_V (seq 0 (length (data Q_V'))) (data Q_V')
     = OK (data Q_V').
Proof.
  unfold solver_pass. intros H. inv_bind H. inv_bind H.
  injection H as <- <-. simpl. split; [done|].
  split; [by eapply prune_subset|]. split; [done|].
  rewrite (prune_length _ _ _ _ Ha). eapply prune_stable; [|exact Ha].
  apply NoDup_seq.
Qed.

Lemma solver_pass_total (n : nat) (Q_V S_V : ndarray bool) :
  valid_tables Q_map Q_on_grid (states grids) n ->
  solver_state grids n Q_V S_V ->
  exists Q_V' S_V',
    solver_pass Q_map grids Q_on_grid Q_V S_V = OK (Q_V', S_V')
    /\ solver_state grids n Q_V' S_V'
    /\ shape S_V' = shape S_V
    /\ subset (data S_V') (data S_V).
Proof.
  intros Hv (Hshape & Hlen & Hproj).
  destruct (project_Q2S_shaped grids Q_V Hshape) as (S0 & HS0 & Hs & Hw & _).
  rewrite Hproj in HS0. injection HS0 as <-.
  destruct (prune_total Q_map grids Q_on_grid S_V
              (seq 0 (length (data Q_V))) Hw Hs (data Q_V)) as [d Hd].
  { by rewrite Hlen. }
  destruct (project_Q2S_shaped grids (NDArray (shape Q_V) d) Hshape)
    as (S_V' & HS' & Hs' & Hw' & _).
  exists (NDArray (shape Q_V) d), S_V'. unfold solver_pass.
  rewrite Hd. cbn [bind]. rewrite HS'. cbn [bind].
  split; [done|]. split.
  - split; [done|]. split; [|done]. simpl.
    by rewrite (prune_length _ _ _ _ Hd).
  - apply (project_Q2S_subset grids (shape Q_V) (data Q_V) d);
      [by eapply prune_subset | by destruct Q_V | done].
Qed.

(** What a normal exit of the loop hands back. *)
Lemma QV_loop_result (fuel : nat) :
  forall Q_V S_V S_old Q_V' S_V' : ndarray bool,
  project_Q2S Q_V grids np_any = OK S_V ->
  QV_loop Q_map grids Q_on_grid fuel Q_V S_V S_old = Done (Q_V', S_V') ->
  shape Q_V' = shape Q_V
  /\ subset (data Q_V') (data Q_V)
  /\ project_Q2S Q_V' grids np_any = OK S_V'.
Proof.
  induction fuel as [|fuel IH]; intros Q_V S_V S_old Q_V' S_V' Hp H; simpl in H.
  - destruct (array_equal S_V S_old); [|discriminate].
    injection H as <- <-. split; [done|]. split; [apply subset_refl | done].
  - destruct (array_equal S_V S_old).
    { injection H as <- <-. split; [done|]. split; [apply subset_refl | done]. }
    destruct (solver_pass Q_map grids Q_on_grid Q_V S_V) as [[Q1 S1]|e] eqn:E;
      [|discriminate].
    apply solver_pass_shrinks in E. destruct E as (E1 & E2 & E3 & _).
    destruct (IH _ _ _ _ _ E3 H) as (H1 & H2 & H3).
    split; [congruence|]. split; [by eapply subset_trans | done].
Qed.

(** A normal exit of the loop is a fixed point, as soon as an exit at the
    very first test would be one. *)
Lemma QV_loop_converged (fuel : nat) :
  forall Q_V S_V S_old Q_V' S_V' : ndarray bool,
  project_Q2S Q_V grids np_any = OK S_V ->
  (array_equal S_V S_old = true -> converged Q_map grids Q_on_grid Q_V S_V) ->
  QV_loop Q_map grids Q_on_grid fuel Q_V S_V S_old = Done (Q_V', S_V') ->
  converged Q_map grids Q_on_grid Q_V' S_V'.
Proof.
  induction fuel as [|fuel IH]; intros Q_V S_V S_old Q_V' S_V' Hp Hc H;
    simpl in H.
  - destruct (array_equal S_V S_old); [|discriminate].
    injection H as <- <-. by apply Hc.
  - destruct (array_equal S_V S_old).
    { injection H as <- <-. by apply Hc. }
    destruct (solver_pass Q_map grids Q_on_grid Q_V S_V) as [[Q1 S1]|e] eqn:E;
      [|discriminate].
    apply solver_pass_shrinks in E. destruct E as (E1 & E2 & E3 & E4).
    apply (IH Q1 S1 S_V Q_V' S_V' E3); [|done].
    intros Heq. apply array_equal_true in Heq. subst S1. by split.
Qed.

(** With a usable table the loop stops normally as soon as the fuel exceeds
    the number of viable states. *)
Lemma QV_loop_done (n fuel : nat) :
  valid_tables Q_map Q_on_grid (states grids) n ->
  forall Q_V S_V S_old : ndarray bool,
  solver_state grids n Q_V S_V ->
  shape S_old = shape S_V ->
  (array_equal S_V S_old = false -> (count_true (data S_V) < fuel)%nat) ->
  exists Q_V' S_V',
    QV_loop Q_map grids Q_on_grid fuel Q_V S_V S_old = Done (Q_V', S_V').
Proof.
  intros Hv. induction fuel as [|fuel IH]; intros Q_V S_V S_old Hst Hsh Hc;
    simpl.
  - destruct (array_equal S_V S_old); [by eauto|]. specialize (Hc eq_refl). lia.
  - destruct (array_equal S_V S_old); [by eauto|]. specialize (Hc eq_refl).
    destruct (solver_pass_total n Q_V S_V Hv Hst) as (Q1 & S1 & -> & Hst1 & Hs1 & Hsub).
    apply IH; [done | done |].
    intros Hne. apply array_equal_false in Hne; [|done].
    pose proof (subset_count_lt _ _ Hsub Hne). lia.
Qed.

End SolverFacts.

Lemma array_equal_zeros_like (a : ndarray bool) :
  data a = replicate (length (data a)) false ->
  array_equal a (zeros_like a) = true.
Proof.
  intros H. unfold array_equal, zeros_like. simpl.
  by rewrite <- H, !bool_decide_eq_true_2.
Qed.

(** An array with a viable state has at least one state and one action per
    state, so [Q_V] is at least as large as [S_V]. *)
Lemma viable_state_sizes (grids : Grids) (Q_V S_V : ndarray bool) :
  well_shaped Q_V ->
  shape Q_V = map size (states grids) ++ map size (actions grids) ->
  project_Q2S Q_V grids np_any = OK S_V ->
  array_equal S_V (zeros_like S_V) = false ->
  (1 <= length (data S_V) <= length (data Q_V))%nat.
Proof.
  intros Hw Hshape Hp Hne.
  destruct (project_Q2S_shaped grids Q_V Hshape) as (S0 & HS0 & Hs & HwS & Hz).
  rewrite Hp in HS0. injection HS0 as <-.
  assert (Hblock : prod (map size (actions grids)) <> 0%nat).
  { intros H0. rewrite array_equal_zeros_like in Hne; [done | by apply Hz]. }
  assert (Hstates : length (data S_V) <> 0%nat).
  { intros H0. rewrite array_equal_zeros_like in Hne; [done|].
    rewrite H0. by apply nil_length_inv. }
  unfold well_shaped in *. rewrite Hw, Hshape, prod_app.
  rewrite Hs in HwS. rewrite <- HwS. nia.
Qed.

(** C5.  On a viable set shaped like the grids and a usable transition
    table, every pass of the solver only clears entries of [Q_V], so the
    number of true entries never grows, and [compute_QV] allowed as many
    passes as [Q_V] has entries stops normally, with a [Q_V] below the
    initial one. *)
Theorem compute_QV_shrinks_and_terminates (Q_map : ndarray Z) (grids : Grids)
    (seed Q_on_grid : option (ndarray bool)) :
  well_shaped (initial_Q_V Q_map seed) ->
  shape (initial_Q_V Q_map seed)
    = map size (states grids) ++ map size (actions grids) ->
  valid_tables Q_map (on_grid_or_zeros (initial_Q_V Q_map seed) Q_on_grid)
    (states grids) (length (data (initial_Q_V Q_map seed))) ->
  (forall Q_V S_V Q_V' S_V' : ndarray bool,
     solver_pass Q_map grids
       (on_grid_or_zeros (initial_Q_V Q_map seed) Q_on_grid) Q_V S_V
       = OK (Q_V', S_V') ->
     subset (data Q_V') (data Q_V)
     /\ (count_true (data Q_V') <= count_true (data Q_V))%nat)
  /\ exists Q_V S_V : ndarray bool,
       compute_QV (length (data (initial_Q_V Q_map seed)))
         Q_map grids seed Q_on_grid = Done (Q_V, S_V)
       /\ subset (data Q_V) (data (initial_Q_V Q_map seed))
       /\ (count_true (data Q_V)
           <= count_true (data (initial_Q_V Q_map seed)))%nat.
Proof.
  intros Hw Hshape Hv. split.
  { intros Q_V S_V Q_V' S_V' H. apply solver_pass_shrinks in H.
    destruct H as (_ & H & _). split; [done | by apply subset_count]. }
  unfold compute_QV.
  set (Q0 := initial_Q_V Q_map seed) in *.
  set (og := on_grid_or_zeros Q0 Q_on_grid) in *.
  destruct (project_Q2S_shaped grids Q0 Hshape) as (S0 & HS0 & Hs & HwS & _).
  rewrite HS0.
  assert (Hdone : exists Q_V S_V,
            QV_loop Q_map grids og (length (data Q0)) Q0 S0 (zeros_like S0)
            = Done (Q_V, S_V)).
  { destruct (array_equal S0 (zeros_like S0)) eqn:E.
    { destruct (length (data Q0)); simpl; rewrite E; eauto. }
    pose proof (viable_state_sizes grids Q0 S0 Hw Hshape HS0 E) as Hsz.
    destruct (length (data Q0)) as [|fuel] eqn:Hn; [lia|].
    simpl. rewrite E.
    assert (Hst : solver_state grids (S fuel) Q0 S0) by done.
    destruct (solver_pass_total Q_map grids og (S fuel) Q0 S0 Hv Hst)
      as (Q1 & S1 & Hpass & Hst1 & Hs1 & Hsub).
    rewrite Hpass.
    apply (QV_loop_done Q_map grids og (S fuel) fuel Hv); [done | done |].
    intros Hne. apply array_equal_false in Hne; [|done].
    pose proof (subset_count_lt _ _ Hsub Hne) as Hlt.
    pose proof (count_true_bound (data S0)) as Hb.
    destruct (decide (count_true (data S0) = length (data S0))) as [Hfull|];
      [|lia].
    exfalso. apply Hne. apply count_true_full in Hfull.
    unfold solver_pass in Hpass. inv_bind Hpass. inv_bind Hpass.
    injection Hpass as <- <-.
    apply prune_unchanged in Ha.
    - subst a. destruct Q0 as [shp d]. simpl in *. congruence.
    - intros s on out. apply is_outside_all_true; [done | | done].
      unfold well_shaped in HwS. lia. }
  destruct Hdone as (Q_V & S_V & Hdone). exists Q_V, S_V. split; [done|].
  destruct (QV_loop_result _ _ _ _ _ _ _ _ _ HS0 Hdone) as (_ & Hsub & _).
  split; [done | by apply subset_count].
Qed.


(** C8.  Seeding [compute_QV] with a viable set that one pruning pass
    against its own projection leaves unchanged returns that very set and
    that very projection, whatever positive number of passes is allowed. *)
Theorem compute_QV_idempotent (Q_map : ndarray Z) (grids : Grids)
    (Q_on_grid : option (ndarray bool)) (Q_V S_V : ndarray bool) (fuel : nat) :
  (1 <= fuel)%nat ->
  converged Q_map grids (on_grid_or_zeros Q_V Q_on_grid) Q_V S_V ->
  compute_QV fuel Q_map grids (Some Q_V) Q_on_grid = Done (Q_V, S_V).
Proof.
  intros Hfuel [Hp Hprune]. unfold compute_QV. simpl initial_Q_V. rewrite Hp.
  destruct fuel as [|fuel]; [lia|]. simpl.
  destruct (array_equal S_V (zeros_like S_V)); [done|].
  unfold solver_pass. rewrite Hprune. cbn [bind].
  replace (NDArray (shape Q_V) (data Q_V)) with Q_V by (by destruct Q_V).
  rewrite Hp. cbn [bind].
  destruct fuel; simpl; by rewrite array_equal_refl.
Qed.

(** ** Results of the solver are fixed points *)

Lemma chunk_lookup (d : list bool) (block i j : nat) :
  (j < block)%nat ->
  take block (drop (i * block) d) !! j = d !! (i * block + j)%nat.
Proof. intros Hj. by rewrite lookup_take_lt, lookup_drop. Qed.

Lemma np_any_true (l : list bool) (j : nat) :
  l !! j = Some true -> np_any l = true.
Proof.
  intros H. unfold np_any. apply existsb_exists. exists true.
  split; [|done]. apply list_elem_of_In. by eapply list_elem_of_lookup_2.
Qed.

Lemma no_viable_state_no_viable_pair (grids : Grids) (Q_V S_V : ndarray bool) :
  well_shaped Q_V ->
  shape Q_V = map size (states grids) ++ map size (actions grids) ->
  project_Q2S Q_V grids np_any = OK S_V ->
  array_equal S_V (zeros_like S_V) = true ->
  forall q, data Q_V !! q <> Some true.
Proof.
  intros Hw Hshape Hp Heq q Hq.
  apply array_equal_true in Heq.
  assert (Hall : data S_V = replicate (length (data S_V)) false)
    by (by rewrite Heq at 1).
  clear Heq. revert Hp Hall. unfold project_Q2S. rewrite Hshape.
  rewrite length_app, !length_map.
  destruct (length (states grids) + length (actions grids)
            <? length (actions grids))%nat eqn:E.
  { apply Nat.ltb_lt in E. lia. }
  replace (length (states grids) + length (actions grids)
           - length (actions grids))%nat
    with (length (map size (states grids))) by (rewrite length_map; lia).
  rewrite take_app_length, drop_app_length.
  set (block := prod (map size (actions grids))).
  set (nS := prod (map size (states grids))).
  intros [= <-]. simpl. intros Hall.
  pose proof (lookup_lt_Some _ _ _ Hq) as Hlt.
  unfold well_shaped in Hw. rewrite Hw, Hshape, prod_app in Hlt.
  fold block nS in Hlt.
  assert (Hb : (0 < block)%nat) by nia.
  assert (Hi : (q / block < nS)%nat).
  { apply Nat.Div0.div_lt_upper_bound. nia. }
  assert (Hrow : map (fun i => np_any (take block (drop (i * block) (data Q_V))))
                   (seq 0 nS) !! (q / block)%nat = Some true).
  { rewrite list_lookup_fmap, lookup_seq_lt by done. simpl. f_equal.
    apply (np_any_true _ (q mod block)).
    rewrite chunk_lookup by (apply Nat.mod_upper_bound; lia).
    rewrite <- Hq. f_equal. pose proof (Nat.div_mod_eq q block). lia. }
  rewrite Hall in Hrow. apply lookup_replicate in Hrow. by destruct Hrow.
Qed.

Lemma prune_no_viable (Q_map : ndarray Z) (grids : Grids)
    (Q_on_grid S_V : ndarray bool) (Q_V : list bool) (qdxs : list nat) :
  (forall q, Q_V !! q <> Some true) ->
  prune Q_map grids Q_on_grid S_V qdxs Q_V = OK Q_V.
Proof.
  intros Hno. induction qdxs as [|qdx rest IH]; simpl; [done|].
  destruct (Q_V !! qdx) as [[|]|] eqn:E; try done. by apply Hno in E.
Qed.

(** What [compute_QV] returns on a viable set shaped like the grids is a
    fixed point of the solver. *)
Lemma compute_QV_result_converged (Q_map : ndarray Z) (grids : Grids)
    (seed Q_on_grid : option (ndarray bool)) (fuel : nat)
    (Q_V S_V : ndarray bool) :
  well_shaped (initial_Q_V Q_map seed) ->
  shape (initial_Q_V Q_map seed)
    = map size (states grids) ++ map size (actions grids) ->
  compute_QV fuel Q_map grids seed Q_on_grid = Done (Q_V, S_V) ->
  converged Q_map grids (on_grid_or_zeros Q_V Q_on_grid) Q_V S_V.
Proof.
  intros Hw Hshape H. unfold compute_QV in H.
  destruct (project_Q2S (initial_Q_V Q_map seed) grids np_any)
    as [S0|e] eqn:E; [|discriminate].
  destruct (QV_loop_result _ _ _ _ _ _ _ _ _ E H) as (Hs & _ & _).
  replace (on_grid_or_zeros Q_V Q_on_grid)
    with (on_grid_or_zeros (initial_Q_V Q_map seed) Q_on_grid)
    by (destruct Q_on_grid; simpl; congruence).
  eapply QV_loop_converged; [exact E | | exact H].
  intros Heq. split; [done|]. apply prune_no_viable.
  by eapply no_viable_state_no_viable_pair.
Qed.

(** ** The transition map builders *)

Example toy_compute_Q_map :
  compute_Q_map (Toy.p_map 0) Toy.grids false = OK (Toy.Q_map, Toy.Q_F, None).
Proof. reflexivity. Qed.

Example toy_compute_QV :
  compute_QV 6 Toy.Q_map Toy.grids (Some Toy.seed) None
  = Done (Toy.Q_V, Toy.S_V).
Proof. reflexivity. Qed.

Lemma store_inv (grids : Grids) (check_grid : bool) (idx : nat)
    (s_next : list Q) (failed : bool) (t t' : tables) :
  store grids check_grid idx s_next failed t = OK t' ->
  tables_inv idx t -> tables_inv (S idx) t'.
Proof.
  intros H (Hlen & Hfail & Hrest).
  assert (Hkeep : forall k og,
            tables_inv (S idx)
              (Tables (<[idx := k]> (Q_map_buf t)) (Q_F_buf t) og)).
  { intros k og. split; [by simpl; rewrite length_insert|]. split; simpl.
    - intros q Hq. destruct (decide (idx <= q)%nat) as [Hle|Hlt].
      + by destruct (Hrest q Hle) as [Hn _].
      + rewrite list_lookup_insert_ne by lia. by apply Hfail.
    - intros q Hq. destruct (Hrest q) as [Hn H0]; [lia|]. split; [done|].
      rewrite length_insert. rewrite list_lookup_insert_ne by lia. done. }
  unfold store in H. destruct failed; simpl in H.
  - injection H as <-. split; [by simpl; rewrite length_insert|]. split; simpl.
    + intros q Hq. destruct (decide (q = idx)) as [->|Hne].
      * apply lookup_lt_Some in Hq. rewrite length_insert in Hq.
        apply Hrest; [done | lia].
      * rewrite list_lookup_insert_ne in Hq by done. by apply Hfail.
    + intros q Hq. destruct (Hrest q) as [Hn H0]; [lia|].
      rewrite list_lookup_insert_ne by lia. done.
  - destruct check_grid.
    + inv_bind H. destruct a; inv_bind H; inv_bind H; injection H as <-;
        apply Hkeep.
    + inv_bind H. inv_bind H. injection H as <-. apply Hkeep.
Qed.

Lemma blank_inv (n : nat) : tables_inv 0 (@blank n).
Proof.
  unfold blank. split; [by simpl; rewrite !length_replicate|]. split; simpl.
  - intros q Hq. apply lookup_replicate in Hq. by destruct Hq.
  - intros q _. split.
    + intros Hq. apply lookup_replicate in Hq. by destruct Hq.
    + rewrite length_replicate. intros Hq. by apply lookup_replicate_2.
Qed.

Section BuilderFacts.

Context {X P : Type}.
Variable p_map : PMap X P.

Lemma fill_seq_inv (grids : Grids) (check_grid : bool) (SA : list (list Q)) :
  forall (idx : nat) (t t' : tables),
  fill_seq p_map grids check_grid idx SA t = OK t' ->
  tables_inv idx t -> tables_inv (idx + length SA) t'.
Proof.
  induction SA as [|sa rest IH]; intros idx t t' H Hinv; simpl in H.
  - injection H as <-. by rewrite Nat.add_0_r.
  - destruct (sa2xp p_map sa (p p_map)) as [x p0].
    destruct (call p_map x p0) as [x_next failed].
    inv_bind H. apply store_inv in Ha; [|done].
    apply IH in H; [|done]. simpl.
    by replace (idx + S (length rest))%nat with (S idx + length rest)%nat by lia.
Qed.

(** A pair recorded as failed by [compute_Q_map] keeps 0 in [Q_map]. *)
Lemma compute_Q_map_failed (grids : Grids) (check_grid : bool)
    (Q_map : ndarray Z) (Q_F : ndarray bool) (og : option (ndarray bool)) :
  compute_Q_map p_map grids check_grid = OK (Q_map, Q_F, og) ->
  forall q, data Q_F !! q = Some true -> data Q_map !! q = Some 0.
Proof.
  unfold compute_Q_map. intros H. inv_bind H. inv_bind H.
  apply fill_seq_inv in Ha0; [|apply blank_inv].
  unfold deliver in H. injection H as <- <- _. simpl.
  by destruct Ha0 as (_ & Hf & _).
Qed.

End BuilderFacts.

Lemma astype_bool_lookup (Q_map : ndarray Z) (q : nat) :
  data (astype_bool Q_map) !! q = Some true
  <-> exists k, data Q_map !! q = Some k /\ k <> 0.
Proof.
  unfold astype_bool. simpl. rewrite list_lookup_fmap.
  destruct (data Q_map !! q) as [k|]; simpl.
  - destruct (Z.eqb_spec k 0) as [->|Hne]; simpl.
    + split; [done|]. intros (k & [= <-] & Hk). done.
    + split; [eauto | done].
  - split; [done|]. by intros (k & ? & _).
Qed.

(** C7.  On tables built by [compute_Q_map], the viable set returned by the
    unseeded solver never holds a pair recorded as failed: at every
    position, [Q_V] and [Q_F] are not both true. *)
Theorem compute_QV_excludes_failures {X P : Type} (p_map : PMap X P)
    (grids : Grids) (check_grid : bool) (fuel : nat)
    (Q_map : ndarray Z) (Q_F : ndarray bool)
    (og Q_on_grid : option (ndarray bool)) (Q_V S_V : ndarray bool) :
  compute_Q_map p_map grids check_grid = OK (Q_map, Q_F, og) ->
  compute_QV fuel Q_map grids None Q_on_grid = Done (Q_V, S_V) ->
  forall (q : nat) (v f : bool),
    data Q_V !! q = Some v -> data Q_F !! q = Some f -> v && f = false.
Proof.
  intros Hb Hs q v f Hv Hf. destruct v; [|done]. destruct f; [|done].
  exfalso. unfold compute_QV in Hs.
  destruct (project_Q2S (initial_Q_V Q_map None) grids np_any)
    as [S0|e] eqn:E; [|discriminate].
  destruct (QV_loop_result _ _ _ _ _ _ _ _ _ E Hs) as (_ & Hsub & _).
  apply (subset_lookup _ _ q Hsub) in Hv. simpl in Hv.
  apply astype_bool_lookup in Hv. destruct Hv as (k & Hk & Hne).
  rewrite (compute_Q_map_failed p_map _ _ _ _ _ Hb q Hf) in Hk. congruence.
Qed.

Lemma compute_QV_excludes_failures_witness :
  compute_QV 6 Toy.Q_map Toy.grids None None = Done (Toy.Q_N, Toy.S_N)
  /\ data Toy.Q_N !! 1%nat = Some false
  /\ data Toy.Q_F !! 1%nat = Some true
  /\ false && true = false.
Proof.
  repeat (split; [reflexivity|]).
  apply (compute_QV_excludes_failures (Toy.p_map 0) Toy.grids false 6
           Toy.Q_map Toy.Q_F None None Toy.Q_N Toy.S_N eq_refl eq_refl
           1%nat false true); reflexivity.
Defined.

(** C2 (as amended).  Without a seed, the initial viable set is the
    non-zero test of [Q_map]: a pair starts viable exactly when its entry
    of [Q_map] is not 0.  On tables built by [compute_Q_map] every pair that
    starts viable is recorded as not failed. *)
Theorem initial_Q_V_unseeded {X P : Type} (p_map : PMap X P)
    (grids : Grids) (check_grid : bool)
    (Q_map : ndarray Z) (Q_F : ndarray bool) (og : option (ndarray bool)) :
  compute_Q_map p_map grids check_grid = OK (Q_map, Q_F, og) ->
  forall q : nat,
    (data (initial_Q_V Q_map None) !! q = Some true
     <-> exists k, data Q_map !! q = Some k /\ k <> 0)
    /\ (data (initial_Q_V Q_map None) !! q = Some true ->
        data Q_F !! q = Some false).
Proof.
  intros Hb q. split; [apply astype_bool_lookup|]. simpl.
  intros Hv. apply astype_bool_lookup in Hv. destruct Hv as (k & Hk & Hne).
  pose proof (compute_Q_map_failed p_map _ _ _ _ _ Hb q) as Hfail.
  assert (Hlen : length (data Q_F) = length (data Q_map)).
  { clear -Hb. unfold compute_Q_map in Hb. inv_bind Hb. inv_bind Hb.
    apply fill_seq_inv in Ha0; [|apply blank_inv].
    unfold deliver in Hb. injection Hb as <- <- _. simpl.
    by destruct Ha0 as (-> & _). }
  destruct (lookup_lt_is_Some_2 (data Q_F) q) as [f Hf].
  { rewrite Hlen. by eapply lookup_lt_Some. }
  destruct f; [|done]. rewrite (Hfail Hf) in Hk. congruence.
Qed.

Lemma initial_Q_V_unseeded_witness :
  (data (initial_Q_V Toy.Q_map None) !! 0%nat = Some true
   <-> exists k, data Toy.Q_map !! 0%nat = Some k /\ k <> 0)
  /\ (data (initial_Q_V Toy.Q_map None) !! 0%nat = Some true ->
      data Toy.Q_F !! 0%nat = Some false).
Proof.
  apply (initial_Q_V_unseeded (Toy.p_map 0) Toy.grids false
           Toy.Q_map Toy.Q_F None eq_refl 0%nat).
Defined.

(** C2 (as stated) fails: with the floor at -1 the pair (state 0, action 1)
    steps to -1 without failing, lands in bin 0, and starts non-viable
    although [Q_F] is false there. *)
Lemma initial_Q_V_not_complement :
  ~ (forall (Q_map : ndarray Z) (Q_F : ndarray bool)
            (og : option (ndarray bool)) (q : nat),
       compute_Q_map (Toy.p_map (-1)) Toy.grids false = OK (Q_map, Q_F, og) ->
       (data (initial_Q_V Q_map None) !! q = Some true
        <-> data Q_F !! q = Some false)).
Proof.
  intros H.
  specialize (H (NDArray [3; 2]%nat [1; 0; 2; 1; 3; 2])
                (NDArray [3; 2]%nat (replicate 6 false)) None 1%nat eq_refl).
  destruct H as [_ H]. specialize (H eq_refl). discriminate.
Qed.

(** C4 at the failing input: for the map [Toy.relative], whose decoder reads
    the parameter set by the encoder, the sequential builder decodes with
    the parameters of each pair while the parallel one decodes with the
    defaults, and the two transition maps differ. *)
Theorem parcompute_Q_map_differs :
  compute_Q_map Toy.relative Toy.grids false
    = OK (Toy.Q_map_seq, Toy.Q_F_none, None)
  /\ parcompute_Q_map Toy.relative Toy.grids false
    = OK (Toy.Q_map_par, Toy.Q_F_none, None)
  /\ Toy.Q_map_seq <> Toy.Q_map_par.
Proof. split; [reflexivity|]. split; [reflexivity | discriminate]. Qed.

(** Apart from the parameters handed to the decoder, the two builders
    agree: when decoding with the defaults and decoding with the parameters
    of the pair give the same state, they return the same tables. *)
Lemma fill_par_fill_seq {X P : Type} (p_map : PMap X P) (grids : Grids)
    (check_grid : bool) :
  (forall sa x,
     xp2s p_map x (snd (sa2xp p_map sa (p p_map))) = xp2s p_map x (p p_map)) ->
  forall (SA pre : list (list Q)) (idx : nat) (t : tables),
  idx = length pre ->
  fill_par p_map grids check_grid (p p_map)
    (starmap p_map (map (fun sa => sa2xp p_map sa (p p_map)) (pre ++ SA)))
    idx SA t
  = fill_seq p_map grids check_grid idx SA t.
Proof.
  intros Hdec. induction SA as [|sa rest IH]; intros pre idx t Hidx; [done|].
  cbn [fill_par fill_seq]. unfold item, starmap at 1.
  rewrite !list_lookup_fmap, Hidx, list_lookup_middle by done. cbn.
  specialize (Hdec sa). destruct (sa2xp p_map sa (p p_map)) as [x p0].
  cbn [fst snd] in *. destruct (call p_map x p0) as [x_next failed].
  rewrite Hdec.
  destruct (store grids check_grid (length pre) (xp2s p_map x_next (p p_map))
              failed t) as [t'|e]; [|done].
  cbn [bind]. rewrite <- (IH (pre ++ [sa]) (S (length pre)) t').
  - by rewrite <- app_assoc.
  - rewrite length_app. simpl. lia.
Qed.

Lemma parcompute_Q_map_agrees {X P : Type} (p_map : PMap X P) (grids : Grids)
    (check_grid : bool) :
  (forall sa x,
     xp2s p_map x (snd (sa2xp p_map sa (p p_map))) = xp2s p_map x (p p_map)) ->
  parcompute_Q_map p_map grids check_grid = compute_Q_map p_map grids check_grid.
Proof.
  intros Hdec. unfold parcompute_Q_map, compute_Q_map.
  destruct (total_gridpoints grids) as [n|e]; [|done]. cbn [bind].
  pose proof (fill_par_fill_seq p_map grids check_grid Hdec
                (product (states grids ++ actions grids)) [] 0%nat
                (blank n) eq_refl) as H.
  simpl in H. by rewrite H.
Qed.

(** ** The measure back-mapper *)

Lemma add_corners_spec (S_M : ndarray Q) (corners : list (list Z)) :
  forall acc m : Q,
  add_corners S_M corners acc = OK m ->
  exists vals, Forall2 (fun idx v => get S_M idx = OK v) corners vals
               /\ (m == acc + foldr Qplus 0 vals)%Q.
Proof.
  induction corners as [|idx rest IH]; intros acc m H; simpl in H.
  - injection H as <-. exists []. split; [constructor|]. simpl. ring.
  - inv_bind H. destruct (IH _ _ H) as (vals & Hv & Hm).
    exists (a :: vals). split; [by apply Forall2_cons|].
    simpl. rewrite Hm. ring.
Qed.

Lemma add_corners_total (S_M : ndarray Q) (corners : list (list Z)) :
  Forall (fun idx => exists v, get S_M idx = OK v) corners ->
  forall acc : Q, exists m, add_corners S_M corners acc = OK m.
Proof.
  induction 1 as [|idx rest [v Hv] _ IH]; intros acc; simpl; [by eexists|].
  rewrite Hv. cbn [bind]. apply IH.
Qed.

Lemma corner_measure_spec (s : Z) (S_M : ndarray Q) (s_grid : list (list Q))
    (on : bool) (m : Q) :
  corner_measure s S_M s_grid on = OK m ->
  exists sdx corners,
    unravel_index s (if on then shape S_M else map S (shape S_M)) = OK sdx
    /\ get_grid_indices sdx s_grid = OK corners
    /\ match corners with
       | [] => m = 0%Q
               /\ forall d, corner_measure s (NDArray (shape S_M) d) s_grid on
                            = OK 0%Q
       | _ => exists vals,
                Forall2 (fun idx v => get S_M idx = OK v) corners vals
                /\ (m == mean vals)%Q
       end.
Proof.
  unfold corner_measure. intros H. inv_bind H. inv_bind H.
  exists a, a0. split; [done|]. split; [done|].
  destruct a0 as [|c cs].
  - simpl in H. injection H as <-. split; [done|].
    intros d. simpl. rewrite Ha. cbn [bind]. by rewrite Ha0.
  - cbn [length Nat.ltb Nat.leb] in H. inv_bind H. injection H as <-.
    destruct (add_corners_spec _ _ _ _ Ha1) as (vals & Hv & Hm).
    exists vals. split; [done|]. unfold mean.
    rewrite <- (Forall2_length _ _ _ Hv). rewrite Hm.
    by rewrite Qplus_0_l.
Qed.

Section BackMapFacts.

Variable Q_map : ndarray Z.
Variable S_M : ndarray Q.
Variable s_grid : list (list Q).
Variable Q_V : ndarray bool.
Variable Q_on_grid : ndarray bool.

Local Abbreviation fill := (fill_measure Q_map S_M s_grid Q_V Q_on_grid).

Lemma fill_measure_length (qdxs : list nat) :
  forall Q_M0 Q_M : list Q, fill qdxs Q_M0 = OK Q_M -> length Q_M = length Q_M0.
Proof.
  induction qdxs as [|qdx rest IH]; intros Q_M0 Q_M H; simpl in H.
  - by injection H as <-.
  - destruct (data Q_V !! qdx) as [[|]|]; try by apply IH.
    inv_bind H. inv_bind H. inv_bind H.
    apply IH in H. by rewrite length_insert in H.
Qed.

Lemma fill_measure_other (qdxs : list nat) (q : nat) :
  q ∉ qdxs \/ data Q_V !! q <> Some true ->
  forall Q_M0 Q_M : list Q, fill qdxs Q_M0 = OK Q_M -> Q_M !! q = Q_M0 !! q.
Proof.
  intros Hq. induction qdxs as [|qdx rest IH]; intros Q_M0 Q_M H; simpl in H.
  - by injection H as <-.
  - assert (Hrest : q ∉ rest \/ data Q_V !! q <> Some true).
    { destruct Hq as [Hq|Hq]; [left | by right].
      by apply not_elem_of_cons in Hq as [_ Hq]. }
    destruct (data Q_V !! qdx) as [[|]|] eqn:Hv; try by apply IH.
    inv_bind H. inv_bind H. inv_bind H.
    rewrite (IH Hrest _ _ H). apply list_lookup_insert_ne.
    intros ->. destruct Hq as [Hq|Hq]; [|done].
    apply Hq. by left.
Qed.

Lemma fill_measure_viable (qdxs : list nat) (q : nat) :
  NoDup qdxs -> q ∈ qdxs -> data Q_V !! q = Some true ->
  forall Q_M0 Q_M : list Q, fill qdxs Q_M0 = OK Q_M ->
  exists on s m,
    get_flat Q_on_grid q = OK on
    /\ get_flat Q_map q = OK s
    /\ corner_measure s S_M s_grid on = OK m
    /\ ((q < length Q_M0)%nat -> Q_M !! q = Some m).
Proof.
  intros Hnd Hin Hq. induction Hnd as [|qdx rest Hnot _ IH];
    intros Q_M0 Q_M H; [by apply elem_of_nil in Hin|].
  simpl in H. apply elem_of_cons in Hin. destruct Hin as [->|Hin].
  - rewrite Hq in H. inv_bind H. inv_bind H. inv_bind H.
    exists a, a0, a1. repeat (split; [done|]). intros Hlt.
    rewrite (fill_measure_other rest qdx (or_introl Hnot) _ _ H).
    by apply list_lookup_insert_eq.
  - destruct (data Q_V !! qdx) as [[|]|] eqn:Hv; try by apply IH.
    inv_bind H. inv_bind H. inv_bind H.
    destruct (IH Hin _ _ H) as (on & s & m & H1 & H2 & H3 & H4).
    exists on, s, m. repeat (split; [done|]). intros Hlt. apply H4.
    by rewrite length_insert.
Qed.

End BackMapFacts.

Lemma corner_measure_total (s : Z) (S_M : ndarray Q) (s_grid : list (list Q))
    (on : bool) :
  well_shaped S_M ->
  shape S_M = map size s_grid ->
  0 <= s < Z.of_nat (prod (if on then map size s_grid
                           else map (fun g => S (size g)) s_grid)) ->
  exists m, corner_measure s S_M s_grid on = OK m.
Proof.
  intros Hw Hshape Hs. unfold corner_measure. rewrite Hshape, map_map.
  rewrite unravel_index_OK by (by destruct on). cbn [bind].
  set (sdx := unravel s _).
  destruct (get_grid_indices_spec sdx s_grid) as (corners & -> & Hin).
  { unfold sdx. rewrite unravel_length. by destruct on; rewrite length_map. }
  cbn [bind]. destruct corners as [|c cs]; [by eexists|].
  cbn [length Nat.ltb Nat.leb].
  destruct (add_corners_total S_M (c :: cs)) with (acc := 0%Q) as [m ->];
    [|by eexists].
  apply Forall_forall. intros idx Hidx. apply list_elem_of_In in Hidx.
  apply Hin in Hidx. destruct Hidx as [_ Hg].
  apply get_in_range; [done|]. rewrite Hshape. by apply on_the_grid_in_range.
Qed.

(** On a measure shaped like the grid and a usable table, [map_S2Q]
    raises nothing. *)
Lemma map_S2Q_total (Q_map : ndarray Z) (S_M : ndarray Q)
    (s_grid : list (list Q)) (Q_V Q_on_grid : ndarray bool) :
  well_shaped S_M ->
  shape S_M = map size s_grid ->
  valid_tables Q_map Q_on_grid s_grid (length (data Q_V)) ->
  exists Q_M, map_S2Q Q_map S_M s_grid (Some Q_V) (Some Q_on_grid) = OK Q_M.
Proof.
  intros Hw Hshape (Hl1 & Hl2 & Hr). unfold map_S2Q.
  assert (Hfill : forall qdxs Q_M0,
            exists d, fill_measure Q_map S_M s_grid Q_V Q_on_grid qdxs Q_M0
                      = OK d).
  { induction qdxs as [|qdx rest IH]; intros Q_M0; simpl; [by eexists|].
    destruct (data Q_V !! qdx) as [[|]|] eqn:Hq; try by apply IH.
    apply lookup_lt_Some in Hq.
    destruct (lookup_lt_is_Some_2 (data Q_map) qdx) as [s Hs]; [lia|].
    destruct (lookup_lt_is_Some_2 (data Q_on_grid) qdx) as [on Hon]; [lia|].
    unfold get_flat. rewrite Hs, Hon. cbn [bind].
    destruct (corner_measure_total s S_M s_grid on Hw Hshape
                (Hr qdx s on Hs Hon)) as [m ->].
    cbn [bind]. apply IH. }
  destruct (Hfill (seq 0 (length (data Q_V)))
              (replicate (prod (shape Q_map)) 0%Q)) as [d ->].
  by eexists.
Qed.



(** With a grid tuple smaller than the measure, the successor 3 of the only
    pair has no corner on the grid, and the pair is given 0. *)
Example map_S2Q_empty_corner_set :
  get_grid_indices [3] [[0%Q]] = OK []
  /\ map_S2Q (NDArray [1; 1]%nat [3]) (NDArray [3]%nat [1; 1; 1]%Q) [[0%Q]]
       None None
     = OK (NDArray [1; 1]%nat [0%Q]).
Proof. split; reflexivity. Qed.

(** ** The properties on the toy system *)

Lemma is_outside_decision_witness :
  exists out, is_outside 1 [Toy.g3] Toy.S_V false = OK out
    /\ exists corners,
         get_grid_indices
           (unravel 1 (map (fun g => S (size g)) [Toy.g3])) [Toy.g3]
         = OK corners
         /\ (forall idx, In idx corners <->
               adjacent idx (unravel 1 (map (fun g => S (size g)) [Toy.g3]))
               /\ on_the_grid idx [Toy.g3])
         /\ (out = true <->
               corners = []
               \/ exists idx, In idx corners /\ get Toy.S_V idx = OK false).
Proof.
  apply (is_outside_decision 1 [Toy.g3] Toy.S_V false).
  - reflexivity.
  - reflexivity.
  - simpl. lia.
Defined.

Lemma toy_valid_tables :
  valid_tables Toy.Q_map (zeros [3; 2]%nat) [Toy.g3] 6.
Proof.
  split; [reflexivity|]. split; [reflexivity|].
  intros q s on Hs Hon.
  do 6 (destruct q as [|q];
        [injection Hs as <-; injection Hon as <-; simpl; lia|]).
  discriminate.
Defined.

Lemma compute_QV_shrinks_and_terminates_witness :
  exists Q_V S_V : ndarray bool,
    compute_QV 6 Toy.Q_map Toy.grids (Some Toy.seed) None = Done (Q_V, S_V)
    /\ subset (data Q_V) (data Toy.seed)
    /\ (count_true (data Q_V) <= count_true (data Toy.seed))%nat.
Proof.
  apply (compute_QV_shrinks_and_terminates Toy.Q_map Toy.grids
           (Some Toy.seed) None).
  - reflexivity.
  - reflexivity.
  - exact toy_valid_tables.
Defined.


Lemma compute_QV_idempotent_witness :
  compute_QV 1 Toy.Q_map Toy.grids (Some Toy.Q_V) None
  = Done (Toy.Q_V, Toy.S_V).
Proof.
  apply (compute_QV_idempotent Toy.Q_map Toy.grids None Toy.Q_V Toy.S_V 1).
  - lia.
  - split; reflexivity.
Defined.

(** * Further properties of the grid tools *)

(** ** Raveled indices *)

Lemma ravel_from_in_range (idx : list Z) (shp : list nat) :
  in_range idx shp ->
  exists r, 0 <= r < Z.of_nat (prod shp)
    /\ unravel r shp = idx
    /\ forall acc, ravel_from acc idx shp = OK (acc * Z.of_nat (prod shp) + r).
Proof.
  induction 1 as [|i n idx' shp' Hi _ (r' & Hr' & Hun & Hrav)].
  - exists 0. split; [unfold prod; simpl; lia|]. split; [done|].
    intros acc. simpl. f_equal. unfold prod. simpl. lia.
  - exists (i * Z.of_nat (prod shp') + r'). rewrite prod_cons.
    split; [nia|]. split.
    + cbn [unravel]. f_equal.
      * rewrite Z.div_add_l by lia. rewrite Z.div_small by lia. lia.
      * rewrite Z.add_comm, Z.mod_add by lia. rewrite Z.mod_small by lia. done.
    + intros acc. cbn [ravel_from].
      destruct (0 <=? i) eqn:E1; [|lia].
      destruct (i <? Z.of_nat n) eqn:E2; [|lia].
      cbn [andb]. rewrite Hrav. f_equal. ring.
Qed.

Lemma digitize_dims_in_range (s : list Q) (s_grid : list (list Q)) :
  Forall increasing s_grid ->
  forall (d0 : nat) (bins : list Z),
  digitize_dims true s d0 s_grid = OK bins ->
  in_range bins (map (fun g => S (size g)) s_grid).
Proof.
  induction 1 as [|g rest Hg _ IH]; intros d0 bins H; simpl in H.
  - injection H as <-. constructor.
  - inv_bind H. rewrite (digitize_increasing a g Hg) in H. cbn [bind] in H.
    inv_bind H. injection H as <-. apply Forall2_cons. split; [|by eapply IH].
    pose proof (count_le_bound g a). unfold size. lia.
Qed.

(** X1.  The raveled bin stored by the builders is read back by the solver:
    for strictly increasing grids and a point with enough coordinates,
    [digitize_s] with the bin shape returns a flat index which
    [np.unravel_index] over the same shape (as done in [is_outside]) turns
    back into the very bin vector [digitize_s] returns without a shape. *)
Theorem digitize_s_ravel_round_trip (s : list Q) (s_grid : list (list Q)) :
  Forall increasing s_grid ->
  (length s_grid <= length s)%nat ->
  exists (bins : list Z) (k : Z),
    digitize_s s s_grid None true = OK (Unraveled bins)
    /\ digitize_s s s_grid (Some (map (fun g => S (size g)) s_grid)) true
       = OK (Raveled k)
    /\ unravel_index k (map (fun g => S (size g)) s_grid) = OK bins.
Proof.
  intros Hs Hlen.
  destruct (digitize_dims_long s s_grid Hs 0%nat) as (bins & Hb & _ & _);
    [simpl; lia|].
  pose proof (digitize_dims_in_range s s_grid Hs 0%nat bins Hb) as Hr.
  destruct (ravel_from_in_range _ _ Hr) as (k & Hk & Hun & Hrav).
  exists bins, k. unfold digitize_s. rewrite Hb. cbn [bind].
  split; [done|]. unfold ravel_multi_index. rewrite Hrav. cbn [bind].
  split; [f_equal; f_equal; lia|].
  rewrite unravel_index_OK by done. by rewrite Hun.
Qed.

Lemma digitize_s_ravel_round_trip_witness :
  exists (bins : list Z) (k : Z),
    digitize_s [1 # 2]%Q [Toy.g3] None true = OK (Unraveled bins)
    /\ digitize_s [1 # 2]%Q [Toy.g3]
         (Some (map (fun g => S (size g)) [Toy.g3])) true
       = OK (Raveled k)
    /\ unravel_index k (map (fun g => S (size g)) [Toy.g3]) = OK bins.
Proof.
  apply (digitize_s_ravel_round_trip [1 # 2]%Q [Toy.g3]).
  - repeat constructor.
  - simpl. lia.
Defined.

(** ** Corners *)

(** X2.  For a bin vector with one entry per grid, [get_grid_indices]
    raises nothing and returns exactly the index tuples that are, in every
    coordinate, the bin or the bin minus one, and inside the grid. *)
Theorem get_grid_indices_corners (bin_idx : list Z) (s_grid : list (list Q)) :
  length bin_idx = length s_grid ->
  exists corners, get_grid_indices bin_idx s_grid = OK corners
    /\ forall idx, In idx corners <->
                   adjacent idx bin_idx /\ on_the_grid idx s_grid.
Proof. apply get_grid_indices_spec. Qed.

Lemma get_grid_indices_corners_witness :
  exists corners, get_grid_indices [1] [Toy.g3] = OK corners
    /\ forall idx, In idx corners <->
                   adjacent idx [1] /\ on_the_grid idx [Toy.g3].
Proof. apply (get_grid_indices_corners [1] [Toy.g3]). reflexivity. Defined.

(** X3.  When no grid is empty, the bin of every valid flat index has at
    least one corner on the grid: the empty-corner branch of [is_outside] is
    never taken for a successor stored by the builders, and a successor
    beyond the edge of the grid is judged on the edge nodes alone. *)
Theorem get_grid_indices_nonempty (s : Z) (s_grid : list (list Q)) :
  Forall (fun g => (1 <= size g)%nat) s_grid ->
  0 <= s < Z.of_nat (prod (map (fun g => S (size g)) s_grid)) ->
  exists c cs,
    get_grid_indices (unravel s (map (fun g => S (size g)) s_grid)) s_grid
    = OK (c :: cs).
Proof.
  intros Hpos Hs.
  destruct (get_grid_indices_spec
              (unravel s (map (fun g => S (size g)) s_grid)) s_grid)
    as (corners & Hc & Hin).
  { by rewrite unravel_length, length_map. }
  destruct (exists_corner
              (unravel s (map (fun g => S (size g)) s_grid)) s_grid)
    as (idx & Hadj & Hon).
  { pose proof (unravel_in_range _ _ Hs) as Hr.
    unfold in_range in Hr. rewrite Forall2_fmap_r in Hr.
    clear -Hr Hpos. induction Hr as [|b g bs gs Hb _ IH]; [constructor|].
    inversion Hpos; subst. apply Forall2_cons. split; [|by apply IH].
    simpl in *. lia. }
  assert (Hne : In idx corners) by (by apply Hin).
  destruct corners as [|c cs]; [done|]. by exists c, cs.
Qed.

Lemma get_grid_indices_nonempty_witness :
  exists c cs,
    get_grid_indices (unravel 3 (map (fun g => S (size g)) [Toy.g3])) [Toy.g3]
    = OK (c :: cs).
Proof.
  apply (get_grid_indices_nonempty 3 [Toy.g3]).
  - repeat constructor.
  - simpl. lia.
Defined.

(** ** Nearest grid node *)

Lemma argmin_from_spec (l : list Q) :
  forall (pre : list Q) (best_i : nat) (best : Q),
  pre !! best_i = Some best ->
  (forall j x, pre !! j = Some x -> (best <= x)%Q) ->
  (forall j x, (j < best_i)%nat -> pre !! j = Some x -> (best < x)%Q) ->
  exists m,
    (pre ++ l) !! argmin_from best_i best (length pre) l = Some m
    /\ (forall j x, (pre ++ l) !! j = Some x -> (m <= x)%Q)
    /\ (forall j x, (j < argmin_from best_i best (length pre) l)%nat ->
          (pre ++ l) !! j = Some x -> (m < x)%Q).
Proof.
  induction l as [|x rest IH]; intros pre best_i best Hb Hmin Hfirst.
  - simpl. rewrite app_nil_r. by exists best.
  - cbn [argmin_from].
    replace (pre ++ x :: rest) with ((pre ++ [x]) ++ rest)
      by (by rewrite <- app_assoc).
    replace (S (length pre)) with (length (pre ++ [x]))
      by (rewrite length_app; simpl; lia).
    destruct (Qle_bool best x) eqn:E; cbn [negb].
    + apply Qle_bool_iff in E. apply IH.
      * by apply lookup_app_l_Some.
      * intros j y Hj. apply lookup_app_Some in Hj.
        destruct Hj as [Hj|[_ Hj]]; [by eapply Hmin|].
        apply list_lookup_singleton_Some in Hj. by destruct Hj as [_ <-].
      * intros j y Hlt Hj. apply lookup_app_Some in Hj.
        destruct Hj as [Hj|[Hge _]]; [by eapply Hfirst|].
        apply lookup_lt_Some in Hb. lia.
    + assert (Hlt : (x < best)%Q).
      { apply Qnot_le_lt. intros Hle. apply Qle_bool_iff in Hle. congruence. }
      apply IH.
      * rewrite lookup_app_r by lia. by rewrite Nat.sub_diag.
      * intros j y Hj. apply lookup_app_Some in Hj.
        destruct Hj as [Hj|[_ Hj]].
        -- apply Qlt_le_weak. eapply Qlt_le_trans; [exact Hlt|]. by eapply Hmin.
        -- apply list_lookup_singleton_Some in Hj. destruct Hj as [_ <-].
           apply Qle_refl.
      * intros j y Hj Hy. apply lookup_app_Some in Hy.
        destruct Hy as [Hy|[Hge _]]; [|lia].
        eapply Qlt_le_trans; [exact Hlt|]. by eapply Hmin.
Qed.

Lemma argmin_spec (l : list Q) (r : Z) :
  argmin l = OK r ->
  exists (i : nat) (m : Q),
    r = Z.of_nat i /\ l !! i = Some m
    /\ (forall j x, l !! j = Some x -> (m <= x)%Q)
    /\ (forall j x, (j < i)%nat -> l !! j = Some x -> (m < x)%Q).
Proof.
  destruct l as [|x rest]; [discriminate|]. simpl. intros [= <-].
  destruct (argmin_from_spec rest [x] 0%nat x) as (m & H1 & H2 & H3).
  - done.
  - intros [|j] y Hj; [|done]. injection Hj as <-. apply Qle_refl.
  - intros j y Hj. lia.
  - exists (argmin_from 0 x 1 rest), m. by repeat split.
Qed.

(** The node chosen by the [to_bin=False] branch, over the exact distances
    of the model; it is used below at exact grid hits only, where a distance
    is 0 with or without rounding. *)
Lemma digitize_dims_nearest (s : list Q) (s_grid : list (list Q)) :
  forall (d0 : nat) (s_idx : list Z),
  digitize_dims false s d0 s_grid = OK s_idx ->
  forall (d : nat) (grid : list Q), s_grid !! d = Some grid ->
  exists (v : Q) (i : nat) (gi : Q),
    s !! (d0 + d)%nat = Some v
    /\ s_idx !! d = Some (Z.of_nat i)
    /\ grid !! i = Some gi
    /\ (forall j gj, grid !! j = Some gj ->
          (Qabs (gi - v) <= Qabs (gj - v))%Q)
    /\ (forall j gj, (j < i)%nat -> grid !! j = Some gj ->
          (Qabs (gi - v) < Qabs (gj - v))%Q).
Proof.
  induction s_grid as [|g rest IH]; intros d0 s_idx H d grid Hd; [done|].
  simpl in H. inv_bind H. rename a into v. inv_bind H. rename a into r.
  inv_bind H. rename a into tl. injection H as <-.
  unfold item in Ha. destruct (s !! d0) as [v'|] eqn:Hv; [|discriminate].
  injection Ha as ->.
  destruct d as [|d]; simpl in Hd.
  - injection Hd as ->.
    destruct (argmin_spec _ _ Ha0) as (i & m & -> & Hi & Hmin & Hfirst).
    rewrite list_lookup_fmap in Hi.
    destruct (grid !! i) as [gi|] eqn:Hgi; [|discriminate].
    injection Hi as <-.
    exists v, i, gi. rewrite Nat.add_0_r. repeat (split; [done|]). split.
    + intros j gj Hj. apply (Hmin j). by rewrite list_lookup_fmap, Hj.
    + intros j gj Hlt Hj. apply (Hfirst j); [done|].
      by rewrite list_lookup_fmap, Hj.
  - destruct (IH (S d0) tl Ha1 d grid Hd) as (w & i & gi & Hw & Hi & Hrest).
    exists w, i, gi. split; [|by split]. rewrite <- Hw. f_equal. lia.
Qed.

Lemma increasing_lookup_lt (g : list Q) :
  increasing g ->
  forall (i j : nat) (a b : Q),
  (i < j)%nat -> g !! i = Some a -> g !! j = Some b -> (a < b)%Q.
Proof.
  induction 1 as [|x t Hs IH Hall]; intros i j a b Hlt Hi Hj; [done|].
  destruct j as [|j]; [lia|]. simpl in Hj. destruct i as [|i]; simpl in Hi.
  - injection Hi as <-. apply list_elem_of_lookup_2 in Hj.
    by apply (proj1 (Forall_forall _ _) Hall).
  - apply (IH i j); [lia | done | done].
Qed.

(** X5.  On a strictly increasing grid, a coordinate that equals a grid
    point is given, with [to_bin=False], the position of that very grid
    point: the index stored for an on-grid successor is its exact node. *)
Theorem digitize_s_nearest_exact (s : list Q) (s_grid : list (list Q))
    (s_idx : list Z) :
  Forall increasing s_grid ->
  digitize_s s s_grid None false = OK (Unraveled s_idx) ->
  forall (d : nat) (grid : list Q) (v : Q) (i : nat) (gi : Q),
  s_grid !! d = Some grid -> s !! d = Some v ->
  grid !! i = Some gi -> (gi == v)%Q ->
  s_idx !! d = Some (Z.of_nat i).
Proof.
  intros Hs H d grid v i gi Hd Hv Hi Heq.
  unfold digitize_s in H. inv_bind H. injection H as ->.
  destruct (digitize_dims_nearest s s_grid 0%nat s_idx Ha d grid Hd)
    as (v' & r & gr & Hv' & Hr & Hgr & Hmin & _).
  simpl in Hv'. rewrite Hv in Hv'. injection Hv' as <-.
  rewrite Hr. f_equal. f_equal.
  assert (Hg : increasing grid).
  { apply list_elem_of_lookup_2 in Hd.
    by apply (proj1 (Forall_forall _ _) Hs). }
  assert (Hzero : (gr == v)%Q).
  { specialize (Hmin i gi Hi).
    assert (H0 : (Qabs (gi - v) == 0)%Q).
    { assert (Hd0 : (gi - v == 0)%Q) by lra. by rewrite Hd0. }
    rewrite H0 in Hmin. apply Qabs_Qle_condition in Hmin.
    destruct Hmin as [H1 H2]. lra. }
  destruct (Nat.lt_trichotomy r i) as [Hlt|[->|Hlt]]; [|done|].
  - pose proof (increasing_lookup_lt grid Hg r i gr gi Hlt Hgr Hi) as Hc.
    rewrite Hzero, Heq in Hc. by apply Qlt_irrefl in Hc.
  - pose proof (increasing_lookup_lt grid Hg i r gi gr Hlt Hi Hgr) as Hc.
    rewrite Hzero, Heq in Hc. by apply Qlt_irrefl in Hc.
Qed.

Lemma digitize_s_nearest_exact_witness :
  [1] !! 0%nat = Some (Z.of_nat 1).
Proof.
  apply (digitize_s_nearest_exact [1]%Q [Toy.g3] [1]
           ltac:(repeat constructor) eq_refl 0%nat Toy.g3 1%Q 1%nat 1%Q
           eq_refl eq_refl eq_refl).
  reflexivity.
Defined.

(** * Further properties of the solver *)

Lemma get_subset (A B : ndarray bool) (idx : list Z) :
  shape A = shape B -> subset (data A) (data B) ->
  get A idx = OK true -> get B idx = OK true.
Proof.
  unfold get. intros Hs Hsub H. rewrite <- Hs. inv_bind H. rewrite Ha.
  cbn [bind]. destruct (data A !! Z.to_nat a) as [[|]|] eqn:E; try done.
  by rewrite (subset_lookup _ _ _ Hsub E).
Qed.

Lemma any_corner_outside_false (S_V : ndarray bool) (corners : list (list Z)) :
  any_corner_outside S_V corners = OK false
  <-> Forall (fun idx => get S_V idx = OK true) corners.
Proof.
  induction corners as [|idx rest IH]; simpl.
  - split; [constructor | done].
  - split.
    + intros H. inv_bind H. destruct a; simpl in H; [|done].
      constructor; [done | by apply IH].
    + intros H. inversion H as [|? ? H1 H2]; subst. rewrite H1. simpl.
      by apply IH.
Qed.

(** A successor that is inside a set of viable states is inside every
    larger one. *)
Lemma is_outside_mono (s : Z) (s_grid : list (list Q))
    (S_small S_big : ndarray bool) (on : bool) :
  shape S_small = shape S_big ->
  subset (data S_small) (data S_big) ->
  is_outside s s_grid S_small on = OK false ->
  is_outside s s_grid S_big on = OK false.
Proof.
  intros Hs Hsub H. unfold is_outside in *. inv_bind H. rewrite Ha.
  cbn [bind]. destruct on.
  - inv_bind H. rewrite Ha0. cbn [bind]. inv_bind H.
    destruct a1; [|done]. by rewrite (get_subset _ _ _ Hs Hsub Ha1).
  - inv_bind H. rewrite Ha0. cbn [bind].
    destruct (0 <? length a0)%nat; [|done].
    apply any_corner_outside_false in H. apply any_corner_outside_false.
    eapply Forall_impl; [exact H|]. intros idx Hidx.
    by apply (get_subset _ _ _ Hs Hsub).
Qed.

Lemma subset_insert_false_r (a b : list bool) :
  subset a b ->
  forall q : nat, a !! q <> Some true -> subset a (<[q := false]> b).
Proof.
  induction 1 as [|x y a b Hxy Hab IH]; intros q Hq; [constructor|].
  destruct q as [|q]; simpl.
  - apply Forall2_cons. split; [|done]. intros ->. by destruct Hq.
  - apply Forall2_cons. split; [done | by apply IH].
Qed.

Section KernelFacts.

Variable Q_map : ndarray Z.
Variable grids : Grids.
Variable Q_on_grid : ndarray bool.

Lemma prune_fixed_inside (S_V : ndarray bool) (qdxs : list nat)
    (Q_V : list bool) :
  NoDup qdxs ->
  prune Q_map grids Q_on_grid S_V qdxs Q_V = OK Q_V ->
  forall q, q ∈ qdxs -> Q_V !! q = Some true ->
  exists s on, get_flat Q_map q = OK s
               /\ get_flat Q_on_grid q = OK on
               /\ is_outside s (states grids) S_V on = OK false.
Proof.
  induction 1 as [|qdx rest Hnot _ IH]; intros H q Hin Hq;
    [by apply elem_of_nil in Hin|].
  simpl in H. destruct (Q_V !! qdx) as [[|]|] eqn:Hv.
  - inv_bind H. inv_bind H. inv_bind H.
    destruct a1.
    { pose proof (prune_other _ _ _ _ rest qdx Hnot _ _ H) as Ho.
      rewrite list_lookup_insert_eq in Ho by (by eapply lookup_lt_Some).
      congruence. }
    apply elem_of_cons in Hin. destruct Hin as [->|Hin]; [by eauto|].
    by apply IH.
  - apply elem_of_cons in Hin. destruct Hin as [->|Hin]; [congruence|].
    by apply IH.
  - apply elem_of_cons in Hin. destruct Hin as [->|Hin]; [congruence|].
    by apply IH.
Qed.

(** Pairs that are all inside [S_V] survive a pass against [S_V]. *)
Lemma prune_keeps (S_V : ndarray bool) (Q' : list bool) :
  (forall q, Q' !! q = Some true ->
   exists s on, get_flat Q_map q = OK s
                /\ get_flat Q_on_grid q = OK on
                /\ is_outside s (states grids) S_V on = OK false) ->
  forall (qdxs : list nat) (Q_V d : list bool),
  subset Q' Q_V ->
  prune Q_map grids Q_on_grid S_V qdxs Q_V = OK d -> subset Q' d.
Proof.
  intros Hin. induction qdxs as [|qdx rest IH]; intros Q_V d Hsub H;
    simpl in H.
  - by injection H as <-.
  - destruct (Q_V !! qdx) as [[|]|] eqn:Hv; try by eapply IH.
    inv_bind H. inv_bind H. inv_bind H.
    destruct a1; [|by eapply IH].
    eapply IH; [|exact H]. apply subset_insert_false_r; [done|].
    intros Hq. destruct (Hin qdx Hq) as (s & on & H1 & H2 & H3). congruence.
Qed.

Lemma prune_raises (S_V : ndarray bool) (q : nat) (s : Z) :
  data Q_map !! q = Some s ->
  ~ (0 <= s < Z.of_nat (prod (map (fun g => S (size g)) (states grids)))) ->
  forall (qdxs : list nat) (Q_V : list bool),
  q ∈ qdxs -> Q_V !! q = Some true ->
  exists e, prune Q_map grids Q_on_grid S_V qdxs Q_V = Raise e.
Proof.
  intros Hs Hbad. induction qdxs as [|qdx rest IH]; intros Q_V Hin Hq;
    [by apply elem_of_nil in Hin|].
  simpl. destruct (decide (qdx = q)) as [->|Hne].
  - rewrite Hq. unfold get_flat at 1. rewrite Hs. cbn [bind].
    destruct (get_flat Q_on_grid q) as [on|e]; [|by eauto]. cbn [bind].
    unfold is_outside, unravel_index.
    destruct (0 <=? s) eqn:E1; destruct (s <? _) eqn:E2; cbn [andb bind];
      try (by eauto). lia.
  - apply elem_of_cons in Hin. destruct Hin as [->|Hin]; [done|].
    destruct (Q_V !! qdx) as [[|]|] eqn:Hv; try by apply IH.
    destruct (get_flat Q_map qdx) as [s'|e]; [|by eauto]. cbn [bind].
    destruct (get_flat Q_on_grid qdx) as [on|e]; [|by eauto]. cbn [bind].
    destruct (is_outside s' (states grids) S_V on) as [out|e]; [|by eauto].
    cbn [bind]. apply IH; [done|].
    destruct out; [by rewrite list_lookup_insert_ne | done].
Qed.

Lemma QV_loop_maximal (Q' S' : ndarray bool) :
  converged Q_map grids Q_on_grid Q' S' ->
  forall (fuel : nat) (Q_V S_V S_old Qr Sr : ndarray bool),
  project_Q2S Q_V grids np_any = OK S_V ->
  shape Q' = shape Q_V ->
  subset (data Q') (data Q_V) ->
  QV_loop Q_map grids Q_on_grid fuel Q_V S_V S_old = Done (Qr, Sr) ->
  subset (data Q') (data Qr).
Proof.
  intros [Hp' Hfix]. induction fuel as [|fuel IH];
    intros Q_V S_V S_old Qr Sr Hp Hsh Hsub H; simpl in H.
  - destruct (array_equal S_V S_old); [|discriminate]. by injection H as <- <-.
  - destruct (array_equal S_V S_old); [by injection H as <- <-|].
    destruct (solver_pass Q_map grids Q_on_grid Q_V S_V) as [[Q1 S1]|e] eqn:E;
      [|discriminate].
    pose proof E as E'. apply solver_pass_shrinks in E'.
    destruct E' as (E1 & _ & E3 & _).
    apply (IH Q1 S1 S_V Qr Sr E3); [congruence | | done].
    unfold solver_pass in E. inv_bind E. inv_bind E. injection E as <- <-.
    simpl. eapply prune_keeps; [|exact Hsub|exact Ha].
    intros q Hq.
    destruct (prune_fixed_inside S' _ _ (NoDup_seq _ _) Hfix q)
      as (s & on & H1 & H2 & H3); [|done|].
    { apply elem_of_seq. apply lookup_lt_Some in Hq. lia. }
    exists s, on. split; [done|]. split; [done|].
    destruct Q' as [shp' d'], Q_V as [shp d]. simpl in *. subst shp'.
    destruct (project_Q2S_subset grids shp d d' S_V S' Hsub Hp Hp')
      as [Hs1 Hs2].
    by apply (is_outside_mono s (states grids) S' S_V on).
Qed.

End KernelFacts.

(** X6.  In what [compute_QV] returns on a viable set shaped like the
    grids, every viable pair has a table entry whose successor
    [is_outside] finds inside the returned [S_V]: no viable pair leads out
    of the returned kernel. *)
Theorem compute_QV_result_inside (Q_map : ndarray Z) (grids : Grids)
    (seed Q_on_grid : option (ndarray bool)) (fuel : nat)
    (Q_V S_V : ndarray bool) :
  well_shaped (initial_Q_V Q_map seed) ->
  shape (initial_Q_V Q_map seed)
    = map size (states grids) ++ map size (actions grids) ->
  compute_QV fuel Q_map grids seed Q_on_grid = Done (Q_V, S_V) ->
  forall q, data Q_V !! q = Some true ->
  exists s on,
    get_flat Q_map q = OK s
    /\ get_flat (on_grid_or_zeros Q_V Q_on_grid) q = OK on
    /\ is_outside s (states grids) S_V on = OK false.
Proof.
  intros Hw Hshape H q Hq.
  destruct (compute_QV_result_converged _ _ _ _ _ _ _ Hw Hshape H)
    as [_ Hfix].
  eapply prune_fixed_inside; [apply NoDup_seq | exact Hfix | | done].
  apply elem_of_seq. apply lookup_lt_Some in Hq. lia.
Qed.

Lemma compute_QV_result_inside_witness :
  exists s on,
    get_flat Toy.Q_map 2%nat = OK s
    /\ get_flat (on_grid_or_zeros Toy.Q_V None) 2%nat = OK on
    /\ is_outside s (states Toy.grids) Toy.S_V on = OK false.
Proof.
  apply (compute_QV_result_inside Toy.Q_map Toy.grids (Some Toy.seed) None
           6 Toy.Q_V Toy.S_V eq_refl eq_refl eq_refl 2%nat).
  reflexivity.
Defined.

(** X7.  What [compute_QV] returns is the largest fixed point below its
    initial viable set: every set of that shape that lies below the initial
    one and that a pruning pass against its own projection leaves unchanged
    lies below the returned [Q_V]. *)
Theorem compute_QV_maximal (Q_map : ndarray Z) (grids : Grids)
    (seed Q_on_grid : option (ndarray bool)) (fuel : nat)
    (Q_V S_V Q' S' : ndarray bool) :
  compute_QV fuel Q_map grids seed Q_on_grid = Done (Q_V, S_V) ->
  shape Q' = shape (initial_Q_V Q_map seed) ->
  subset (data Q') (data (initial_Q_V Q_map seed)) ->
  converged Q_map grids
    (on_grid_or_zeros (initial_Q_V Q_map seed) Q_on_grid) Q' S' ->
  subset (data Q') (data Q_V).
Proof.
  intros H Hsh Hsub Hc. unfold compute_QV in H.
  destruct (project_Q2S (initial_Q_V Q_map seed) grids np_any)
    as [S0|e] eqn:E; [|discriminate].
  by eapply QV_loop_maximal.
Qed.

Lemma compute_QV_maximal_witness : subset (data Toy.Q_V) (data Toy.Q_V).
Proof.
  apply (compute_QV_maximal Toy.Q_map Toy.grids (Some Toy.seed) None 6
           Toy.Q_V Toy.S_V Toy.Q_V Toy.S_V eq_refl eq_refl).
  - repeat (apply Forall2_cons; split; [done|]). constructor.
  - split; reflexivity.
Defined.

(** X8.  When every state of the initial viable set has a viable action,
    the solver prunes nothing: on a usable table, [compute_QV] returns the
    initial [Q_V] and its all-true projection after a single pass, wherever
    the recorded successors lie (a successor beyond the edge of the grid is
    judged on the edge nodes). *)
Theorem compute_QV_all_viable (Q_map : ndarray Z) (grids : Grids)
    (seed Q_on_grid : option (ndarray bool)) (S_V : ndarray bool)
    (fuel : nat) :
  well_shaped (initial_Q_V Q_map seed) ->
  shape (initial_Q_V Q_map seed)
    = map size (states grids) ++ map size (actions grids) ->
  valid_tables Q_map (on_grid_or_zeros (initial_Q_V Q_map seed) Q_on_grid)
    (states grids) (length (data (initial_Q_V Q_map seed))) ->
  project_Q2S (initial_Q_V Q_map seed) grids np_any = OK S_V ->
  Forall (fun v => v = true) (data S_V) ->
  (1 <= length (data S_V))%nat ->
  (1 <= fuel)%nat ->
  compute_QV fuel Q_map grids seed Q_on_grid
  = Done (initial_Q_V Q_map seed, S_V).
Proof.
  intros Hw Hshape Hv Hp Hall Hne Hfuel. unfold compute_QV. rewrite Hp.
  set (Q0 := initial_Q_V Q_map seed) in *.
  set (og := on_grid_or_zeros Q0 Q_on_grid) in *.
  destruct (project_Q2S_shaped grids Q0 Hshape) as (S0 & HS0 & Hs & HwS & _).
  rewrite Hp in HS0. injection HS0 as <-.
  destruct fuel as [|fuel]; [lia|]. simpl.
  destruct (array_equal S_V (zeros_like S_V)) eqn:E.
  { apply array_equal_true in E. exfalso.
    pose proof (f_equal data E) as Hd. simpl in Hd.
    destruct (data S_V) as [|v d]; [simpl in Hne; lia|].
    simpl in Hd. injection Hd as -> _. by inversion Hall. }
  destruct (prune_total Q_map grids og S_V (seq 0 (length (data Q0)))
              HwS Hs (data Q0) Hv) as [d Hd].
  pose proof Hd as Hd'. apply prune_unchanged in Hd'.
  - subst d. unfold solver_pass. rewrite Hd. cbn [bind].
    replace (NDArray (shape Q0) (data Q0)) with Q0 by (by destruct Q0).
    rewrite Hp. cbn [bind]. destruct fuel; simpl; by rewrite array_equal_refl.
  - intros s on out. apply is_outside_all_true; [done | | done].
    unfold well_shaped in HwS. lia.
Qed.

Lemma compute_QV_all_viable_witness :
  compute_QV 1 Toy.Q_map Toy.grids None None = Done (Toy.Q_N, Toy.S_N).
Proof.
  apply (compute_QV_all_viable Toy.Q_map Toy.grids None None Toy.S_N 1).
  - reflexivity.
  - reflexivity.
  - exact toy_valid_tables.
  - reflexivity.
  - repeat constructor.
  - simpl. lia.
  - lia.
Defined.

(** X9.  A viable pair whose entry of [Q_map] is not a valid flat index of
    the bin shape makes [compute_QV] raise as soon as a pass is run: it
    never reads [S_V] out of bounds and never returns a result. *)
Theorem compute_QV_bad_entry_raises (Q_map : ndarray Z) (grids : Grids)
    (seed Q_on_grid : option (ndarray bool)) (S_V : ndarray bool)
    (fuel q : nat) (s : Z) :
  project_Q2S (initial_Q_V Q_map seed) grids np_any = OK S_V ->
  array_equal S_V (zeros_like S_V) = false ->
  data (initial_Q_V Q_map seed) !! q = Some true ->
  data Q_map !! q = Some s ->
  ~ (0 <= s < Z.of_nat (prod (map (fun g => S (size g)) (states grids)))) ->
  (1 <= fuel)%nat ->
  exists e, compute_QV fuel Q_map grids seed Q_on_grid = Raised e.
Proof.
  intros Hp Hne Hq Hs Hbad Hfuel. unfold compute_QV. rewrite Hp.
  destruct fuel as [|fuel]; [lia|]. simpl. rewrite Hne.
  destruct (prune_raises Q_map grids
              (on_grid_or_zeros (initial_Q_V Q_map seed) Q_on_grid)
              S_V q s Hs Hbad
              (seq 0 (length (data (initial_Q_V Q_map seed))))
              (data (initial_Q_V Q_map seed))) as [e He]; [|done|].
  { apply elem_of_seq. apply lookup_lt_Some in Hq. lia. }
  unfold solver_pass. rewrite He. cbn [bind]. by eauto.
Qed.

Lemma compute_QV_bad_entry_raises_witness :
  exists e,
    compute_QV 1 (NDArray [3; 2]%nat [1; 0; 2; 1; 9; 2]) Toy.grids None None
    = Raised e.
Proof.
  apply (compute_QV_bad_entry_raises (NDArray [3; 2]%nat [1; 0; 2; 1; 9; 2])
           Toy.grids None None Toy.S_N 1 4%nat 9).
  - reflexivity.
  - reflexivity.
  - reflexivity.
  - reflexivity.
  - simpl. lia.
  - lia.
Defined.

(** * Further properties of the builders *)

Lemma ravel_from_bound (idx : list Z) :
  forall (shp : list nat) (acc k : Z),
  0 <= acc -> ravel_from acc idx shp = OK k ->
  acc * Z.of_nat (prod shp) <= k < (acc + 1) * Z.of_nat (prod shp).
Proof.
  induction idx as [|i idx IH]; intros [|n shp] acc k Hacc H; simpl in H;
    try discriminate.
  - injection H as <-. unfold prod. simpl. lia.
  - destruct (0 <=? i) eqn:E1; [|discriminate].
    destruct (i <? Z.of_nat n) eqn:E2; [|discriminate]. simpl in H.
    apply IH in H; [|nia]. rewrite prod_cons. nia.
Qed.

Lemma digitize_s_raveled_bound (s : list Q) (s_grid : list (list Q))
    (shp : list nat) (to_bin : bool) (r : s_index) (k : Z) :
  digitize_s s s_grid (Some shp) to_bin = OK r -> as_cell r = OK k ->
  0 <= k < Z.of_nat (prod shp).
Proof.
  unfold digitize_s. intros H Hk. inv_bind H. inv_bind H. injection H as <-.
  injection Hk as <-. apply ravel_from_bound in Ha0; lia.
Qed.

Lemma prod_map_S_pos (shp : list nat) : (1 <= prod (map S shp))%nat.
Proof.
  induction shp as [|n shp IH]; [unfold prod; simpl; lia|].
  change (1 <= S n * prod (map S shp))%nat. nia.
Qed.

Lemma blank_usable (grids : Grids) (check_grid : bool) (n : nat) :
  tables_usable grids check_grid n 0 (blank n).
Proof.
  unfold blank. repeat (split; [by simpl; rewrite length_replicate|]).
  split; simpl.
  - intros q s on Hs Hon. apply lookup_replicate in Hs, Hon.
    destruct Hs as [-> _], Hon as [-> _].
    pose proof (prod_map_S_pos (map size (states grids))) as Hp.
    rewrite map_map in Hp. lia.
  - intros q _ Hq. apply lookup_replicate in Hq. by destruct Hq.
Qed.

Lemma store_usable (grids : Grids) (check_grid : bool) (n idx : nat)
    (s_next : list Q) (failed : bool) (t t' : tables) :
  store grids check_grid idx s_next failed t = OK t' ->
  tables_usable grids check_grid n idx t ->
  tables_usable grids check_grid n (S idx) t'.
Proof.
  intros H (L1 & L2 & L3 & Hr & Hno).
  assert (Hbin : forall k, 
            0 <= k < Z.of_nat (prod (map S (map size (states grids)))) ->
            tables_usable grids check_grid n (S idx)
              (Tables (<[idx := k]> (Q_map_buf t)) (Q_F_buf t)
                      (Q_on_grid_buf t))).
  { intros k Hk. rewrite map_map in Hk.
    split; [by simpl; rewrite length_insert|]. repeat (split; [done|]).
    split; simpl.
    - intros q s on Hs Hon. destruct (decide (q = idx)) as [->|Hne].
      + rewrite list_lookup_insert_eq in Hs
          by (apply lookup_lt_Some in Hon; lia).
        injection Hs as <-. destruct on; [|done].
        exfalso. apply (Hno idx); [left; lia | done].
      + rewrite list_lookup_insert_ne in Hs by done. by eapply Hr.
    - intros q Hq. apply Hno. destruct Hq; [left; lia | by right]. }
  unfold store in H. destruct failed; simpl in H.
  - injection H as <-. split; [done|].
    split; [by simpl; rewrite length_insert|]. split; [done|].
    split; [done|]. simpl. intros q Hq. apply Hno.
    destruct Hq; [left; lia | by right].
  - destruct check_grid.
    + inv_bind H. destruct a.
      * inv_bind H. inv_bind H. injection H as <-.
        pose proof (digitize_s_raveled_bound _ _ _ _ _ _ Ha0 Ha1) as Hk.
        split; [by simpl; rewrite length_insert|]. split; [done|].
        split; [by simpl; rewrite length_insert|]. split; simpl.
        -- intros q s on Hs Hon. destruct (decide (q = idx)) as [->|Hne].
           ++ rewrite list_lookup_insert_eq in Hs
                by (apply lookup_lt_Some in Hs; rewrite length_insert in Hs;
                    done).
              rewrite list_lookup_insert_eq in Hon
                by (apply lookup_lt_Some in Hon; rewrite length_insert in Hon;
                    done).
              by injection Hs as <-; injection Hon as <-.
           ++ rewrite list_lookup_insert_ne in Hs by done.
              rewrite list_lookup_insert_ne in Hon by done.
              by eapply Hr.
        -- intros q [Hq|Hq]; [|done].
           rewrite list_lookup_insert_ne by lia. apply Hno. left. lia.
      * inv_bind H. inv_bind H. injection H as <-. apply Hbin.
        by eapply digitize_s_raveled_bound.
    + inv_bind H. inv_bind H. injection H as <-. apply Hbin.
      by eapply digitize_s_raveled_bound.
Qed.

Lemma fill_seq_usable {X P : Type} (p_map : PMap X P) (grids : Grids)
    (check_grid : bool) (n : nat) (SA : list (list Q)) :
  forall (idx : nat) (t t' : tables),
  fill_seq p_map grids check_grid idx SA t = OK t' ->
  tables_usable grids check_grid n idx t ->
  tables_usable grids check_grid n (idx + length SA) t'.
Proof.
  induction SA as [|sa rest IH]; intros idx t t' H Hinv; simpl in H.
  - injection H as <-. by rewrite Nat.add_0_r.
  - destruct (sa2xp p_map sa (p p_map)) as [x p0].
    destruct (call p_map x p0) as [x_next failed].
    inv_bind H. apply (store_usable _ _ n) in Ha; [|done].
    apply IH in H; [|done]. simpl.
    by replace (idx + S (length rest))%nat with (S idx + length rest)%nat by lia.
Qed.

Lemma total_gridpoints_prod (grids : Grids) (n : nat) :
  total_gridpoints grids = OK n ->
  n = prod (map size (states grids) ++ map size (actions grids)).
Proof.
  unfold total_gridpoints. rewrite prod_app.
  destruct (states grids), (actions grids); try discriminate.
  by intros [= <-].
Qed.

(** The tables returned by [compute_Q_map] have the grid shape and valid
    entries. *)
Lemma compute_Q_map_usable_aux {X P : Type} (p_map : PMap X P) (grids : Grids)
    (check_grid : bool) (Q_map : ndarray Z) (Q_F : ndarray bool)
    (og : option (ndarray bool)) :
  compute_Q_map p_map grids check_grid = OK (Q_map, Q_F, og) ->
  shape Q_map = map size (states grids) ++ map size (actions grids)
  /\ shape Q_F = shape Q_map
  /\ well_shaped Q_map /\ well_shaped Q_F
  /\ (forall g, og = Some g -> shape g = shape Q_map /\ well_shaped g)
  /\ (is_Some og <-> check_grid = true)
  /\ valid_tables Q_map (on_grid_or_zeros (astype_bool Q_map) og)
       (states grids) (length (data Q_map)).
Proof.
  unfold compute_Q_map. intros H. inv_bind H. rename a into n.
  inv_bind H. rename a into t.
  apply total_gridpoints_prod in Ha.
  apply (fill_seq_usable p_map grids check_grid n) in Ha0;
    [|apply blank_usable].
  destruct Ha0 as (L1 & L2 & L3 & Hr & Hno).
  unfold deliver in H. injection H as <- <- <-. simpl.
  unfold well_shaped. simpl. rewrite L1, L2.
  repeat (split; [done|]). split; [|split].
  - intros g Hg. destruct check_grid; [|done]. injection Hg as <-.
    simpl. by rewrite L3.
  - destruct check_grid; split; (done || by eauto || by intros []).
  - destruct check_grid; simpl.
    + by split.
    + split; [done|]. split.
      { unfold zeros. simpl. by rewrite length_replicate. }
      intros q s on Hs Hon. unfold zeros in Hon. simpl in Hon.
      apply lookup_replicate in Hon. destruct Hon as [-> Hq].
      destruct (lookup_lt_is_Some_2 (Q_on_grid_buf t) q) as [on Hon];
        [lia|].
      destruct on; [by destruct (Hno q (or_intror eq_refl))|].
      by apply (Hr q s false).
Qed.

(** X10.  The tables returned by [compute_Q_map] are ready for the
    solver: [Q_map], [Q_F] and, under [check_grid], [Q_on_grid] have the
    state shape followed by the action shape and one entry per grid point,
    a flag array is returned exactly under [check_grid], and every entry of
    [Q_map] is a valid flat index, of the grid shape where the pair is
    flagged on-grid and of the bin shape elsewhere. *)
Theorem compute_Q_map_usable {X P : Type} (p_map : PMap X P) (grids : Grids)
    (check_grid : bool) (Q_map : ndarray Z) (Q_F : ndarray bool)
    (og : option (ndarray bool)) :
  compute_Q_map p_map grids check_grid = OK (Q_map, Q_F, og) ->
  shape Q_map = map size (states grids) ++ map size (actions grids)
  /\ shape Q_F = shape Q_map
  /\ well_shaped Q_map /\ well_shaped Q_F
  /\ (forall g, og = Some g -> shape g = shape Q_map /\ well_shaped g)
  /\ (is_Some og <-> check_grid = true)
  /\ valid_tables Q_map (on_grid_or_zeros (astype_bool Q_map) og)
       (states grids) (length (data Q_map)).
Proof. apply compute_Q_map_usable_aux. Qed.

Lemma compute_Q_map_usable_witness :
  shape Toy.Q_map = map size (states Toy.grids) ++ map size (actions Toy.grids)
  /\ shape Toy.Q_F = shape Toy.Q_map
  /\ well_shaped Toy.Q_map /\ well_shaped Toy.Q_F
  /\ (forall g : ndarray bool,
        None = Some g -> shape g = shape Toy.Q_map /\ well_shaped g)
  /\ (is_Some (@None (ndarray bool)) <-> false = true)
  /\ valid_tables Toy.Q_map (on_grid_or_zeros (astype_bool Toy.Q_map) None)
       (states Toy.grids) (length (data Toy.Q_map)).
Proof.
  apply (compute_Q_map_usable (Toy.p_map 0) Toy.grids false
           Toy.Q_map Toy.Q_F None).
  reflexivity.
Defined.

(** On a viable set shaped like the grids and a usable table, as many
    passes as [Q_V] has entries are enough for a normal return. *)
Lemma compute_QV_done (Q_map : ndarray Z) (grids : Grids)
    (seed Q_on_grid : option (ndarray bool)) :
  well_shaped (initial_Q_V Q_map seed) ->
  shape (initial_Q_V Q_map seed)
    = map size (states grids) ++ map size (actions grids) ->
  valid_tables Q_map (on_grid_or_zeros (initial_Q_V Q_map seed) Q_on_grid)
    (states grids) (length (data (initial_Q_V Q_map seed))) ->
  exists Q_V S_V : ndarray bool,
    compute_QV (length (data (initial_Q_V Q_map seed)))
      Q_map grids seed Q_on_grid = Done (Q_V, S_V)
    /\ subset (data Q_V) (data (initial_Q_V Q_map seed)).
Proof.
  intros Hw Hshape Hv. unfold compute_QV.
  set (Q0 := initial_Q_V Q_map seed) in *.
  set (og := on_grid_or_zeros Q0 Q_on_grid) in *.
  destruct (project_Q2S_shaped grids Q0 Hshape) as (S0 & HS0 & Hs & HwS & _).
  rewrite HS0.
  assert (Hdone : exists Q_V S_V,
            QV_loop Q_map grids og (length (data Q0)) Q0 S0 (zeros_like S0)
            = Done (Q_V, S_V)).
  { destruct (array_equal S0 (zeros_like S0)) eqn:E.
    { destruct (length (data Q0)); simpl; rewrite E; eauto. }
    pose proof (viable_state_sizes grids Q0 S0 Hw Hshape HS0 E) as Hsz.
    destruct (length (data Q0)) as [|fuel] eqn:Hn; [lia|].
    simpl. rewrite E.
    assert (Hst : solver_state grids (S fuel) Q0 S0) by done.
    destruct (solver_pass_total Q_map grids og (S fuel) Q0 S0 Hv Hst)
      as (Q1 & S1 & Hpass & Hst1 & Hs1 & Hsub).
    rewrite Hpass.
    apply (QV_loop_done Q_map grids og (S fuel) fuel Hv); [done | done |].
    intros Hne. apply array_equal_false in Hne; [|done].
    pose proof (subset_count_lt _ _ Hsub Hne) as Hlt.
    pose proof (count_true_bound (data S0)) as Hb.
    destruct (decide (count_true (data S0) = length (data S0))) as [Hfull|];
      [|lia].
    exfalso. apply Hne. apply count_true_full in Hfull.
    unfold solver_pass in Hpass. inv_bind Hpass. inv_bind Hpass.
    injection Hpass as <- <-.
    apply prune_unchanged in Ha.
    - subst a. destruct Q0 as [shp d]. simpl in *. congruence.
    - intros s on out. apply is_outside_all_true; [done | | done].
      unfold well_shaped in HwS. lia. }
  destruct Hdone as (Q_V & S_V & Hdone). exists Q_V, S_V. split; [done|].
  by destruct (QV_loop_result _ _ _ _ _ _ _ _ _ HS0 Hdone) as (_ & Hsub & _).
Qed.

(** X11.  The builder and the solver compose: on the tables returned by
    [compute_Q_map], [compute_QV] raises nothing and returns within as many
    passes as there are grid points, both without a seed and seeded with
    [~Q_F] as the demos do; seeded with [~Q_F], the returned viable set
    holds no pair recorded as failed. *)
Theorem compute_QV_on_built_tables {X P : Type} (p_map : PMap X P)
    (grids : Grids) (check_grid : bool) (Q_map : ndarray Z)
    (Q_F : ndarray bool) (og : option (ndarray bool)) :
  compute_Q_map p_map grids check_grid = OK (Q_map, Q_F, og) ->
  (exists Q_V S_V,
     compute_QV (length (data Q_map)) Q_map grids None og = Done (Q_V, S_V))
  /\ (exists Q_V S_V,
        compute_QV (length (data Q_map)) Q_map grids (Some (invert Q_F)) og
        = Done (Q_V, S_V)
        /\ forall q, data Q_V !! q = Some true -> data Q_F !! q = Some false).
Proof.
  intros H. apply compute_Q_map_usable_aux in H.
  destruct H as (Hs & HsF & Hw & HwF & _ & _ & Hv).
  split.
  - destruct (compute_QV_done Q_map grids None og) as (Q_V & S_V & Hd & _).
    + unfold well_shaped in *. simpl. by rewrite length_map.
    + done.
    + simpl. by rewrite length_map.
    + simpl in Hd. rewrite length_map in Hd. eauto.
  - assert (Hlen : length (data Q_F) = length (data Q_map)).
    { unfold well_shaped in *. congruence. }
    destruct (compute_QV_done Q_map grids (Some (invert Q_F)) og)
      as (Q_V & S_V & Hd & Hsub).
    + unfold well_shaped, invert in *. simpl. rewrite length_map. congruence.
    + simpl. congruence.
    + simpl. rewrite length_map, Hlen.
      destruct og; [done|]. simpl in *. by rewrite HsF.
    + simpl in Hd, Hsub. rewrite length_map, Hlen in Hd.
      exists Q_V, S_V. split; [done|]. intros q Hq.
      apply (subset_lookup _ _ q Hsub) in Hq.
      rewrite list_lookup_fmap in Hq.
      destruct (data Q_F !! q) as [[|]|]; done.
Qed.

Lemma compute_QV_on_built_tables_witness :
  (exists Q_V S_V,
     compute_QV (length (data Toy.Q_map)) Toy.Q_map Toy.grids None None
     = Done (Q_V, S_V))
  /\ (exists Q_V S_V,
        compute_QV (length (data Toy.Q_map)) Toy.Q_map Toy.grids
          (Some (invert Toy.Q_F)) None = Done (Q_V, S_V)
        /\ forall q, data Q_V !! q = Some true ->
                     data Toy.Q_F !! q = Some false).
Proof.
  apply (compute_QV_on_built_tables (Toy.p_map 0) Toy.grids false
           Toy.Q_map Toy.Q_F None).
  reflexivity.
Defined.

(** ** Grid points and flat positions *)

Lemma flat_map_lookup_chunks {A B : Type} (f : A -> list B) (n : nat)
    (l : list A) :
  (forall x, length (f x) = n) ->
  forall (a b : nat) (x : A),
  l !! a = Some x -> (b < n)%nat ->
  flat_map f l !! (a * n + b)%nat = f x !! b.
Proof.
  intros Hf. induction l as [|y l IH]; intros a b x Ha Hb; [done|].
  simpl. destruct a as [|a]; simpl in Ha.
  - injection Ha as ->. simpl. apply lookup_app_l. by rewrite Hf.
  - rewrite lookup_app_r by (rewrite Hf; lia). rewrite Hf.
    replace (S a * n + b - n)%nat with (a * n + b)%nat by lia.
    by apply IH.
Qed.

Lemma flat_map_length_chunks {A B : Type} (f : A -> list B) (n : nat)
    (l : list A) :
  (forall x, length (f x) = n) -> length (flat_map f l) = (length l * n)%nat.
Proof.
  intros Hf. induction l as [|y l IH]; [done|].
  simpl. by rewrite length_app, Hf, IH.
Qed.

Lemma product_length_prod {A : Type} (ls : list (list A)) :
  length (product ls) = prod (map length ls).
Proof.
  induction ls as [|l rest IH]; [done|].
  cbn [product]. rewrite (flat_map_length_chunks _ (length (product rest))).
  - rewrite IH. done.
  - intros x. by rewrite length_map.
Qed.

Lemma product_lookup (ls : list (list Q)) :
  forall r : nat, (r < prod (map length ls))%nat ->
  exists row, product ls !! r = Some row
    /\ point_at ls (unravel (Z.of_nat r) (map length ls)) row.
Proof.
  induction ls as [|l rest IH]; intros r Hr.
  - unfold prod in Hr. simpl in Hr. assert (r = 0)%nat as -> by lia.
    exists []. split; [done|]. split; [done|]. intros d l Hd. done.
  - change (r < length l * prod (map length rest))%nat in Hr.
    set (Pn := prod (map length rest)) in *.
    assert (HP : (0 < Pn)%nat) by nia.
    assert (Ha : (r / Pn < length l)%nat)
      by (apply Nat.Div0.div_lt_upper_bound; lia).
    assert (Hb : (r mod Pn < Pn)%nat) by (apply Nat.mod_upper_bound; lia).
    destruct (lookup_lt_is_Some_2 l (r / Pn)) as [x Hx]; [done|].
    destruct (IH (r mod Pn)%nat Hb) as (row & Hrow & [Hlen Hpt]).
    exists (x :: row). split.
    + cbn [product].
      replace r with (r / Pn * Pn + r mod Pn)%nat at 1
        by (pose proof (Nat.div_mod_eq r Pn); lia).
      rewrite (flat_map_lookup_chunks _ Pn l) with (x := x); try done.
      * by rewrite list_lookup_fmap, Hrow.
      * intros y. by rewrite length_map, product_length_prod.
    + split; [by simpl; rewrite Hlen|].
      intros d l' Hd. cbn [map unravel]. fold Pn.
      destruct d as [|d]; simpl in Hd.
      * injection Hd as <-. exists (r / Pn)%nat, x.
        split; [|done]. simpl. f_equal. by rewrite Nat2Z.inj_div.
      * rewrite <- Nat2Z.inj_mod. by apply Hpt.
Qed.

Lemma point_at_unique (ls : list (list Q)) (idx : list Z) (sa sa' : list Q) :
  point_at ls idx sa -> point_at ls idx sa' -> sa = sa'.
Proof.
  intros [Hl Hp] [Hl' Hp']. apply list_eq. intros d.
  destruct (ls !! d) as [l|] eqn:Hd.
  - destruct (Hp d l Hd) as (k & x & Hk & Hx & ->).
    destruct (Hp' d l Hd) as (k' & x' & Hk' & Hx' & ->).
    rewrite Hk in Hk'. injection Hk' as Hk'. apply Nat2Z.inj in Hk'.
    subst k'. congruence.
  - apply lookup_ge_None in Hd.
    rewrite (proj2 (lookup_ge_None sa d)) by lia.
    by rewrite (proj2 (lookup_ge_None sa' d)) by lia.
Qed.

Lemma offset_from_ravel (idx : list Z) (shp : list nat) :
  in_range idx shp ->
  forall acc, offset_from acc idx shp = ravel_from acc idx shp.
Proof.
  induction 1 as [|i n idx shp Hi _ IH]; intros acc; [done|].
  cbn [offset_from ravel_from]. unfold norm_index.
  destruct (0 <=? i) eqn:E1; [|lia]. destruct (i <? Z.of_nat n) eqn:E2; [|lia].
  cbn [andb bind]. apply IH.
Qed.

(** Reading an array at a multi-index in range is reading its buffer at the
    flat position whose unraveling is that multi-index. *)
Lemma get_flat_position (shp : list nat) (idx : list Z) :
  in_range idx shp ->
  exists r : nat,
    (r < prod shp)%nat
    /\ unravel (Z.of_nat r) shp = idx
    /\ forall (A : Type) (a : ndarray A),
         shape a = shp -> get a idx = get_flat a r.
Proof.
  intros Hr. destruct (ravel_from_in_range _ _ Hr) as (k & Hk & Hun & Hrav).
  exists (Z.to_nat k). split; [lia|]. rewrite Z2Nat.id by lia.
  split; [done|]. intros A a <-. unfold get, get_flat.
  rewrite offset_from_ravel, Hrav by done. cbn [bind].
  by replace (0 * Z.of_nat (prod (shape a)) + k) with k by lia.
Qed.

(** ** Entries of the transition tables *)

Lemma as_cell_OK (r : s_index) (k : Z) : as_cell r = OK k -> r = Raveled k.
Proof. destruct r; simpl; [discriminate | by intros [= ->]]. Qed.

Lemma store_fresh (grids : Grids) (check_grid : bool) (n idx : nat)
    (s_next : list Q) (failed : bool) (t t' : tables) :
  store grids check_grid idx s_next failed t = OK t' ->
  fresh_from n idx t -> (idx < n)%nat ->
  fresh_from n (S idx) t'
  /\ (forall q, q <> idx ->
        Q_map_buf t' !! q = Q_map_buf t !! q
        /\ Q_F_buf t' !! q = Q_F_buf t !! q
        /\ Q_on_grid_buf t' !! q = Q_on_grid_buf t !! q)
  /\ exists m f o,
       Q_map_buf t' !! idx = Some m
       /\ Q_F_buf t' !! idx = Some f
       /\ Q_on_grid_buf t' !! idx = Some o
       /\ recorded grids check_grid s_next failed m f o.
Proof.
  intros H (L1 & L2 & L3 & Hfresh) Hidx.
  destruct (Hfresh idx ltac:(lia)) as (F1 & F2 & F3).
  assert (Hgen : forall m f o,
            t' = Tables (<[idx := m]> (Q_map_buf t))
                        (<[idx := f]> (Q_F_buf t))
                        (<[idx := o]> (Q_on_grid_buf t)) ->
            recorded grids check_grid s_next failed m f o ->
            fresh_from n (S idx) t'
            /\ (forall q, q <> idx ->
                  Q_map_buf t' !! q = Q_map_buf t !! q
                  /\ Q_F_buf t' !! q = Q_F_buf t !! q
                  /\ Q_on_grid_buf t' !! q = Q_on_grid_buf t !! q)
            /\ exists m f o,
                 Q_map_buf t' !! idx = Some m
                 /\ Q_F_buf t' !! idx = Some f
                 /\ Q_on_grid_buf t' !! idx = Some o
                 /\ recorded grids check_grid s_next failed m f o).
  { intros m f o -> Hrec. simpl. split; [|split].
    - unfold fresh_from. simpl. rewrite !length_insert.
      repeat (split; [done|]). intros q Hq.
      rewrite !list_lookup_insert_ne by lia. apply Hfresh. lia.
    - intros q Hq. by rewrite !list_lookup_insert_ne.
    - exists m, f, o. rewrite !list_lookup_insert_eq by lia. done. }
  assert (Hid : forall (A : Type) (l : list A) (v : A),
            l !! idx = Some v -> l = <[idx := v]> l).
  { intros A l v Hl. symmetry. by apply list_insert_id. }
  unfold store in H. destruct failed; simpl in H.
  - injection H as <-. apply (Hgen 0 true false).
    + by rewrite <- (Hid _ _ _ F1), <- (Hid _ _ _ F3).
    + by split.
  - destruct check_grid.
    + inv_bind H. destruct a.
      * inv_bind H. inv_bind H. injection H as <-.
        apply as_cell_OK in Ha1. subst a.
        apply (Hgen a0 false true).
        -- by rewrite <- (Hid _ _ _ F2).
        -- split; [done|]. by split.
      * inv_bind H. inv_bind H. injection H as <-.
        apply as_cell_OK in Ha1. subst a.
        apply (Hgen a0 false false).
        -- by rewrite <- (Hid _ _ _ F2), <- (Hid _ _ _ F3).
        -- split; [done|]. by split.
    + inv_bind H. inv_bind H. injection H as <-.
      apply as_cell_OK in Ha0. subst a.
      apply (Hgen a0 false false).
      * by rewrite <- (Hid _ _ _ F2), <- (Hid _ _ _ F3).
      * split; [done|]. by split.
Qed.

Lemma blank_fresh (n : nat) : fresh_from n 0 (blank n).
Proof.
  unfold blank, fresh_from. simpl. rewrite !length_replicate.
  repeat (split; [done|]). intros q Hq.
  by rewrite !lookup_replicate_2 by lia.
Qed.

Lemma fill_seq_entries {X P : Type} (p_map : PMap X P) (grids : Grids)
    (check_grid : bool) (n : nat) (SA : list (list Q)) :
  forall (idx : nat) (t t' : tables),
  fill_seq p_map grids check_grid idx SA t = OK t' ->
  fresh_from n idx t -> (idx + length SA <= n)%nat ->
  (forall q, (q < idx)%nat ->
     Q_map_buf t' !! q = Q_map_buf t !! q
     /\ Q_F_buf t' !! q = Q_F_buf t !! q
     /\ Q_on_grid_buf t' !! q = Q_on_grid_buf t !! q)
  /\ forall (j : nat) (sa : list Q), SA !! j = Some sa ->
     exists m f o,
       Q_map_buf t' !! (idx + j)%nat = Some m
       /\ Q_F_buf t' !! (idx + j)%nat = Some f
       /\ Q_on_grid_buf t' !! (idx + j)%nat = Some o
       /\ recorded grids check_grid (fst (step_of p_map sa))
            (snd (step_of p_map sa)) m f o.
Proof.
  induction SA as [|sa rest IH]; intros idx t t' H Hfresh Hlen; simpl in H.
  - injection H as <-. split; [done|]. intros j sa Hj. done.
  - simpl in Hlen.
    assert (Hstep : step_of p_map sa
                    = (let '(x, p0) := sa2xp p_map sa (p p_map) in
                       let '(x_next, failed) := call p_map x p0 in
                       (xp2s p_map x_next p0, failed))) by done.
    destruct (sa2xp p_map sa (p p_map)) as [x p0].
    destruct (call p_map x p0) as [x_next failed].
    inv_bind H.
    destruct (store_fresh _ _ n _ _ _ _ _ Ha Hfresh ltac:(lia))
      as (Hf1 & Hother & m & f & o & E1 & E2 & E3 & Hrec).
    destruct (IH (S idx) a t' H Hf1 ltac:(lia)) as [Hkeep Hent].
    split.
    + intros q Hq. destruct (Hkeep q ltac:(lia)) as (K1 & K2 & K3).
      destruct (Hother q ltac:(lia)) as (O1 & O2 & O3).
      rewrite K1, K2, K3. done.
    + intros [|j] sa' Hj; simpl in Hj.
      * injection Hj as <-. rewrite Nat.add_0_r.
        destruct (Hkeep idx ltac:(lia)) as (K1 & K2 & K3).
        exists m, f, o. rewrite K1, K2, K3, Hstep. done.
      * replace (idx + S j)%nat with (S idx + j)%nat by lia. by apply Hent.
Qed.

(** X12.  Every entry of the tables returned by [compute_Q_map] belongs to
    the grid point of its multi-index: at index [(i_1, ..., i_D)] the tables
    hold what was recorded for the point whose coordinates are the
    [i_d]-th entries of the state and action grids, in their declared
    order.  [Q_F] holds the failure flag of its step; a failed point keeps 0
    in [Q_map]; otherwise [Q_map] holds the raveled bin of the decoded
    successor, or, under [check_grid] when every coordinate is a grid
    point, its raveled node with the flag of [Q_on_grid] set. *)
Theorem compute_Q_map_entries {X P : Type} (p_map : PMap X P) (grids : Grids)
    (check_grid : bool) (Q_map : ndarray Z) (Q_F : ndarray bool)
    (og : option (ndarray bool)) (idx : list Z) (sa : list Q) :
  compute_Q_map p_map grids check_grid = OK (Q_map, Q_F, og) ->
  in_range idx (shape Q_map) ->
  point_at (states grids ++ actions grids) idx sa ->
  exists m f o,
    get Q_map idx = OK m
    /\ get Q_F idx = OK f
    /\ (forall g, og = Some g -> get g idx = OK o)
    /\ recorded grids check_grid (fst (step_of p_map sa))
         (snd (step_of p_map sa)) m f o.
Proof.
  unfold compute_Q_map. intros H Hr Hpt. inv_bind H. rename a into n.
  inv_bind H. rename a into t. apply total_gridpoints_prod in Ha.
  unfold deliver in H. injection H as <- <- <-. simpl in Hr.
  set (shp := map size (states grids) ++ map size (actions grids)) in *.
  assert (Hshp : shp = map length (states grids ++ actions grids))
    by (unfold shp; by rewrite map_app).
  destruct (get_flat_position shp idx Hr) as (r & Hlt & Hun & Hget).
  destruct (product_lookup (states grids ++ actions grids) r)
    as (row & Hrow & Hprow); [by rewrite <- Hshp|].
  rewrite <- Hshp, Hun in Hprow.
  rewrite (point_at_unique _ _ _ _ Hprow Hpt) in Hrow.
  destruct (fill_seq_entries p_map grids check_grid n _ _ _ _ Ha0
              (blank_fresh n)) as [_ Hent].
  { rewrite product_length_prod, <- Hshp. simpl. lia. }
  destruct (Hent r sa Hrow) as (m & f & o & E1 & E2 & E3 & Hrec).
  simpl in E1, E2, E3. exists m, f, o.
  rewrite !Hget by done. unfold get_flat. simpl. rewrite E1, E2.
  repeat (split; [done|]). split; [|done].
  intros g Hg. destruct check_grid; [|done]. injection Hg as <-.
  rewrite Hget by done. unfold get_flat. simpl. by rewrite E3.
Qed.

Lemma compute_Q_map_entries_witness :
  exists m f o,
    get Toy.Q_map [1; 1] = OK m
    /\ get Toy.Q_F [1; 1] = OK f
    /\ (forall g : ndarray bool, None = Some g -> get g [1; 1] = OK o)
    /\ recorded Toy.grids false (fst (step_of (Toy.p_map 0) [1; 1]%Q))
         (snd (step_of (Toy.p_map 0) [1; 1]%Q)) m f o.
Proof.
  apply (compute_Q_map_entries (Toy.p_map 0) Toy.grids false
           Toy.Q_map Toy.Q_F None [1; 1] [1; 1]%Q eq_refl).
  - repeat (apply Forall2_cons; split; [simpl; lia|]). constructor.
  - split; [reflexivity|]. intros [|[|d]] l Hd; simpl in Hd; try done.
    + injection Hd as <-. by exists 1%nat, 1%Q.
    + injection Hd as <-. by exists 1%nat, 1%Q.
Defined.

(** X13.  When decoding a result with the default parameters gives the same
    state as decoding it with the parameters the encoder returned for the
    pair, [parcompute_Q_map] and [compute_Q_map] return the same tables (or
    raise the same exception). *)
Theorem parcompute_Q_map_same_tables {X P : Type} (p_map : PMap X P)
    (grids : Grids) (check_grid : bool) :
  (forall sa x,
     xp2s p_map x (snd (sa2xp p_map sa (p p_map))) = xp2s p_map x (p p_map)) ->
  parcompute_Q_map p_map grids check_grid = compute_Q_map p_map grids check_grid.
Proof. apply parcompute_Q_map_agrees. Qed.

Lemma parcompute_Q_map_same_tables_witness :
  parcompute_Q_map (Toy.p_map 0) Toy.grids true
  = compute_Q_map (Toy.p_map 0) Toy.grids true.
Proof.
  apply (parcompute_Q_map_same_tables (Toy.p_map 0) Toy.grids true).
  reflexivity.
Defined.

(** * Further properties of the remaining tools *)

Lemma count_le_next (g : list Q) (v : Q) :
  increasing g -> (count_le g v < length g)%nat ->
  exists c, g !! count_le g v = Some c
    /\ (v < c)%Q
    /\ forall x, x ∈ g -> (v < x)%Q -> (c <= x)%Q.
Proof.
  induction 1 as [|b t Hs IH Hall]; intros Hlt; [simpl in Hlt; lia|].
  simpl in *. destruct (Qle_bool b v) eqn:E.
  - destruct IH as (c & Hc & Hvc & Hmin); [lia|].
    exists c. split; [done|]. split; [done|].
    intros x Hx Hvx. apply elem_of_cons in Hx. destruct Hx as [->|Hx].
    + apply Qle_bool_iff in E. exfalso. by eapply Qlt_not_le.
    + by apply Hmin.
  - assert (Hvb : (v < b)%Q).
    { apply Qnot_le_lt. intros Hle. apply Qle_bool_iff in Hle. congruence. }
    rewrite count_le_all_above.
    + exists b. split; [done|]. split; [done|].
      intros x Hx _. apply elem_of_cons in Hx. destruct Hx as [->|Hx].
      * apply Qle_refl.
      * apply Qlt_le_weak. by apply (proj1 (Forall_forall _ _) Hall).
    + eapply Forall_impl; [exact Hall|]. intros x Hx. simpl in Hx.
      by eapply Qlt_trans.
Qed.

Lemma item_wrap_in_range {A : Type} (grid : list A) (k : nat) :
  (k < length grid)%nat -> item_wrap grid (Z.of_nat k) = item grid k.
Proof.
  intros Hk. unfold item_wrap, norm_index.
  destruct (0 <=? Z.of_nat k) eqn:E1; [|lia].
  destruct (Z.of_nat k <? Z.of_nat (length grid)) eqn:E2; [|lia].
  cbn [andb bind]. by rewrite Nat2Z.id.
Qed.

Lemma get_state_dims_digitized (s : list Q) (s_grid : list (list Q)) :
  Forall increasing s_grid ->
  Forall (fun g => (1 <= size g)%nat) s_grid ->
  forall (pre bins : list Z),
  digitize_dims true s (length pre) s_grid = OK bins ->
  exists st, get_state_dims (pre ++ bins) (length pre) s_grid = OK st
    /\ forall (d : nat) (grid : list Q) (v : Q),
       s_grid !! d = Some grid -> s !! (length pre + d)%nat = Some v ->
       exists c, st !! d = Some c
         /\ (((v < c)%Q /\ c ∈ grid
              /\ forall x, x ∈ grid -> (v < x)%Q -> (c <= x)%Q)
             \/ (last grid = Some c /\ (c <= v)%Q)).
Proof.
  induction 1 as [|g rest Hg _ IH]; intros Hpos pre bins H.
  - simpl. exists []. split; [done|]. intros d grid v Hd. done.
  - inversion Hpos as [|? ? Hg1 Hrest]; subst. simpl in H.
    inv_bind H. rename a into v0.
    rewrite (digitize_increasing v0 g Hg) in H. cbn [bind] in H.
    inv_bind H. rename a into tl. injection H as <-.
    unfold item in Ha. destruct (s !! length pre) as [v'|] eqn:Hv;
      [|discriminate]. injection Ha as ->.
    specialize (IH Hrest (pre ++ [Z.of_nat (count_le g v0)]) tl).
    rewrite length_app in IH. simpl in IH.
    rewrite Nat.add_1_r in IH. destruct (IH Ha0) as (st & Hst & Hspec).
    rewrite <- app_assoc in Hst. simpl in Hst.
    cbn [get_state_dims]. unfold item at 1.
    rewrite lookup_app_r by lia. rewrite Nat.sub_diag. cbn [lookup bind].
    simpl. unfold size in *.
    pose proof (count_le_bound g v0) as Hb.
    assert (Hc : exists c,
              (if Z.of_nat (length g) <=? Z.of_nat (count_le g v0)
               then item_wrap g (Z.of_nat (length g) - 1)
               else item_wrap g (Z.of_nat (count_le g v0))) = OK c
              /\ (((v0 < c)%Q /\ c ∈ g
                   /\ forall x, x ∈ g -> (v0 < x)%Q -> (c <= x)%Q)
                  \/ (last g = Some c /\ (c <= v0)%Q))).
    { destruct (Z.of_nat (length g) <=? Z.of_nat (count_le g v0)) eqn:E.
      - assert (Hfull : count_le g v0 = length g) by lia.
        destruct (last g) as [c|] eqn:Hl.
        + exists c. split.
          * replace (Z.of_nat (length g) - 1)
              with (Z.of_nat (pred (length g))) by lia.
            rewrite item_wrap_in_range by lia. unfold item.
            by rewrite <- last_lookup, Hl.
          * right. split; [done|]. by apply (count_le_last g c v0 Hg Hl).
        + apply last_None in Hl. subst g. simpl in Hg1. lia.
      - destruct (count_le_next g v0 Hg) as (c & Hc & Hvc & Hmin); [lia|].
        exists c. rewrite item_wrap_in_range by lia. unfold item.
        rewrite Hc. split; [done|]. left. split; [done|].
        split; [by eapply list_elem_of_lookup_2 | done]. }
    destruct Hc as (c & -> & Hcspec). cbn [bind]. rewrite Hst. cbn [bind].
    exists (c :: st). split; [done|].
    intros d grid v Hd Hsv. destruct d as [|d]; simpl in Hd.
    + injection Hd as <-. rewrite Nat.add_0_r, Hv in Hsv.
      injection Hsv as <-. by exists c.
    + apply (Hspec d grid v Hd). rewrite <- Hsv. f_equal. lia.
Qed.

(** X14.  [get_state_from_ravel] applied to the bins of [digitize_s], on
    non-empty strictly increasing grids, raises nothing and returns in every
    dimension the smallest grid point strictly above the coordinate, or the
    last grid point when the coordinate is at or above it. *)
Theorem get_state_from_ravel_digitized (s : list Q) (s_grid : list (list Q))
    (bins : list Z) :
  Forall increasing s_grid ->
  Forall (fun g => (1 <= size g)%nat) s_grid ->
  digitize_s s s_grid None true = OK (Unraveled bins) ->
  exists st, get_state_from_ravel bins s_grid = OK st
    /\ forall (d : nat) (grid : list Q) (v : Q),
       s_grid !! d = Some grid -> s !! d = Some v ->
       exists c, st !! d = Some c
         /\ (((v < c)%Q /\ c ∈ grid
              /\ forall x, x ∈ grid -> (v < x)%Q -> (c <= x)%Q)
             \/ (last grid = Some c /\ (c <= v)%Q)).
Proof.
  intros Hs Hpos H. unfold digitize_s in H. inv_bind H. injection H as ->.
  exact (get_state_dims_digitized s s_grid Hs Hpos [] bins Ha).
Qed.

Lemma get_state_from_ravel_digitized_witness :
  exists st, get_state_from_ravel [1] [Toy.g3] = OK st
    /\ forall (d : nat) (grid : list Q) (v : Q),
       [Toy.g3] !! d = Some grid -> [1 # 2]%Q !! d = Some v ->
       exists c, st !! d = Some c
         /\ (((v < c)%Q /\ c ∈ grid
              /\ forall x, x ∈ grid -> (v < x)%Q -> (c <= x)%Q)
             \/ (last grid = Some c /\ (c <= v)%Q)).
Proof.
  apply (get_state_from_ravel_digitized [1 # 2]%Q [Toy.g3] [1]).
  - repeat constructor.
  - repeat constructor.
  - reflexivity.
Defined.

Section FeasibilityFacts.

Context {X P : Type}.
Variable feasible : X -> P -> bool.
Variable encode : list Q -> P -> X * P.

Lemma fill_feasible_spec (p0 : P) (SA : list (list Q)) :
  forall (idx : nat) (buf : list bool),
  (idx + length SA <= length buf)%nat ->
  length (fill_feasible feasible encode p0 idx SA buf) = length buf
  /\ (forall q, (q < idx)%nat ->
        fill_feasible feasible encode p0 idx SA buf !! q = buf !! q)
  /\ (forall (j : nat) (sa : list Q), SA !! j = Some sa ->
        fill_feasible feasible encode p0 idx SA buf !! (idx + j)%nat
        = Some (feasible (fst (encode sa p0)) (snd (encode sa p0)))).
Proof.
  induction SA as [|sa rest IH]; intros idx buf Hlen; simpl in *.
  - split; [done|]. split; [done|]. intros j sa Hj. done.
  - destruct (encode sa p0) as [x p1] eqn:E.
    destruct (IH (S idx) (<[idx := feasible x p1]> buf)) as (H1 & H2 & H3).
    { rewrite length_insert. lia. }
    rewrite length_insert in H1. split; [done|]. split.
    + intros q Hq. rewrite H2 by lia. by rewrite list_lookup_insert_ne by lia.
    + intros [|j] sa' Hj; simpl in Hj.
      * injection Hj as <-. rewrite Nat.add_0_r, H2 by lia.
        rewrite list_lookup_insert_eq by lia. by rewrite E.
      * replace (idx + S j)%nat with (S idx + j)%nat by lia. by apply H3.
Qed.

(** X15.  With at least one state grid and one action grid,
    [get_feasibility_mask] returns an array of the state shape followed by
    the action shape whose entry at every multi-index is the predicate
    applied to the encoding of the grid point with that multi-index (so a
    predicate that is always false gives an all-false mask); with an empty
    tuple of state or action grids it raises a type error. *)
Theorem get_feasibility_mask_entries (grids : Grids) (x0 : X) (p0 : P) :
  (states grids <> [] -> actions grids <> [] ->
   exists mask,
     get_feasibility_mask feasible encode grids x0 p0 = OK mask
     /\ shape mask = map size (states grids) ++ map size (actions grids)
     /\ well_shaped mask
     /\ forall (idx : list Z) (sa : list Q),
          in_range idx (shape mask) ->
          point_at (states grids ++ actions grids) idx sa ->
          get mask idx
          = OK (feasible (fst (encode sa p0)) (snd (encode sa p0))))
  /\ (states grids = [] \/ actions grids = [] ->
      get_feasibility_mask feasible encode grids x0 p0 = Raise TypeError).
Proof.
  unfold get_feasibility_mask. split.
  - intros Hs Ha.
    destruct (total_gridpoints grids) as [n|e] eqn:E.
    2:{ unfold total_gridpoints in E.
        by destruct (states grids), (actions grids). }
    apply total_gridpoints_prod in E. cbn [bind].
    set (shp := map size (states grids) ++ map size (actions grids)) in *.
    assert (Hshp : shp = map length (states grids ++ actions grids))
      by (unfold shp; by rewrite map_app).
    destruct (fill_feasible_spec p0 (product (states grids ++ actions grids))
                0%nat (replicate n false)) as (H1 & _ & H3).
    { rewrite length_replicate, product_length_prod, <- Hshp. simpl. lia. }
    eexists. split; [reflexivity|]. split; [done|]. split.
    + unfold well_shaped. simpl. by rewrite H1, length_replicate.
    + simpl. intros idx sa Hr Hpt.
      destruct (get_flat_position shp idx Hr) as (r & Hlt & Hun & Hget).
      destruct (product_lookup (states grids ++ actions grids) r)
        as (row & Hrow & Hprow); [by rewrite <- Hshp|].
      rewrite <- Hshp, Hun in Hprow.
      rewrite (point_at_unique _ _ _ _ Hprow Hpt) in Hrow.
      rewrite Hget by done. unfold get_flat. simpl.
      pose proof (H3 r sa Hrow) as H3'. simpl in H3'. by rewrite H3'.
  - intros H. unfold total_gridpoints.
    destruct H as [-> | ->]; [done|]. by destruct (states grids).
Qed.

End FeasibilityFacts.

Lemma get_feasibility_mask_entries_witness :
  exists mask,
    get_feasibility_mask (fun (_ _ : Q) => false) (sa2xp (Toy.p_map 0))
      Toy.grids 0%Q 0%Q = OK mask
    /\ shape mask
       = map size (states Toy.grids) ++ map size (actions Toy.grids)
    /\ well_shaped mask
    /\ forall (idx : list Z) (sa : list Q),
         in_range idx (shape mask) ->
         point_at (states Toy.grids ++ actions Toy.grids) idx sa ->
         get mask idx = OK false.
Proof.
  apply (proj1 (get_feasibility_mask_entries (fun (_ _ : Q) => false)
                  (sa2xp (Toy.p_map 0)) Toy.grids 0%Q 0%Q)).
  - discriminate.
  - discriminate.
Defined.

(** ** The mean projection *)

Lemma np_any_count (l : list bool) :
  np_any l = true <-> (0 < count_true l)%nat.
Proof.
  unfold np_any. induction l as [|[|] l IH]; simpl.
  - split; [done | lia].
  - split; [lia | done].
  - rewrite IH. done.
Qed.

Lemma np_mean_spec (l : list bool) :
  l <> [] ->
  (np_any l = true <-> (0 < np_mean l)%Q)
  /\ (0 <= np_mean l)%Q /\ (np_mean l <= 1)%Q.
Proof.
  intros Hne. unfold np_mean.
  pose proof (count_true_bound l) as Hb.
  assert (Hn : (0 < length l)%nat) by (destruct l; [done | simpl; lia]).
  assert (Hq : (0 < inject_Z (Z.of_nat (length l)))%Q).
  { change 0%Q with (inject_Z 0). rewrite <- Zlt_Qlt. lia. }
  assert (Hc : (0 <= inject_Z (Z.of_nat (count_true l)))%Q).
  { change 0%Q with (inject_Z 0). rewrite <- Zle_Qle. lia. }
  split; [|split].
  - rewrite np_any_count. split.
    + intros Hpos. apply Qlt_shift_div_l; [done|]. rewrite Qmult_0_l.
      change 0%Q with (inject_Z 0). rewrite <- Zlt_Qlt. lia.
    + intros Hm. destruct (count_true l) as [|c]; [|lia].
      exfalso. unfold Qdiv in Hm. simpl inject_Z in Hm.
      rewrite Qmult_0_l in Hm. by apply Qlt_irrefl in Hm.
  - apply Qle_shift_div_l; [done|]. by rewrite Qmult_0_l.
  - apply Qle_shift_div_r; [done|]. rewrite Qmult_1_l.
    rewrite <- Zle_Qle. lia.
Qed.

(** X16.  On a viable set shaped like the grids, with at least one action
    per state, projecting with [np.mean] gives a measure of the shape of
    [S_V] that lies between 0 and 1 and is positive exactly at the viable
    states. *)
Theorem project_Q2S_mean_positive (grids : Grids) (Q_V : ndarray bool) :
  well_shaped Q_V ->
  shape Q_V = map size (states grids) ++ map size (actions grids) ->
  (1 <= prod (map size (actions grids)))%nat ->
  exists (S_V : ndarray bool) (S_M : ndarray Q),
    project_Q2S Q_V grids np_any = OK S_V
    /\ project_Q2S Q_V grids np_mean = OK S_M
    /\ shape S_M = shape S_V
    /\ length (data S_M) = length (data S_V)
    /\ forall (i : nat) (v : bool) (m : Q),
         data S_V !! i = Some v -> data S_M !! i = Some m ->
         (v = true <-> (0 < m)%Q) /\ (0 <= m)%Q /\ (m <= 1)%Q.
Proof.
  intros Hw Hshape Hblock. unfold project_Q2S. rewrite Hshape.
  rewrite length_app, !length_map.
  destruct (length (states grids) + length (actions grids)
            <? length (actions grids))%nat eqn:E.
  { apply Nat.ltb_lt in E. lia. }
  replace (length (states grids) + length (actions grids)
           - length (actions grids))%nat
    with (length (map size (states grids))) by (rewrite length_map; lia).
  rewrite take_app_length, drop_app_length.
  set (block := prod (map size (actions grids))) in *.
  set (nS := prod (map size (states grids))).
  eexists _, _. split; [reflexivity|]. split; [reflexivity|]. simpl.
  split; [done|]. split; [by rewrite !length_map|].
  intros i v m Hv Hm. rewrite list_lookup_fmap in Hv.
  rewrite list_lookup_fmap in Hm.
  destruct (seq 0 nS !! i) as [k|] eqn:Hk; [|done].
  simpl in Hv, Hm. injection Hv as <-. injection Hm as <-.
  apply lookup_seq in Hk. destruct Hk as [-> Hi]. simpl.
  apply np_mean_spec. intros Hnil.
  apply (f_equal length) in Hnil. rewrite length_take, length_drop in Hnil.
  unfold well_shaped in Hw. rewrite Hw, Hshape, prod_app in Hnil.
  fold block nS in Hnil. simpl in Hnil. nia.
Qed.

Lemma project_Q2S_mean_positive_witness :
  exists (S_V : ndarray bool) (S_M : ndarray Q),
    project_Q2S Toy.Q_V Toy.grids np_any = OK S_V
    /\ project_Q2S Toy.Q_V Toy.grids np_mean = OK S_M
    /\ shape S_M = shape S_V
    /\ length (data S_M) = length (data S_V)
    /\ forall (i : nat) (v : bool) (m : Q),
         data S_V !! i = Some v -> data S_M !! i = Some m ->
         (v = true <-> (0 < m)%Q) /\ (0 <= m)%Q /\ (m <= 1)%Q.
Proof.
  apply (project_Q2S_mean_positive Toy.grids Toy.Q_V).
  - reflexivity.
  - reflexivity.
  - simpl. lia.
Defined.

(** ** The back-mapper on built tables *)

(** X17.  On the tables returned by [compute_Q_map], with the flags it
    returned, a measure shaped like the state grid and a viable set with one
    entry per grid point, [map_S2Q] raises nothing: it never reads [S_M] out
    of bounds, and returns an array of the shape of [Q_map]. *)
Theorem map_S2Q_on_built_tables {X P : Type} (p_map : PMap X P)
    (grids : Grids) (check_grid : bool) (Q_map : ndarray Z)
    (Q_F : ndarray bool) (og : option (ndarray bool))
    (S_M : ndarray Q) (Q_V : ndarray bool) :
  compute_Q_map p_map grids check_grid = OK (Q_map, Q_F, og) ->
  well_shaped S_M ->
  shape S_M = map size (states grids) ->
  length (data Q_V) = length (data Q_map) ->
  exists Q_M,
    map_S2Q Q_map S_M (states grids) (Some Q_V) og = OK Q_M
    /\ shape Q_M = shape Q_map
    /\ well_shaped Q_M.
Proof.
  intros H HwM HsM Hlen. apply compute_Q_map_usable_aux in H.
  destruct H as (Hs & _ & Hw & _ & _ & _ & Hv).
  assert (Htot : exists Q_M,
            map_S2Q Q_map S_M (states grids) (Some Q_V) og = OK Q_M).
  { destruct og as [g|].
    - apply map_S2Q_total; [done | done|]. by rewrite Hlen.
    - change (map_S2Q Q_map S_M (states grids) (Some Q_V) None)
        with (map_S2Q Q_map S_M (states grids) (Some Q_V)
                (Some (zeros_like Q_map))).
      apply map_S2Q_total; [done | done|]. rewrite Hlen.
      replace (zeros_like Q_map) with (zeros (shape Q_map)); [done|].
      unfold zeros, zeros_like. by rewrite Hw. }
  destruct Htot as [Q_M HQ]. exists Q_M. split; [done|].
  unfold map_S2Q in HQ. inv_bind HQ. injection HQ as <-. simpl.
  split; [done|]. unfold well_shaped. simpl.
  apply fill_measure_length in Ha. by rewrite Ha, length_replicate.
Qed.

Lemma map_S2Q_on_built_tables_witness :
  exists Q_M,
    map_S2Q Toy.Q_map Toy.S_M (states Toy.grids) (Some Toy.Q_V) None = OK Q_M
    /\ shape Q_M = shape Toy.Q_map
    /\ well_shaped Q_M.
Proof.
  apply (map_S2Q_on_built_tables (Toy.p_map 0) Toy.grids false
           Toy.Q_map Toy.Q_F None Toy.S_M Toy.Q_V).
  - reflexivity.
  - reflexivity.
  - reflexivity.
  - reflexivity.
Defined.

(** * Further properties of digitization *)

Lemma count_le_mono (g : list Q) (v w : Q) :
  (v <= w)%Q -> (count_le g v <= count_le g w)%nat.
Proof.
  intros Hvw. induction g as [|b t IH]; simpl; [lia|].
  destruct (Qle_bool b v) eqn:E; [|destruct (Qle_bool b w); lia].
  apply Qle_bool_iff in E.
  assert (Hw : Qle_bool b w = true)
    by (apply Qle_bool_iff; by eapply Qle_trans).
  rewrite Hw. lia.
Qed.

Lemma digitize_dims_length (to_bin : bool) (s : list Q)
    (s_grid : list (list Q)) :
  forall (d0 : nat) (s_idx : list Z),
  digitize_dims to_bin s d0 s_grid = OK s_idx ->
  length s_idx = length s_grid.
Proof.
  induction s_grid as [|g rest IH]; intros d0 s_idx H; simpl in H.
  - by injection H as <-.
  - inv_bind H. inv_bind H. inv_bind H. injection H as <-.
    simpl. f_equal. by eapply IH.
Qed.

(** X18.  On strictly increasing grids the bins of [digitize_s] are
    monotone: a point that is coordinate-wise at or above another one gets,
    in every dimension, a bin at or above the other's. *)
Theorem digitize_s_monotone (s s' : list Q) (s_grid : list (list Q))
    (bins bins' : list Z) :
  Forall increasing s_grid ->
  digitize_s s s_grid None true = OK (Unraveled bins) ->
  digitize_s s' s_grid None true = OK (Unraveled bins') ->
  (forall d v v', s !! d = Some v -> s' !! d = Some v' -> (v <= v')%Q) ->
  Forall2 Z.le bins bins'.
Proof.
  intros Hs H H' Hle. unfold digitize_s in H, H'.
  inv_bind H. injection H as ->. inv_bind H'. injection H' as ->.
  apply Forall2_same_length_lookup_2.
  - rewrite (digitize_dims_length _ _ _ _ _ Ha).
    by rewrite (digitize_dims_length _ _ _ _ _ Ha0).
  - intros d i i' Hi Hi'.
    destruct (lookup_lt_is_Some_2 s_grid d) as [grid Hd].
    { rewrite <- (digitize_dims_length _ _ _ _ _ Ha).
      by eapply lookup_lt_Some. }
    destruct (digitize_dims_bins s s_grid Hs 0%nat bins Ha d grid Hd)
      as (v & Hv & Hb).
    destruct (digitize_dims_bins s' s_grid Hs 0%nat bins' Ha0 d grid Hd)
      as (v' & Hv' & Hb').
    simpl in Hv, Hv'. rewrite Hi in Hb. rewrite Hi' in Hb'.
    injection Hb as ->. injection Hb' as ->.
    pose proof (count_le_mono grid v v' (Hle d v v' Hv Hv')). lia.
Qed.

Lemma digitize_s_monotone_witness : Forall2 Z.le [1] [2].
Proof.
  apply (digitize_s_monotone [1 # 2]%Q [3 # 2]%Q [Toy.g3] [1] [2]).
  - repeat constructor.
  - reflexivity.
  - reflexivity.
  - intros [|d] v v' Hv Hv'; [|done].
    injection Hv as <-. injection Hv' as <-. by vm_compute.
Defined.

(** * When the builder raises nothing *)

Lemma digitize_s_bin_total (s : list Q) (s_grid : list (list Q)) :
  Forall increasing s_grid ->
  (length s_grid <= length s)%nat ->
  exists k,
    digitize_s s s_grid (Some (map S (map size s_grid))) true
    = OK (Raveled k).
Proof.
  intros Hs Hlen.
  destruct (digitize_dims_long s s_grid Hs 0%nat) as (bins & Hb & _ & _);
    [simpl; lia|].
  pose proof (digitize_dims_in_range s s_grid Hs 0%nat bins Hb) as Hr.
  rewrite <- map_map in Hr.
  destruct (ravel_from_in_range _ _ Hr) as (k & Hk & Hun & Hrav).
  unfold digitize_s. rewrite Hb. cbn [bind].
  unfold ravel_multi_index. rewrite Hrav. cbn [bind]. by eexists.
Qed.

Lemma all_on_grid_total (s_next : list Q) :
  forall s_grid : list (list Q),
  length s_next = length s_grid ->
  exists on, all_on_grid s_next s_grid = OK on
    /\ (on = true -> Forall (fun g => g <> []) s_grid).
Proof.
  induction s_next as [|v rest IH]; intros [|g gs] Hlen; try discriminate.
  - exists true. split; [done|]. constructor.
  - simpl. destruct (isin v g) eqn:E; simpl.
    + destruct (IH gs) as (on & -> & Hon); [by injection Hlen|].
      exists on. split; [done|]. intros ->. constructor; [|by apply Hon].
      intros ->. discriminate.
    + exists false. split; [done|]. discriminate.
Qed.

Lemma digitize_dims_nearest_total (s : list Q) (s_grid : list (list Q)) :
  Forall (fun g => g <> []) s_grid ->
  forall d0 : nat, (d0 + length s_grid <= length s)%nat ->
  exists idx, digitize_dims false s d0 s_grid = OK idx
    /\ in_range idx (map size s_grid).
Proof.
  induction 1 as [|g rest Hg _ IH]; intros d0 Hlen;
    cbn [digitize_dims length map] in *.
  - exists []. split; [done|]. constructor.
  - destruct (IH (S d0)) as (tl & Htl & Hr); [lia|].
    destruct (lookup_lt_is_Some_2 s d0) as [v Hv]; [lia|].
    unfold item. rewrite Hv. cbn [bind].
    destruct (argmin (map (fun g0 => Qabs (g0 - v)) g)) as [r|e] eqn:E.
    2:{ destruct g; [done | discriminate]. }
    destruct (argmin_spec _ _ E) as (i & m & -> & Hi & _).
    cbn [bind]. rewrite Htl. cbn [bind].
    exists (Z.of_nat i :: tl). split; [done|].
    apply Forall2_cons. split; [|done].
    apply lookup_lt_Some in Hi. rewrite length_map in Hi. unfold size. lia.
Qed.

Lemma store_total (grids : Grids) (check_grid : bool) (idx : nat)
    (s_next : list Q) (failed : bool) (t : tables) :
  Forall increasing (states grids) ->
  (failed = false -> length s_next = length (states grids)) ->
  exists t', store grids check_grid idx s_next failed t = OK t'.
Proof.
  intros Hs Hlen. unfold store. destruct failed; simpl; [by eexists|].
  specialize (Hlen eq_refl).
  destruct (digitize_s_bin_total s_next (states grids) Hs) as [k Hk]; [lia|].
  destruct check_grid.
  - destruct (all_on_grid_total s_next (states grids) Hlen)
      as (on & -> & Hon).
    cbn [bind]. destruct on.
    + destruct (digitize_dims_nearest_total s_next (states grids)
                  (Hon eq_refl) 0%nat) as (nodes & Hn & Hr); [simpl; lia|].
      destruct (ravel_from_in_range _ _ Hr) as (r & _ & _ & Hrav).
      unfold digitize_s. rewrite Hn. cbn [bind].
      unfold ravel_multi_index. rewrite Hrav. cbn [bind as_cell].
      by eexists.
    + rewrite Hk. cbn [bind as_cell]. by eexists.
  - rewrite Hk. cbn [bind as_cell]. by eexists.
Qed.

(** X19.  [compute_Q_map] raises nothing when there is at least one state
    grid and one action grid, the state grids are strictly increasing, and
    the decoder returns one coordinate per state grid for every grid point
    whose step did not fail. *)
Theorem compute_Q_map_total {X P : Type} (p_map : PMap X P) (grids : Grids)
    (check_grid : bool) :
  states grids <> [] -> actions grids <> [] ->
  Forall increasing (states grids) ->
  (forall sa, snd (step_of p_map sa) = false ->
              length (fst (step_of p_map sa)) = length (states grids)) ->
  exists Q_map Q_F og,
    compute_Q_map p_map grids check_grid = OK (Q_map, Q_F, og).
Proof.
  intros Hne Hna Hs Hdec. unfold compute_Q_map.
  destruct (total_gridpoints grids) as [n|e] eqn:E.
  2:{ unfold total_gridpoints in E.
      by destruct (states grids), (actions grids). }
  cbn [bind].
  assert (Hfill : forall SA idx t,
            exists t', fill_seq p_map grids check_grid idx SA t = OK t').
  { induction SA as [|sa rest IH]; intros idx t; simpl; [by eexists|].
    specialize (Hdec sa). unfold step_of in Hdec.
    destruct (sa2xp p_map sa (p p_map)) as [x p0].
    destruct (call p_map x p0) as [x_next failed]. simpl in Hdec.
    destruct (store_total grids check_grid idx (xp2s p_map x_next p0)
                failed t Hs Hdec) as [t' ->].
    cbn [bind]. apply IH. }
  destruct (Hfill (product (states grids ++ actions grids)) 0%nat (blank n))
    as [t ->].
  cbn [bind]. unfold deliver. by eexists _, _, _.
Qed.

Lemma compute_Q_map_total_witness :
  exists Q_map Q_F og,
    compute_Q_map (Toy.p_map 0) Toy.grids true = OK (Q_map, Q_F, og).
Proof.
  apply (compute_Q_map_total (Toy.p_map 0) Toy.grids true).
  - discriminate.
  - discriminate.
  - repeat constructor.
  - reflexivity.
Defined.

(** * The parallel builder in terms of the sequential one *)

Lemma fill_par_default_decoder {X P : Type} (p_map : PMap X P)
    (grids : Grids) (check_grid : bool) (results : list (X * bool))
    (SA : list (list Q)) :
  forall (idx : nat) (t : tables),
  fill_par (with_default_decoder p_map) grids check_grid (p p_map)
    results idx SA t
  = fill_par p_map grids check_grid (p p_map) results idx SA t.
Proof.
  induction SA as [|sa rest IH]; intros idx t; [done|].
  cbn [fill_par]. destruct (item results idx) as [[x_next failed]|e]; [|done].
  cbn [bind xp2s with_default_decoder].
  destruct (store grids check_grid idx (xp2s p_map x_next (p p_map)) failed t)
    as [t'|e]; [|done].
  cbn [bind]. apply IH.
Qed.

(** X20.  In every case [parcompute_Q_map] returns what [compute_Q_map]
    returns for the same transition map with its decoder pinned to the
    default parameters: the two builders differ in nothing but the
    parameters handed to the decoder. *)
Theorem parcompute_Q_map_as_compute {X P : Type} (p_map : PMap X P)
    (grids : Grids) (check_grid : bool) :
  parcompute_Q_map p_map grids check_grid
  = compute_Q_map (with_default_decoder p_map) grids check_grid.
Proof.
  rewrite <- (parcompute_Q_map_agrees (with_default_decoder p_map))
    by done.
  unfold parcompute_Q_map.
  destruct (total_gridpoints grids) as [n|e]; [|done]. cbn [bind].
  change (p (with_default_decoder p_map)) with (p p_map).
  by rewrite fill_par_default_decoder.
Qed.

(** * Seeding and measures on built tables *)

(** X21.  On the tables returned by [compute_Q_map], the viable set the
    solver returns without a seed lies below the one it returns when seeded
    with [~Q_F]: leaving the seed out can lose viable pairs but never adds
    one. *)
Theorem compute_QV_unseeded_below_seeded {X P : Type} (p_map : PMap X P)
    (grids : Grids) (check_grid : bool) (Q_map : ndarray Z)
    (Q_F : ndarray bool) (og : option (ndarray bool)) (fuel fuel' : nat)
    (Q0 S0 Q1 S1 : ndarray bool) :
  compute_Q_map p_map grids check_grid = OK (Q_map, Q_F, og) ->
  compute_QV fuel Q_map grids None og = Done (Q0, S0) ->
  compute_QV fuel' Q_map grids (Some (invert Q_F)) og = Done (Q1, S1) ->
  subset (data Q0) (data Q1).
Proof.
  intros Hb H0 H1.
  pose proof (compute_Q_map_failed p_map _ _ _ _ _ Hb) as Hfail.
  apply compute_Q_map_usable_aux in Hb.
  destruct Hb as (Hs & HsF & Hw & HwF & _ & _ & _).
  assert (Hw0 : well_shaped (initial_Q_V Q_map None)).
  { unfold well_shaped in *. simpl. by rewrite length_map. }
  pose proof (compute_QV_result_converged Q_map grids None og fuel Q0 S0
                Hw0 Hs H0) as Hc.
  unfold compute_QV in H0, H1.
  destruct (project_Q2S (initial_Q_V Q_map None) grids np_any)
    as [Sa|e] eqn:Ea; [|discriminate].
  destruct (project_Q2S (initial_Q_V Q_map (Some (invert Q_F))) grids np_any)
    as [Sb|e] eqn:Eb; [|discriminate].
  destruct (QV_loop_result _ _ _ _ _ _ _ _ _ Ea H0) as (Hsh0 & Hsub0 & _).
  simpl in Hsh0, Hsub0.
  eapply QV_loop_maximal; [| exact Eb | | | exact H1].
  - replace (on_grid_or_zeros (initial_Q_V Q_map (Some (invert Q_F))) og)
      with (on_grid_or_zeros Q0 og); [exact Hc|].
    destruct og; simpl; [done | congruence].
  - simpl. congruence.
  - eapply subset_trans; [exact Hsub0|]. simpl.
    apply Forall2_same_length_lookup_2.
    + rewrite !length_map. unfold well_shaped in *. congruence.
    + intros q v f Hv Hf Hvt. subst v.
      rewrite list_lookup_fmap in Hv. rewrite list_lookup_fmap in Hf.
      destruct (data Q_map !! q) as [k|] eqn:Hk; [|done].
      destruct (data Q_F !! q) as [[|]|] eqn:HF; simpl in Hf.
      * rewrite (Hfail q HF) in Hk. injection Hk as <-. done.
      * by injection Hf as <-.
      * done.
Qed.

Lemma compute_QV_unseeded_below_seeded_witness :
  subset (data Toy.Q_N) (data Toy.Q_N).
Proof.
  apply (compute_QV_unseeded_below_seeded (Toy.p_map 0) Toy.grids false
           Toy.Q_map Toy.Q_F None 6 6 Toy.Q_N Toy.S_N Toy.Q_N Toy.S_N).
  - reflexivity.
  - reflexivity.
  - reflexivity.
Defined.

Lemma sum_unit_bounds (vals : list Q) :
  Forall (fun v => (0 <= v)%Q /\ (v <= 1)%Q) vals ->
  (0 <= foldr Qplus 0 vals)%Q
  /\ (foldr Qplus 0 vals <= inject_Z (Z.of_nat (length vals)))%Q.
Proof.
  induction 1 as [|v vals [Hv0 Hv1] _ [IH0 IH1]]; simpl.
  - split; apply Qle_refl.
  - assert (Hn : (inject_Z (Z.of_nat (S (length vals)))
                  == inject_Z (Z.of_nat (length vals)) + 1)%Q).
    { rewrite Nat2Z.inj_succ. unfold Z.succ. by rewrite inject_Z_plus. }
    rewrite Hn. split; lra.
Qed.

Lemma mean_unit_bounds (vals : list Q) :
  vals <> [] ->
  Forall (fun v => (0 <= v)%Q /\ (v <= 1)%Q) vals ->
  (0 <= mean vals)%Q /\ (mean vals <= 1)%Q.
Proof.
  intros Hne Hall. destruct (sum_unit_bounds vals Hall) as [H0 H1].
  assert (Hq : (0 < inject_Z (Z.of_nat (length vals)))%Q).
  { change 0%Q with (inject_Z 0). rewrite <- Zlt_Qlt.
    destruct vals; [done | simpl; lia]. }
  unfold mean. split.
  - apply Qle_shift_div_l; [done|]. by rewrite Qmult_0_l.
  - apply Qle_shift_div_r; [done|]. by rewrite Qmult_1_l.
Qed.

(** X22.  When the measure [S_M] takes its values between 0 and 1 (as the
    [np.mean] projection of a viable set does), so does the array returned
    by [map_S2Q]. *)
Theorem map_S2Q_unit_interval (Q_map : ndarray Z) (S_M : ndarray Q)
    (s_grid : list (list Q)) (Q_V Q_on_grid : option (ndarray bool))
    (Q_M : ndarray Q) :
  Forall (fun v => (0 <= v)%Q /\ (v <= 1)%Q) (data S_M) ->
  map_S2Q Q_map S_M s_grid Q_V Q_on_grid = OK Q_M ->
  Forall (fun m => (0 <= m)%Q /\ (m <= 1)%Q) (data Q_M).
Proof.
  intros HS H. unfold map_S2Q in H. inv_bind H. injection H as <-.
  cbn [data]. apply Forall_lookup. intros q m Hq.
  set (Q_V' := match Q_V with Some v => v | None => astype_bool Q_map end)
    in *.
  pose proof (fill_measure_length _ _ _ _ _ _ _ _ Ha) as Hlen.
  pose proof (lookup_lt_Some _ _ _ Hq) as Hlt. rewrite Hlen in Hlt.
  destruct (decide (data Q_V' !! q = Some true)) as [Hv|Hnv].
  - destruct (fill_measure_viable _ _ _ _ _
                (seq 0 (length (data Q_V'))) q (NoDup_seq _ _)
                ltac:(apply elem_of_seq; apply lookup_lt_Some in Hv; lia)
                Hv _ _ Ha) as (on & s & m' & _ & _ & Hcm & Hm').
    rewrite (Hm' Hlt) in Hq. injection Hq as <-.
    destruct (corner_measure_spec _ _ _ _ _ Hcm) as (sdx & corners & _ & _ & Hc).
    destruct corners as [|c cs].
    + destruct Hc as [-> _]. split; [apply Qle_refl | done].
    + destruct Hc as (vals & Hvals & Hm). rewrite Hm.
      apply mean_unit_bounds.
      * intros ->. by apply Forall2_length in Hvals.
      * apply Forall_forall. intros v Hv'.
        apply list_elem_of_lookup in Hv'. destruct Hv' as [i Hi].
        destruct (Forall2_lookup_r _ _ _ _ _ Hvals Hi) as (idx & _ & Hg).
        apply get_elem in Hg. by apply (proj1 (Forall_forall _ _) HS).
  - rewrite (fill_measure_other _ _ _ _ _ _ q (or_intror Hnv) _ _ Ha) in Hq.
    apply lookup_replicate in Hq. destruct Hq as [-> _].
    split; [apply Qle_refl | done].
Qed.

Lemma map_S2Q_unit_interval_witness :
  Forall (fun m => (0 <= m)%Q /\ (m <= 1)%Q) (data Toy.Q_M).
Proof.
  apply (map_S2Q_unit_interval Toy.Q_map Toy.S_M [Toy.g3] (Some Toy.Q_V)
           None Toy.Q_M).
  - repeat constructor; by vm_compute.
  - vm_compute. reflexivity.
Defined.
